(** * Paragraph layout and hyphenation engine of the CrossPoint reader

    A shallow embedding of [ParsedText] (word buffer, the two line
    breakers, line extraction) and of the [Hyphenator] facade, together
    with the properties stated about them in the specification.

    Conventions.
    - [std::string] is a list of bytes; [uint16_t], [size_t] (32 bits on
      the ESP32 target), [int] and [long long] values are integers in [Z];
      every conversion to an unsigned or narrower type is written out with
      [to_uint16], [to_size_t], [to_int] and [to_int64].  Plain [int]
      additions are left in [Z]; the theorems that need it state the ranges
      under which they stay inside [int].
    - [std::list] and [std::vector] are lists; an index read [v[i]] is
      [nth i v d].
    - loops that are not structurally recursive carry a fuel argument and
      return [None] when it runs out; the theorems show that the fuel the
      callers pass is always enough. *)

From Stdlib Require Import ZArith List Bool Lia Arith PeanoNat.
From Stdlib Require Import Strings.Byte.
Import ListNotations.

Local Open Scope Z_scope.

(** ** Machine integers *)

Definition to_uint16 (z : Z) : Z := z mod 65536.
Definition to_size_t (z : Z) : Z := z mod 4294967296.
Definition to_int (z : Z) : Z := (z + 2147483648) mod 4294967296 - 2147483648.
Definition to_int64 (z : Z) : Z :=
  (z + 9223372036854775808) mod 18446744073709551616 - 9223372036854775808.

(** [constexpr int MAX_COST = std::numeric_limits<int>::max();] *)
Definition MAX_COST : Z := 2147483647.

(** ** Data model *)

Definition bytes := list byte.

(** [EpdFontFamily::Style] *)
Inductive FontStyle := REGULAR | BOLD | ITALIC | BOLD_ITALIC.

(** [TextBlock::Style] (the paragraph alignment) *)
Inductive BlockStyle := JUSTIFIED | LEFT_ALIGN | CENTER_ALIGN | RIGHT_ALIGN.

Definition BlockStyle_eqb (a b : BlockStyle) : bool :=
  match a, b with
  | JUSTIFIED, JUSTIFIED | LEFT_ALIGN, LEFT_ALIGN
  | CENTER_ALIGN, CENTER_ALIGN | RIGHT_ALIGN, RIGHT_ALIGN => true
  | _, _ => false
  end.

(** An emitted line: words, per-word x offsets, per-word styles, alignment. *)
Record TextBlock := mkTextBlock {
  tb_words : list bytes;
  tb_wordXpos : list Z;
  tb_wordStyles : list FontStyle;
  tb_style : BlockStyle
}.

(** The renderer collaborator, as far as the engine uses it. *)
Record GfxRenderer := mkRenderer {
  getTextWidth : Z -> bytes -> FontStyle -> Z;
  getSpaceWidth : Z -> Z
}.

Record CodepointInfo := mkCodepointInfo {
  value : Z;
  byteOffset : nat
}.

(** [Hyphenator::BreakInfo] *)
Record BreakInfo := mkBreakInfo {
  bi_byteOffset : nat;
  requiresInsertedHyphen : bool
}.

(** The interface of a language hyphenator that the facade relies on. *)
Record LanguageHyphenator := mkLanguageHyphenator {
  breakIndexes : list CodepointInfo -> list nat;
  minPrefix : nat;
  minSuffix : nat
}.

(** The members of [ParsedText]. *)
Record ParsedText := mkParsedText {
  words : list bytes;
  wordStyles : list FontStyle;
  style : BlockStyle;
  extraParagraphSpacing : bool;
  hyphenationEnabled : bool
}.

Definition withWords (pt : ParsedText) (ws : list bytes) (sts : list FontStyle) : ParsedText :=
  mkParsedText ws sts (style pt) (extraParagraphSpacing pt) (hyphenationEnabled pt).

(** ** Soft hyphens (anonymous namespace of ParsedText.cpp) *)

(** Does the two-byte pattern [0xC2 0xAD] start with bytes [a], [b]? *)
Definition isSoftHyphenPair (a b : byte) : bool := Byte.eqb a xc2 && Byte.eqb b xad.

(** [word.find(SOFT_HYPHEN_UTF8) != npos] *)
Fixpoint containsSoftHyphen (word : bytes) : bool :=
  match word with
  | a :: ((b :: _) as t) => isSoftHyphenPair a b || containsSoftHyphen t
  | _ => false
  end.

(** The loop [while ((pos = word.find(SH, pos)) != npos) word.erase(pos, 2)]:
    the search resumes at the byte that follows the erased pair, so the
    bytes already scanned are never looked at again. *)
Fixpoint stripSoftHyphensInPlace (word : bytes) : bytes :=
  match word with
  | a :: ((b :: t') as t) =>
      if isSoftHyphenPair a b then stripSoftHyphensInPlace t'
      else a :: stripSoftHyphensInPlace t
  | _ => word
  end.

Definition hyphenChar : byte := x2d.

Definition measureWordWidth (renderer : GfxRenderer) (fontId : Z) (word : bytes)
    (st : FontStyle) (appendHyphen : bool) : Z :=
  let hasSoftHyphen := containsSoftHyphen word in
  if negb hasSoftHyphen && negb appendHyphen then
    to_uint16 (getTextWidth renderer fontId word st)
  else
    let sanitized := if hasSoftHyphen then stripSoftHyphensInPlace word else word in
    let sanitized := if appendHyphen then sanitized ++ [hyphenChar] else sanitized in
    to_uint16 (getTextWidth renderer fontId sanitized st).

Definition isEmpty {A} (l : list A) : bool :=
  match l with [] => true | _ => false end.

(** ** Hyphenator.cpp *)

Section Hyphenator.

(** Helpers of HyphenationCommon, which the facade calls; their code is
    not part of the sources at hand, so they are parameters. *)
Variable collectCodepoints : bytes -> list CodepointInfo.
Variable trimSurroundingPunctuationAndFootnote : list CodepointInfo -> list CodepointInfo.
Variables isExplicitHyphen isSoftHyphen isAlphabetic : Z -> bool.
(** [LiangWordConfig::kDefaultMinPrefix], [kDefaultMinSuffix] *)
Variables kDefaultMinPrefix kDefaultMinSuffix : nat.
(** The static [Hyphenator::cachedHyphenator_], set by [setPreferredLanguage]. *)
Variable cachedHyphenator_ : option LanguageHyphenator.

Definition cpDefault : CodepointInfo := mkCodepointInfo 0 0.

Definition byteOffsetForIndex (cps : list CodepointInfo) (index : nat) : nat :=
  if (index <? length cps)%nat then byteOffset (nth index cps cpDefault)
  else match cps with
       | [] => 0%nat
       | _ => byteOffset (last cps cpDefault)
       end.

(** The test of the loop body of [buildExplicitBreakInfos] at [cps[i]],
    with [prev = cps[i-1]] and [next = cps[i+1]]. *)
Definition isExplicitBreakAt (prev cur next : CodepointInfo) : bool :=
  isExplicitHyphen (value cur) && isAlphabetic (value prev) && isAlphabetic (value next).

(** [for (i = 1; i + 1 < cps.size(); ++i)]: the argument is [cps] from
    index [i - 1] on. *)
Fixpoint buildExplicitBreakInfos (cps : list CodepointInfo) : list BreakInfo :=
  match cps with
  | prev :: ((cur :: next :: _) as t) =>
      if isExplicitBreakAt prev cur next
      then mkBreakInfo (byteOffset next) (isSoftHyphen (value cur)) :: buildExplicitBreakInfos t
      else buildExplicitBreakInfos t
  | _ => []
  end.

(** The same breaks, read off the specification: one entry for every
    index [i] of an explicit marker that sits between two alphabetic
    codepoints, in increasing order of [i]; the entry points at the
    codepoint after the marker and asks for a hyphen glyph exactly when
    the marker is a soft hyphen. *)
Definition markerAt (cps : list CodepointInfo) (i : nat) : bool :=
  isExplicitBreakAt (nth (i - 1) cps cpDefault) (nth i cps cpDefault) (nth (i + 1) cps cpDefault).

Definition markerBreak (cps : list CodepointInfo) (i : nat) : BreakInfo :=
  mkBreakInfo (byteOffset (nth (i + 1) cps cpDefault)) (isSoftHyphen (value (nth i cps cpDefault))).

Definition explicitMarkerBreaks (cps : list CodepointInfo) : list BreakInfo :=
  map (markerBreak cps) (filter (markerAt cps) (seq 1 (length cps - 2))).

(** [for (idx = minPrefix; idx + minSuffix <= cps.size(); ++idx)] *)
Fixpoint fallbackIndexes (fuel idx minSuf n : nat) : list nat :=
  match fuel with
  | O => []
  | S fuel' =>
      if (idx + minSuf <=? n)%nat then idx :: fallbackIndexes fuel' (S idx) minSuf n
      else []
  end.

(** [hyphenator ? hyphenator->minPrefix() : LiangWordConfig::kDefaultMinPrefix] *)
Definition activeMinPrefix : nat :=
  match cachedHyphenator_ with Some h => minPrefix h | None => kDefaultMinPrefix end.
Definition activeMinSuffix : nat :=
  match cachedHyphenator_ with Some h => minSuffix h | None => kDefaultMinSuffix end.

(** [if (hyphenator) indexes = hyphenator->breakIndexes(cps);] *)
Definition languageBreaks (cps : list CodepointInfo) : list nat :=
  match cachedHyphenator_ with Some h => breakIndexes h cps | None => [] end.

Definition breakOffsets (word : bytes) (includeFallback : bool) : list BreakInfo :=
  if isEmpty word then [] else
  let cps := trimSurroundingPunctuationAndFootnote (collectCodepoints word) in
  let explicitBreakInfos := buildExplicitBreakInfos cps in
  if negb (isEmpty explicitBreakInfos) then explicitBreakInfos else
  let indexes := languageBreaks cps in
  let indexes :=
    if includeFallback && isEmpty indexes then
      fallbackIndexes (S (length cps)) activeMinPrefix activeMinSuffix (length cps)
    else indexes in
  if isEmpty indexes then [] else
  map (fun idx => mkBreakInfo (byteOffsetForIndex cps idx) true) indexes.

End Hyphenator.

(** ** LanguageRegistry.cpp and the language selection of Hyphenator.cpp *)

(** [std::string == const char*] on the tags of the registry. *)
Fixpoint bytes_eqb (a b : bytes) : bool :=
  match a, b with
  | [], [] => true
  | x :: a', y :: b' => Byte.eqb x y && bytes_eqb a' b'
  | _, _ => false
  end.

(** [struct LanguageEntry] *)
Record LanguageEntry := mkLanguageEntry {
  cliName : bytes;
  primaryTag : bytes;
  hyphenator : LanguageHyphenator
}.

(** [if (c >= 'A' && c <= 'Z') c = static_cast<char>(c - 'A' + 'a');] *)
Definition toLowerAscii (c : byte) : byte :=
  let n := Byte.to_N c in
  if ((65 <=? n) && (n <=? 90))%N then
    match Byte.of_N (n - 65 + 97) with Some b => b | None => c end
  else c.

(** The loop of [hyphenatorForLanguage]: the tag up to its first ['-'] or
    ['_'], in lower case. *)
Fixpoint primarySubtag (langTag : bytes) : bytes :=
  match langTag with
  | [] => []
  | c :: rest =>
      if Byte.eqb c x2d || Byte.eqb c x5f then []
      else toLowerAscii c :: primarySubtag rest
  end.

Section LanguageRegistry.

(** The four hyphenators of LanguageRegistry.cpp; they are built from
    pattern tries that are not part of the sources at hand. *)
Variables englishHyphenator frenchHyphenator germanHyphenator russianHyphenator
  : LanguageHyphenator.

(** [kEntries]: "english"/"en", "french"/"fr", "german"/"de", "russian"/"ru". *)
Definition entries : list LanguageEntry :=
  [mkLanguageEntry [x65; x6e; x67; x6c; x69; x73; x68] [x65; x6e] englishHyphenator;
   mkLanguageEntry [x66; x72; x65; x6e; x63; x68] [x66; x72] frenchHyphenator;
   mkLanguageEntry [x67; x65; x72; x6d; x61; x6e] [x64; x65] germanHyphenator;
   mkLanguageEntry [x72; x75; x73; x73; x69; x61; x6e] [x72; x75] russianHyphenator].

(** [std::find_if] over the entries. *)
Definition getLanguageHyphenatorForPrimaryTag (tag : bytes) : option LanguageHyphenator :=
  match find (fun entry => bytes_eqb tag (primaryTag entry)) entries with
  | Some entry => Some (hyphenator entry)
  | None => None
  end.

Definition getLanguageEntries : list LanguageEntry := entries.

Definition hyphenatorForLanguage (langTag : bytes) : option LanguageHyphenator :=
  if isEmpty langTag then None else
  let primary := primarySubtag langTag in
  if isEmpty primary then None else getLanguageHyphenatorForPrimaryTag primary.

(** [Hyphenator::setPreferredLanguage]: the value it stores in
    [cachedHyphenator_]. *)
Definition setPreferredLanguage (lang : bytes) : option LanguageHyphenator :=
  hyphenatorForLanguage lang.

End LanguageRegistry.

(** ** ParsedText.cpp *)

(** The candidate retained so far by the selection loop of
    [hyphenateWordAtIndex]. *)
Record Chosen := mkChosen {
  chosenOffset : nat;
  chosenWidth : Z;
  chosenNeedsHyphen : bool
}.

(** What one iteration of the inner loop of [computeHyphenatedLineBreaks]
    does: [continue] with the word appended, or [break] and close the line. *)
Inductive LineStep :=
| Continue (currentIndex : nat) (lineWidth : Z)
| CloseLine (pt : ParsedText) (wordWidths : list Z) (currentIndex : nat).

Definition sumZ (l : list Z) : Z := fold_left Z.add l 0.

(** [v[i] = x] on a vector; nothing is written when [i] is out of range
    (the source never does that: it would be undefined behaviour). *)
Definition setAt {A} (i : nat) (x : A) (l : list A) : list A :=
  if (i <? length l)%nat then firstn i l ++ x :: skipn (S i) l else l.

(** [l.insert(l.begin() + i, x)] *)
Definition insertAt {A} (i : nat) (x : A) (l : list A) : list A :=
  firstn i l ++ x :: skipn i l.

(** UTF-8 of U+2003 EM SPACE, the paragraph indent. *)
Definition emSpace : bytes := [xe2; x80; x83].

Section ParsedText.

Variable renderer : GfxRenderer.
Variable fontId : Z.
(** [Hyphenator::breakOffsets], with the language that is active during
    the layout pass. *)
Variable Hyphenator_breakOffsets : bytes -> bool -> list BreakInfo.

Definition addWord (pt : ParsedText) (word : bytes) (fontStyle : FontStyle) : ParsedText :=
  if isEmpty word then pt
  else withWords pt (words pt ++ [word]) (wordStyles pt ++ [fontStyle]).

Definition applyParagraphIndent (pt : ParsedText) : ParsedText :=
  if extraParagraphSpacing pt || isEmpty (words pt) then pt
  else if BlockStyle_eqb (style pt) JUSTIFIED || BlockStyle_eqb (style pt) LEFT_ALIGN then
    match words pt with
    | front :: rest => withWords pt ((emSpace ++ front) :: rest) (wordStyles pt)
    | [] => pt
    end
  else pt.

(** The two iterators advance together over [words] and [wordStyles]. *)
Fixpoint calculateWordWidthsFrom (ws : list bytes) (sts : list FontStyle) : list Z :=
  match ws with
  | [] => []
  | w :: ws' =>
      measureWordWidth renderer fontId w (hd REGULAR sts) false
      :: calculateWordWidthsFrom ws' (tl sts)
  end.

Definition calculateWordWidths (pt : ParsedText) : list Z :=
  calculateWordWidthsFrom (words pt) (wordStyles pt).

(** Body of [for (const auto& info : breakInfos)]. *)
Definition considerBreak (word : bytes) (st : FontStyle) (availableWidth : Z)
    (chosen : Chosen) (info : BreakInfo) : Chosen :=
  let offset := bi_byteOffset info in
  if (offset =? 0)%nat || (length word <=? offset)%nat then chosen else
  let needsHyphen := requiresInsertedHyphen info in
  let prefixWidth := measureWordWidth renderer fontId (firstn offset word) st needsHyphen in
  if (prefixWidth >? availableWidth) || (prefixWidth <=? chosenWidth chosen) then chosen
  else mkChosen offset prefixWidth needsHyphen.

Definition chooseBreak (word : bytes) (st : FontStyle) (availableWidth : Z)
    (breakInfos : list BreakInfo) : Chosen :=
  fold_left (considerBreak word st availableWidth) breakInfos (mkChosen 0 (-1) true).

Definition hyphenateWordAtIndex (wordIndex : nat) (availableWidth : Z)
    (wordWidths : list Z) (allowFallbackBreaks : bool) (pt : ParsedText)
    : bool * ParsedText * list Z :=
  if (availableWidth <=? 0) || (length (words pt) <=? wordIndex)%nat then (false, pt, wordWidths) else
  let word := nth wordIndex (words pt) [] in
  let st := nth wordIndex (wordStyles pt) REGULAR in
  let breakInfos := Hyphenator_breakOffsets word allowFallbackBreaks in
  if isEmpty breakInfos then (false, pt, wordWidths) else
  let chosen := chooseBreak word st availableWidth breakInfos in
  if chosenWidth chosen <? 0 then (false, pt, wordWidths) else
  let remainder := skipn (chosenOffset chosen) word in
  let prefix := firstn (chosenOffset chosen) word
                ++ (if chosenNeedsHyphen chosen then [hyphenChar] else []) in
  let words' := insertAt (S wordIndex) remainder (setAt wordIndex prefix (words pt)) in
  let wordStyles' := insertAt (S wordIndex) st (wordStyles pt) in
  let wordWidths1 := setAt wordIndex (to_uint16 (chosenWidth chosen)) wordWidths in
  let remainderWidth := measureWordWidth renderer fontId remainder st false in
  (true, withWords pt words' wordStyles', insertAt (S wordIndex) remainderWidth wordWidths1).

(** The measured width of the prefix that a candidate break leaves on
    the line (with the hyphen glyph when the break needs one). *)
Definition prefixWidthOf (word : bytes) (st : FontStyle) (info : BreakInfo) : Z :=
  measureWordWidth renderer fontId (firstn (bi_byteOffset info) word) st
                   (requiresInsertedHyphen info).

(** A candidate the selection loop does not skip: it lies strictly inside
    the word and its prefix fits the available width. *)
Definition fittingBreak (word : bytes) (st : FontStyle) (availableWidth : Z)
    (info : BreakInfo) : Prop :=
  bi_byteOffset info <> 0%nat /\ (bi_byteOffset info < length word)%nat
  /\ prefixWidthOf word st info <= availableWidth.

(** The buffer and the cached widths after [words[wordIndex]] has been
    split at the candidate [info]. *)
Definition splitWordAt (wordIndex : nat) (info : BreakInfo) (wordWidths : list Z)
    (pt : ParsedText) : ParsedText * list Z :=
  let word := nth wordIndex (words pt) [] in
  let st := nth wordIndex (wordStyles pt) REGULAR in
  let remainder := skipn (bi_byteOffset info) word in
  let prefix := firstn (bi_byteOffset info) word
                ++ (if requiresInsertedHyphen info then [hyphenChar] else []) in
  (withWords pt (insertAt (S wordIndex) remainder (setAt wordIndex prefix (words pt)))
                (insertAt (S wordIndex) st (wordStyles pt)),
   insertAt (S wordIndex) (measureWordWidth renderer fontId remainder st false)
            (setAt wordIndex (prefixWidthOf word st info) wordWidths)).

(** *** The DP breaker *)

(** The cost of ending a line with [remainingSpace] pixels left, the rest
    of the paragraph costing [dpNext]: computed in [long long], saturated
    to [MAX_COST], stored in an [int]. *)
Definition lineCost (remainingSpace dpNext : Z) : Z :=
  let cost_ll := to_int64 (to_int64 (remainingSpace * remainingSpace) + dpNext) in
  if cost_ll >? MAX_COST then MAX_COST else to_int cost_ll.

(** [while (wordWidths[i] > pageWidth) { if (!hyphenateWordAtIndex(...)) break; }] *)
Fixpoint splitWhileTooWide (fuel i : nat) (pageWidth : Z) (wordWidths : list Z)
    (pt : ParsedText) : option (ParsedText * list Z) :=
  match fuel with
  | O => None
  | S fuel' =>
      if nth i wordWidths 0 >? pageWidth then
        match hyphenateWordAtIndex i pageWidth wordWidths true pt with
        | (true, pt', wordWidths') => splitWhileTooWide fuel' i pageWidth wordWidths' pt'
        | (false, _, _) => Some (pt, wordWidths)
        end
      else Some (pt, wordWidths)
  end.

(** [for (size_t i = 0; i < wordWidths.size(); ++i)] around it.  A split
  stores at [wordWidths[i]] a prefix width that fits [pageWidth], so the
  [while] tests its condition at most twice: the fuel 2 is never
  exhausted (lemma [splitWhile_spec]). *)
Fixpoint splitOversizedWords (fuel i : nat) (pageWidth : Z) (wordWidths : list Z)
    (pt : ParsedText) : option (ParsedText * list Z) :=
  match fuel with
  | O => None
  | S fuel' =>
      if (i <? length wordWidths)%nat then
        match splitWhileTooWide 2 i pageWidth wordWidths pt with
        | Some (pt', wordWidths') => splitOversizedWords fuel' (S i) pageWidth wordWidths' pt'
        | None => None
        end
      else Some (pt, wordWidths)
  end.

(** The number of bytes and words still to be scanned bounds every loop
    that walks the buffer while splitting words. *)
Definition bufferFuel (pt : ParsedText) : nat :=
  S (length (words pt) + length (concat (words pt))).

(** [for (size_t j = i; j < totalWordCount; ++j)].  [ws] is
    [wordWidths[j..]] and [dps] is [dp[j+1..]]; [dps] is empty exactly when
    [j == totalWordCount - 1]. *)
Fixpoint dpInner (pageWidth spaceWidth : Z) (ws dps : list Z) (j : nat)
    (currlen dpi : Z) (ansi : nat) : Z * nat :=
  match ws with
  | [] => (dpi, ansi)
  | w :: ws' =>
      let currlen := currlen + (w + spaceWidth) in
      if currlen >? pageWidth then (dpi, ansi) else
      let cost :=
        match dps with
        | [] => 0
        | dpNext :: _ => lineCost (pageWidth - currlen) dpNext
        end in
      if cost <? dpi
      then dpInner pageWidth spaceWidth ws' (tl dps) (S j) currlen cost j
      else dpInner pageWidth spaceWidth ws' (tl dps) (S j) currlen dpi ansi
  end.

(** [for (int i = totalWordCount - 2; i >= 0; --i)], after the base case.
    [ws] is [wordWidths[i..]]; the result is [(dp[i..], ans[i..])]. *)
Fixpoint dpFill (pageWidth spaceWidth : Z) (i : nat) (ws : list Z) : list Z * list nat :=
  match ws with
  | [] => ([], [])
  | w :: ws' =>
      match ws' with
      | [] => ([0], [i])
      | _ =>
          let '(dps, anss) := dpFill pageWidth spaceWidth (S i) ws' in
          let '(dpi, ansi) := dpInner pageWidth spaceWidth ws dps i (- spaceWidth) MAX_COST 0%nat in
          if dpi =? MAX_COST then (hd 0 dps :: dps, i :: anss)
          else (dpi :: dps, ansi :: anss)
      end
  end.

(** [while (currentWordIndex < totalWordCount)] *)
Fixpoint followBreaks (fuel : nat) (ans : list nat) (totalWordCount currentWordIndex : nat)
    : option (list nat) :=
  match fuel with
  | O => None
  | S fuel' =>
      if (currentWordIndex <? totalWordCount)%nat then
        let nextBreakIndex := (nth currentWordIndex ans 0 + 1)%nat in
        let nextBreakIndex :=
          if (nextBreakIndex <=? currentWordIndex)%nat then (currentWordIndex + 1)%nat
          else nextBreakIndex in
        match followBreaks fuel' ans totalWordCount nextBreakIndex with
        | Some rest => Some (nextBreakIndex :: rest)
        | None => None
        end
      else Some []
  end.

Definition computeLineBreaks (pageWidth spaceWidth : Z) (wordWidths : list Z)
    (pt : ParsedText) : option (ParsedText * list Z * list nat) :=
  if isEmpty (words pt) then Some (pt, wordWidths, []) else
  match splitOversizedWords (bufferFuel pt) 0 pageWidth wordWidths pt with
  | None => None
  | Some (pt', wordWidths') =>
      let totalWordCount := length (words pt') in
      let '(_, ans) := dpFill pageWidth spaceWidth 0 wordWidths' in
      match followBreaks (S totalWordCount) ans totalWordCount 0 with
      | Some lineBreakIndices => Some (pt', wordWidths', lineBreakIndices)
      | None => None
      end
  end.

(** *** The greedy hyphenated breaker *)

(** Body of the inner [while (currentIndex < wordWidths.size())]. *)
Definition lineBody (pageWidth spaceWidth : Z) (lineStart currentIndex : nat) (lineWidth : Z)
    (wordWidths : list Z) (pt : ParsedText) : LineStep :=
  let isFirstWord := (currentIndex =? lineStart)%nat in
  let spacing := if isFirstWord then 0 else spaceWidth in
  let candidateWidth := spacing + nth currentIndex wordWidths 0 in
  if lineWidth + candidateWidth <=? pageWidth then
    Continue (S currentIndex) (lineWidth + candidateWidth)
  else
    let availableWidth := pageWidth - lineWidth - spacing in
    let allowFallbackBreaks := isFirstWord in
    let '(split, pt', wordWidths') :=
      if availableWidth >? 0
      then hyphenateWordAtIndex currentIndex availableWidth wordWidths allowFallbackBreaks pt
      else (false, pt, wordWidths) in
    if split then CloseLine pt' wordWidths' (S currentIndex)
    else if (currentIndex =? lineStart)%nat then CloseLine pt wordWidths (S currentIndex)
    else CloseLine pt wordWidths currentIndex.

Fixpoint fillLine (fuel : nat) (pageWidth spaceWidth : Z) (lineStart currentIndex : nat)
    (lineWidth : Z) (wordWidths : list Z) (pt : ParsedText)
    : option (ParsedText * list Z * nat) :=
  match fuel with
  | O => None
  | S fuel' =>
      if (currentIndex <? length wordWidths)%nat then
        match lineBody pageWidth spaceWidth lineStart currentIndex lineWidth wordWidths pt with
        | Continue currentIndex' lineWidth' =>
            fillLine fuel' pageWidth spaceWidth lineStart currentIndex' lineWidth' wordWidths pt
        | CloseLine pt' wordWidths' currentIndex' => Some (pt', wordWidths', currentIndex')
        end
      else Some (pt, wordWidths, currentIndex)
  end.

(** The outer [while (currentIndex < wordWidths.size())]. *)
Fixpoint hyphenatedLines (fuel : nat) (pageWidth spaceWidth : Z) (currentIndex : nat)
    (wordWidths : list Z) (pt : ParsedText) : option (ParsedText * list Z * list nat) :=
  match fuel with
  | O => None
  | S fuel' =>
      if (currentIndex <? length wordWidths)%nat then
        match fillLine (S (length wordWidths)) pageWidth spaceWidth
                       currentIndex currentIndex 0 wordWidths pt with
        | Some (pt', wordWidths', currentIndex') =>
            match hyphenatedLines fuel' pageWidth spaceWidth currentIndex' wordWidths' pt' with
            | Some (pt'', wordWidths'', rest) => Some (pt'', wordWidths'', currentIndex' :: rest)
            | None => None
            end
        | None => None
        end
      else Some (pt, wordWidths, [])
  end.

Definition computeHyphenatedLineBreaks (pageWidth spaceWidth : Z) (wordWidths : list Z)
    (pt : ParsedText) : option (ParsedText * list Z * list nat) :=
  hyphenatedLines (bufferFuel pt) pageWidth spaceWidth 0 wordWidths pt.

(** *** Line extraction *)

(** [for (i = lastBreakAt; i < lineBreak; i++) { lineXPos.push_back(xpos);
    xpos += currentWordWidth + spacing; }] with [xpos] a [uint16_t]. *)
Fixpoint lineXPositions (spacing xpos : Z) (ws : list Z) : list Z :=
  match ws with
  | [] => []
  | currentWordWidth :: ws' =>
      xpos :: lineXPositions spacing (to_uint16 (xpos + (currentWordWidth + spacing))) ws'
  end.

(** The spacing between the words of a line.  The division is the one of
    [int / size_t]: both operands are converted to [size_t]. *)
Definition lineSpacing (st : BlockStyle) (isLastLine : bool) (lineWordCount : nat)
    (spareSpace spaceWidth : Z) : Z :=
  if BlockStyle_eqb st JUSTIFIED && negb isLastLine && (2 <=? lineWordCount)%nat
  then to_int (to_size_t spareSpace / to_size_t (Z.of_nat lineWordCount - 1))
  else spaceWidth.

(** The x position of the first word of a line. *)
Definition lineStartX (st : BlockStyle) (lineWordCount : nat) (spareSpace spaceWidth : Z) : Z :=
  let reserved := to_size_t (spareSpace - to_size_t (Z.of_nat lineWordCount - 1) * spaceWidth) in
  match st with
  | RIGHT_ALIGN => to_uint16 reserved
  | CENTER_ALIGN => to_uint16 (reserved / 2)
  | _ => 0
  end.

Definition stripIfSoftHyphen (word : bytes) : bytes :=
  if containsSoftHyphen word then stripSoftHyphensInPlace word else word.

Definition extractLine (breakIndex : nat) (pageWidth spaceWidth : Z) (wordWidths : list Z)
    (lineBreakIndices : list nat) (pt : ParsedText) : ParsedText * TextBlock :=
  let lineBreak := nth breakIndex lineBreakIndices 0%nat in
  let lastBreakAt :=
    if (0 <? breakIndex)%nat then nth (breakIndex - 1) lineBreakIndices 0%nat else 0%nat in
  let lineWordCount := (lineBreak - lastBreakAt)%nat in
  let lineWidths := firstn lineWordCount (skipn lastBreakAt wordWidths) in
  let lineWordWidthSum := sumZ lineWidths in
  let spareSpace := pageWidth - lineWordWidthSum in
  let isLastLine := (breakIndex =? length lineBreakIndices - 1)%nat in
  let spacing := lineSpacing (style pt) isLastLine lineWordCount spareSpace spaceWidth in
  let xpos := lineStartX (style pt) lineWordCount spareSpace spaceWidth in
  let lineXPos := lineXPositions spacing xpos lineWidths in
  let lineWords := firstn lineWordCount (words pt) in
  let lineWordStyles := firstn lineWordCount (wordStyles pt) in
  (withWords pt (skipn lineWordCount (words pt)) (skipn lineWordCount (wordStyles pt)),
   mkTextBlock (map stripIfSoftHyphen lineWords) lineXPos lineWordStyles (style pt)).

(** [for (size_t i = 0; i < lineCount; ++i) extractLine(i, ...)], the
    blocks handed to [processLine] collected in order. *)
Fixpoint extractLines (count breakIndex : nat) (pageWidth spaceWidth : Z) (wordWidths : list Z)
    (lineBreakIndices : list nat) (pt : ParsedText) : ParsedText * list TextBlock :=
  match count with
  | O => (pt, [])
  | S count' =>
      let '(pt', block) := extractLine breakIndex pageWidth spaceWidth wordWidths lineBreakIndices pt in
      let '(pt'', blocks) :=
        extractLines count' (S breakIndex) pageWidth spaceWidth wordWidths lineBreakIndices pt' in
      (pt'', block :: blocks)
  end.

(** The break indices, with the buffer and widths as the breaker left them. *)
Definition breakLines (pageWidth spaceWidth : Z) (wordWidths : list Z) (pt : ParsedText)
    : option (ParsedText * list Z * list nat) :=
  if hyphenationEnabled pt
  then computeHyphenatedLineBreaks pageWidth spaceWidth wordWidths pt
  else computeLineBreaks pageWidth spaceWidth wordWidths pt.

(** [lineBreakIndices.size() - 1] is computed on a non-empty vector
    (lemma [breakLines_nonempty]), so the subtraction of [nat] agrees
    with the one of [size_t]. *)
Definition layoutAndExtractLines (pt : ParsedText) (viewportWidth : Z) (includeLastLine : bool)
    : option (ParsedText * list TextBlock) :=
  if isEmpty (words pt) then Some (pt, []) else
  let pt1 := applyParagraphIndent pt in
  let pageWidth := viewportWidth in
  let spaceWidth := getSpaceWidth renderer fontId in
  let wordWidths := calculateWordWidths pt1 in
  match breakLines pageWidth spaceWidth wordWidths pt1 with
  | None => None
  | Some (pt2, wordWidths', lineBreakIndices) =>
      let lineCount :=
        if includeLastLine then length lineBreakIndices
        else (length lineBreakIndices - 1)%nat in
      Some (extractLines lineCount 0 pageWidth spaceWidth wordWidths' lineBreakIndices pt2)
  end.

End ParsedText.

(** ** A language hyphenator with affix minimums *)

(** Modelled from the spec: [LanguageHyphenator::breakIndexes] (the
    pattern evaluator of LanguageHyphenator.cpp is not among the sources).
    The specification says that the gaps where the maximal pattern weight
    is odd are the candidates and that "candidates violating the language's
    minimum-prefix or minimum-suffix letter count are discarded".
    [oddGaps] stands for the pattern evaluation. *)
Definition affixFilteredHyphenator (oddGaps : list CodepointInfo -> list nat)
    (minPre minSuf : nat) : LanguageHyphenator :=
  mkLanguageHyphenator
    (fun cps =>
       filter (fun i => (minPre <=? i)%nat && (i + minSuf <=? length cps)%nat) (oddGaps cps))
    minPre minSuf.

(** ** A concrete renderer and concrete codepoint helpers

    They instantiate the parameters above wherever a statement is run on a
    concrete paragraph. *)
Module Sample.

(** A fixed-pitch font: every byte of the measured string is 10 pixels
    wide, a space is 5 pixels wide. *)
Definition renderer : GfxRenderer :=
  mkRenderer (fun _ text _ => 10 * Z.of_nat (length text)) (fun _ => 5).

Definition byteVal (b : byte) : Z := Z.of_N (Byte.to_N b).

(** Modelled from the spec: [collectCodepoints] (HyphenationCommon is not
    among the sources): "a decoded codepoint value paired with its byte
    offset in the source word".  UTF-8 sequences of one to three bytes
    are decoded; any other byte is taken as a codepoint of its own. *)
Fixpoint collectCodepointsFrom (offset : nat) (word : bytes) : list CodepointInfo :=
  match word with
  | [] => []
  | b0 :: t =>
      let v0 := byteVal b0 in
      if v0 <? 128 then mkCodepointInfo v0 offset :: collectCodepointsFrom (S offset) t
      else if (192 <=? v0) && (v0 <? 224) then
        match t with
        | b1 :: t1 =>
            mkCodepointInfo ((v0 - 192) * 64 + (byteVal b1 - 128)) offset
            :: collectCodepointsFrom (S (S offset)) t1
        | [] => [mkCodepointInfo v0 offset]
        end
      else if (224 <=? v0) && (v0 <? 240) then
        match t with
        | b1 :: b2 :: t2 =>
            mkCodepointInfo ((v0 - 224) * 4096 + (byteVal b1 - 128) * 64 + (byteVal b2 - 128)) offset
            :: collectCodepointsFrom (S (S (S offset))) t2
        | _ => mkCodepointInfo v0 offset :: collectCodepointsFrom (S offset) t
        end
      else mkCodepointInfo v0 offset :: collectCodepointsFrom (S offset) t
  end.

Definition collectCodepoints (word : bytes) : list CodepointInfo :=
  collectCodepointsFrom 0 word.

(** Modelled from the spec: [isAlphabetic]: the letters of the Latin and
    Cyrillic scripts that the supported languages use. *)
Definition isAlphabetic (cp : Z) : bool :=
  ((65 <=? cp) && (cp <=? 90)) || ((97 <=? cp) && (cp <=? 122))
  || ((192 <=? cp) && (cp <=? 591)) || ((1024 <=? cp) && (cp <=? 1279)).

(** Modelled from the spec: "an invisible soft-hyphen marker" is U+00AD. *)
Definition isSoftHyphen (cp : Z) : bool := cp =? 173.

(** Modelled from the spec: "explicit in-word hyphen markers (a literal
    hyphen or an invisible soft-hyphen marker)". *)
Definition isExplicitHyphen (cp : Z) : bool := (cp =? 45) || isSoftHyphen cp.

Definition isPunctuation (cp : Z) : bool :=
  ((33 <=? cp) && (cp <=? 47)) || ((58 <=? cp) && (cp <=? 64))
  || ((91 <=? cp) && (cp <=? 96)) || ((123 <=? cp) && (cp <=? 126)).

Fixpoint dropLeadingPunctuation (cps : list CodepointInfo) : list CodepointInfo :=
  match cps with
  | c :: t => if isPunctuation (value c) then dropLeadingPunctuation t else cps
  | [] => []
  end.

(** Modelled from the spec: [trimSurroundingPunctuationAndFootnote]:
    "trim leading/trailing punctuation and footnote-marker codepoints".
    Punctuation is the ASCII punctuation; a footnote marker is not
    recognised by this instance. *)
Definition trimSurroundingPunctuationAndFootnote (cps : list CodepointInfo)
    : list CodepointInfo :=
  rev (dropLeadingPunctuation (rev (dropLeadingPunctuation cps))).

(** Modelled from the spec: the "engine-wide default" affix minimums. *)
Definition kDefaultMinPrefix : nat := 2.
Definition kDefaultMinSuffix : nat := 2.

(** The facade with no active language. *)
Definition breakOffsetsNoLanguage : bytes -> bool -> list BreakInfo :=
  breakOffsets collectCodepoints trimSurroundingPunctuationAndFootnote
               isExplicitHyphen isSoftHyphen isAlphabetic
               kDefaultMinPrefix kDefaultMinSuffix None.

(** ASCII text as bytes. *)
Definition ofString (s : list nat) : bytes :=
  map (fun n => match Byte.of_nat n with Some b => b | None => x00 end) s.

Definition paragraph (st : BlockStyle) (spacing hyph : bool) (ws : list bytes) : ParsedText :=
  mkParsedText ws (map (fun _ => REGULAR) ws) st spacing hyph.

End Sample.

(** * Vocabulary of the statements *)

Module Voc.

(** A cost that fits the [int] of the DP table. *)
Definition costInRange (d : Z) : Prop := 0 <= d <= MAX_COST.

(** One style per word. *)
Definition aligned (pt : ParsedText) : Prop :=
  length (wordStyles pt) = length (words pt).

(** One style and one cached width per word. *)
Definition bufferOk (pt : ParsedText) (wordWidths : list Z) : Prop :=
  aligned pt /\ length wordWidths = length (words pt).

(** The index at which the last line of [breaks] starts. *)
Fixpoint lastLineStart (start : nat) (breaks : list nat) : nat :=
  match breaks with
  | [] => start
  | b :: rest =>
      match rest with
      | [] => start
      | _ => lastLineStart b rest
      end
  end.

(** The buffer once its first [b] words have been moved out. *)
Definition dropWords (b : nat) (pt : ParsedText) : ParsedText :=
  withWords pt (skipn b (words pt)) (skipn b (wordStyles pt)).

(** Every line of [breaks] ends where the table [ans] says. *)
Fixpoint endsAt (ans : list nat) (start : nat) (breaks : list nat) : Prop :=
  match breaks with
  | [] => True
  | e :: rest => e = S (nth start ans 0%nat) /\ endsAt ans e rest
  end.

(** The content width of a line: its word widths and one space between
    neighbours. *)
Definition lineWidthOf (spaceWidth : Z) (lineWidths : list Z) : Z :=
  match lineWidths with
  | [] => 0
  | _ => sumZ lineWidths + (Z.of_nat (length lineWidths) - 1) * spaceWidth
  end.

(** The widths of the words [first .. last-1]. *)
Definition slice {A} (first last : nat) (l : list A) : list A :=
  firstn (last - first) (skipn first l).

(** [breaks] cuts the indices [start .. total-1] into consecutive non-empty
    lines: it increases strictly from above [start] and ends at [total]. *)
Fixpoint coverFrom (start : nat) (breaks : list nat) (total : nat) : Prop :=
  match breaks with
  | [] => start = total
  | b :: rest => (start < b)%nat /\ (b <= total)%nat /\ coverFrom b rest total
  end.

(** The block that [extractLine] builds from the widths, words and styles
    of a line of [count] words. *)
Definition makeBlock (st : BlockStyle) (isLastLine : bool) (count : nat)
    (pageWidth spaceWidth : Z) (lineWidths : list Z) (lineWords : list bytes)
    (lineStyles : list FontStyle) : TextBlock :=
  let spareSpace := pageWidth - sumZ lineWidths in
  mkTextBlock (map stripIfSoftHyphen lineWords)
              (lineXPositions (lineSpacing st isLastLine count spareSpace spaceWidth)
                              (lineStartX st count spareSpace spaceWidth) lineWidths)
              lineStyles st.

(** The blocks of the first [count] lines of [breaks], which cut the
    buffer [ws], [sts] with cached widths [ww] from index [start] on; a line
    is the last one when no break follows it. *)
Fixpoint blocksOf (st : BlockStyle) (pageWidth spaceWidth : Z) (ww : list Z)
    (ws : list bytes) (sts : list FontStyle) (count start : nat) (breaks : list nat)
    : list TextBlock :=
  match count, breaks with
  | S count', e :: rest =>
      makeBlock st (isEmpty rest) (e - start) pageWidth spaceWidth
                (slice start e ww) (slice start e ws) (slice start e sts)
      :: blocksOf st pageWidth spaceWidth ww ws sts count' e rest
  | _, _ => []
  end.

(** The index reached after [count] lines. *)
Fixpoint reached (count start : nat) (breaks : list nat) : nat :=
  match count, breaks with
  | S count', e :: rest => reached count' e rest
  | _, _ => start
  end.

(** A paragraph with no word yet, and the words fed to it by [addWord]. *)
Definition emptyParagraph (st : BlockStyle) (spacing hyphenation : bool) : ParsedText :=
  mkParsedText [] [] st spacing hyphenation.

Definition feed (pt : ParsedText) (inputs : list (bytes * FontStyle)) : ParsedText :=
  fold_left (fun p input => addWord p (fst input) (snd input)) inputs pt.

Definition nonEmptyInput (input : bytes * FontStyle) : bool := negb (isEmpty (fst input)).

(** Does a byte [0xC2] directly follow another one?  In well-formed UTF-8
    it never does: [0xC2] is a lead byte and wants a continuation byte. *)
Fixpoint hasDoubleLead (word : bytes) : bool :=
  match word with
  | a :: ((b :: _) as t) => (Byte.eqb a xc2 && Byte.eqb b xc2) || hasDoubleLead t
  | _ => false
  end.

(** The gaps between neighbouring words of a line drawn with the widths
    [lineWidths] at the x offsets [xs]. *)
Fixpoint gapsOf (lineWidths xs : list Z) : list Z :=
  match lineWidths, xs with
  | w :: ((_ :: _) as ws'), x :: ((x' :: _) as xs') => (x' - x - w) :: gapsOf ws' xs'
  | _, _ => []
  end.

(** The scan measure: words and bytes from an index on. *)
Definition scanMeasure (ws : list bytes) : nat := (length ws + length (concat ws))%nat.

(** No word holds two [0xC2] bytes in a row. *)
Definition cleanWords (ws : list bytes) : Prop :=
  Forall (fun w => hasDoubleLead w = false) ws.

(** ** Vocabulary of the DP breaker's optimality *)

(** Every line that [breaks] cuts from index [start] on fits the page. *)
Fixpoint allFit (pageWidth spaceWidth : Z) (ww : list Z) (start : nat) (breaks : list nat)
    : Prop :=
  match breaks with
  | [] => True
  | e :: rest =>
      lineWidthOf spaceWidth (slice start e ww) <= pageWidth
      /\ allFit pageWidth spaceWidth ww e rest
  end.

(** The badness of the lines that [breaks] cuts from index [start] on:
    the squared slack of every line but the last. *)
Fixpoint breaksCost (pageWidth spaceWidth : Z) (ww : list Z) (start : nat) (breaks : list nat)
    : Z :=
  match breaks with
  | [] => 0
  | e :: rest =>
      match rest with
      | [] => 0
      | _ =>
          let slack := pageWidth - lineWidthOf spaceWidth (slice start e ww) in
          slack * slack + breaksCost pageWidth spaceWidth ww e rest
      end
  end.

(** The cost that the inner loop of the DP computes for the line of the
    first [m + 1] words of [ws], [currlen] being the length before them
    and [dps] the table entries after the first word. *)
Definition costAt (pageWidth spaceWidth : Z) (ws dps : list Z) (currlen : Z) (m : nat) : Z :=
  match skipn m dps with
  | [] => 0
  | dpNext :: _ =>
      lineCost (pageWidth - (currlen + sumZ (firstn (S m) ws) + Z.of_nat (S m) * spaceWidth))
               dpNext
  end.

Section Vocabulary.

Variable renderer : GfxRenderer.
Variable fontId : Z.
Variable Hyphenator_breakOffsets : bytes -> bool -> list BreakInfo.

Local Abbreviation hyphenate := (hyphenateWordAtIndex renderer fontId Hyphenator_breakOffsets).
Local Abbreviation pwidth := (prefixWidthOf renderer fontId).
Local Abbreviation widthsOf := (calculateWordWidthsFrom renderer fontId).

(** The candidate record that the selection loop stores for [info]. *)
Definition chosenFrom (word : bytes) (st : FontStyle) (info : BreakInfo) : Chosen :=
  mkChosen (bi_byteOffset info) (pwidth word st info) (requiresInsertedHyphen info).

(** The widths at which the renderer draws the words of a block. *)
Fixpoint drawnWidthsFrom (ws : list bytes) (sts : list FontStyle) : list Z :=
  match ws with
  | [] => []
  | w :: ws' =>
      to_uint16 (getTextWidth renderer fontId w (hd REGULAR sts))
      :: drawnWidthsFrom ws' (tl sts)
  end.

Definition drawnWidths (block : TextBlock) : list Z :=
  drawnWidthsFrom (tb_words block) (tb_wordStyles block).

(** The gaps of a justified line that is not the last: all equal to the
    quotient of the leftover width by the number of gaps, so that words
    and gaps fall short of the viewport by the remainder. *)
Definition justifiedGaps (viewportWidth : Z) (block : TextBlock) : Prop :=
  let ws := drawnWidths block in
  let gapCount := (Z.of_nat (length ws) - 1) in
  let leftover := viewportWidth - sumZ ws in
  gapsOf ws (tb_wordXpos block) = repeat (leftover / gapCount) (length ws - 1)
  /\ sumZ ws + sumZ (gapsOf ws (tb_wordXpos block))
     = viewportWidth - leftover mod gapCount
  /\ 0 <= leftover mod gapCount < gapCount.

(** The gaps of any other line: the base space width. *)
Definition plainGaps (spaceWidth : Z) (block : TextBlock) : Prop :=
  gapsOf (drawnWidths block) (tb_wordXpos block)
  = repeat spaceWidth (length (drawnWidths block) - 1).

(** What holds of a line that is not the last one of its paragraph. *)
Definition nonFinalGaps (viewportWidth spaceWidth : Z) (block : TextBlock) : Prop :=
  if BlockStyle_eqb (tb_style block) JUSTIFIED && (2 <=? length (tb_words block))%nat
  then justifiedGaps viewportWidth block
  else plainGaps spaceWidth block.

(** The cached width of every word is its measured width. *)
Definition cached (pt : ParsedText) (wordWidths : list Z) : Prop :=
  wordWidths = widthsOf (words pt) (wordStyles pt).

(** The word at [wordIndex] cannot be split to fit [pageWidth], even
    with fallback breaks. *)
Definition unsplittable (pageWidth : Z) (wordWidths : list Z) (pt : ParsedText)
    (wordIndex : nat) : Prop :=
  fst (fst (hyphenate wordIndex pageWidth wordWidths true pt)) = false.

(** The line of the words [first .. last-1] fits the page, or it is a
    single word that cannot be split. *)
Definition lineFits (pageWidth spaceWidth : Z) (wordWidths : list Z) (pt : ParsedText)
    (first last : nat) : Prop :=
  lineWidthOf spaceWidth (slice first last wordWidths) <= pageWidth
  \/ (last = S first /\ unsplittable pageWidth wordWidths pt first).

Fixpoint linesFit (pageWidth spaceWidth : Z) (wordWidths : list Z) (pt : ParsedText)
    (start : nat) (breaks : list nat) : Prop :=
  match breaks with
  | [] => True
  | b :: rest =>
      lineFits pageWidth spaceWidth wordWidths pt start b
      /\ linesFit pageWidth spaceWidth wordWidths pt b rest
  end.

(** A successful call of [hyphenateWordAtIndex]: the word at [wordIndex]
    is replaced, where it stands, by a non-empty prefix (followed by a
    hyphen when the break asks for one) and the non-empty rest of the
    word; both carry the style of the word. *)
Inductive realizedSplit : ParsedText * list Z -> ParsedText * list Z -> Prop :=
| realized_split pt wordWidths wordIndex avail allowFallback pt' wordWidths'
                 before word after stylesBefore st stylesAfter offset (needsHyphen : bool) :
    hyphenate wordIndex avail wordWidths allowFallback pt = (true, pt', wordWidths') ->
    words pt = before ++ word :: after ->
    wordStyles pt = stylesBefore ++ st :: stylesAfter ->
    length before = wordIndex -> length stylesBefore = wordIndex ->
    (0 < offset < length word)%nat ->
    words pt' = before
                ++ (firstn offset word ++ (if needsHyphen then [hyphenChar] else []))
                :: skipn offset word :: after ->
    wordStyles pt' = stylesBefore ++ st :: st :: stylesAfter ->
    style pt' = style pt ->
    extraParagraphSpacing pt' = extraParagraphSpacing pt ->
    hyphenationEnabled pt' = hyphenationEnabled pt ->
    realizedSplit (pt, wordWidths) (pt', wordWidths').

(** [splits n s s']: [n] realized splits lead from [s] to [s']. *)
Inductive splits : nat -> ParsedText * list Z -> ParsedText * list Z -> Prop :=
| splits_none s : splits 0 s s
| splits_more n s s' s'' : realizedSplit s s' -> splits n s' s'' -> splits (S n) s s''.

End Vocabulary.

(** ** What the loops of the breakers guarantee *)

Section Contracts.

Variable renderer : GfxRenderer.
Variable fontId : Z.
Variable Hyphenator_breakOffsets : bytes -> bool -> list BreakInfo.
Variables pageWidth spaceWidth : Z.

Local Abbreviation cached := (cached renderer fontId).
Local Abbreviation realizedSplit := (realizedSplit renderer fontId Hyphenator_breakOffsets).
Local Abbreviation splits := (splits renderer fontId Hyphenator_breakOffsets).
Local Abbreviation unsplittable := (unsplittable renderer fontId Hyphenator_breakOffsets).
Local Abbreviation lineFits :=
  (lineFits renderer fontId Hyphenator_breakOffsets pageWidth spaceWidth).
Local Abbreviation linesFit :=
  (linesFit renderer fontId Hyphenator_breakOffsets pageWidth spaceWidth).
Local Abbreviation fill :=
  (fillLine renderer fontId Hyphenator_breakOffsets).

(** What one run of the inner loop guarantees about the line it closes
    and about the buffer it leaves. *)
Definition fillPost (lineStart cur : nat) (ww : list Z) (pt : ParsedText)
    (pt' : ParsedText) (ww' : list Z) (cur' : nat) : Prop :=
  bufferOk pt' ww'
  /\ (cur <= cur')%nat /\ (cur' <= length ww')%nat
  /\ ((cur < length ww)%nat -> (lineStart < cur')%nat)
  /\ ((lineStart < cur')%nat -> lineFits ww' pt' lineStart cur')
  /\ ((pt', ww') = (pt, ww)
      \/ (realizedSplit (pt, ww) (pt', ww')
          /\ (cur < cur')%nat /\ (cur' < length ww')%nat
          /\ firstn (cur' - 1) ww' = firstn (cur' - 1) ww
          /\ firstn (cur' - 1) (words pt') = firstn (cur' - 1) (words pt)
          /\ firstn (cur' - 1) (wordStyles pt') = firstn (cur' - 1) (wordStyles pt)
          /\ (scanMeasure (skipn cur' (words pt'))
              < scanMeasure (skipn (cur' - 1) (words pt)))%nat))
  /\ (cached pt ww -> cached pt' ww').

(** What the outer loop guarantees, from index [cur] on. *)
Definition linesPost (cur : nat) (ww : list Z) (pt : ParsedText)
    (ptf : ParsedText) (wwf : list Z) (breaks : list nat) : Prop :=
  bufferOk ptf wwf
  /\ coverFrom cur breaks (length wwf)
  /\ linesFit wwf ptf cur breaks
  /\ (exists n, splits n (pt, ww) (ptf, wwf))
  /\ firstn cur wwf = firstn cur ww
  /\ firstn cur (words ptf) = firstn cur (words pt)
  /\ firstn cur (wordStyles ptf) = firstn cur (wordStyles pt)
  /\ (cached pt ww -> cached ptf wwf)
  /\ (breaks <> [] ->
      fill (S (length wwf)) pageWidth spaceWidth
           (lastLineStart cur breaks) (lastLineStart cur breaks) 0 wwf ptf
      = Some (ptf, wwf, length wwf))
  /\ ((cur < length ww)%nat -> breaks <> []).

(** A word is settled when it fits the page or cannot be split. *)
Definition settled (ww : list Z) (pt : ParsedText) (i : nat) : Prop :=
  nth i ww 0 <= pageWidth \/ unsplittable pageWidth ww pt i.

Definition splitWhilePost (i : nat) (ww : list Z) (pt : ParsedText)
    (pt' : ParsedText) (ww' : list Z) : Prop :=
  bufferOk pt' ww'
  /\ settled ww' pt' i
  /\ ((pt', ww') = (pt, ww)
      \/ (realizedSplit (pt, ww) (pt', ww')
          /\ firstn i ww' = firstn i ww
          /\ firstn i (words pt') = firstn i (words pt)
          /\ firstn i (wordStyles pt') = firstn i (wordStyles pt)
          /\ (scanMeasure (skipn (S i) (words pt')) < scanMeasure (skipn i (words pt)))%nat))
  /\ (cached pt ww -> cached pt' ww').

Definition prepassPost (i : nat) (ww : list Z) (pt : ParsedText)
    (ptf : ParsedText) (wwf : list Z) : Prop :=
  bufferOk ptf wwf
  /\ (exists n, splits n (pt, ww) (ptf, wwf))
  /\ firstn i wwf = firstn i ww
  /\ firstn i (words ptf) = firstn i (words pt)
  /\ firstn i (wordStyles ptf) = firstn i (wordStyles pt)
  /\ (forall k, (i <= k < length wwf)%nat -> settled wwf ptf k)
  /\ (cached pt ww -> cached ptf wwf)
  /\ (length ww <= length wwf)%nat.

(** What the layout relies on, whichever breaker runs: the buffer after
    the splits, break indices that cut it into non-empty lines that fit,
    and the fact that breaking the words of the last line again yields
    that one line and splits nothing. *)
Definition breakPost (breakFn : Z -> Z -> list Z -> ParsedText
                                -> option (ParsedText * list Z * list nat))
    (pt : ParsedText) (ww : list Z)
    (ptf : ParsedText) (wwf : list Z) (breaks : list nat) : Prop :=
  bufferOk ptf wwf
  /\ coverFrom 0 breaks (length wwf)
  /\ breaks <> []
  /\ linesFit wwf ptf 0 breaks
  /\ (exists n, splits n (pt, ww) (ptf, wwf))
  /\ (cached pt ww -> cached ptf wwf)
  /\ (let b := lastLineStart 0 breaks in
      breakFn pageWidth spaceWidth (skipn b wwf) (dropWords b ptf)
      = Some (dropWords b ptf, skipn b wwf, [(length wwf - b)%nat])).

End Contracts.

(** ** Where the words of a line are drawn *)

Section Geometry.

Variable renderer : GfxRenderer.
Variable fontId : Z.

(** The content width of an emitted line: the widths at which its words
    are drawn and one base space between neighbours. *)
Definition contentWidth (spaceWidth : Z) (block : TextBlock) : Z :=
  lineWidthOf spaceWidth (drawnWidths renderer fontId block).

(** Every word of the line is drawn between the left and the right edge
    of the viewport. *)
Definition insideViewport (viewportWidth : Z) (block : TextBlock) : Prop :=
  forall i, (i < length (tb_words block))%nat ->
    0 <= nth i (tb_wordXpos block) 0
    /\ nth i (tb_wordXpos block) 0 + nth i (drawnWidths renderer fontId block) 0
       <= viewportWidth.

(** The x offset at which the last word of the line ends. *)
Definition rightEdge (block : TextBlock) : Z :=
  last (tb_wordXpos block) 0 + last (drawnWidths renderer fontId block) 0.

(** Where the alignment puts the line: at the left edge, at the right
    edge, or with margins that differ by at most one pixel. *)
Definition anchored (viewportWidth : Z) (block : TextBlock) : Prop :=
  match tb_style block with
  | JUSTIFIED | LEFT_ALIGN => hd 0 (tb_wordXpos block) = 0
  | RIGHT_ALIGN => rightEdge block = viewportWidth
  | CENTER_ALIGN =>
      hd 0 (tb_wordXpos block) <= viewportWidth - rightEdge block
      <= hd 0 (tb_wordXpos block) + 1
  end.

End Geometry.

End Voc.

Import Voc.

(** ** A concrete paragraph *)

Module Run.

Definition facade := Sample.breakOffsetsNoLanguage.
Definition layout := layoutAndExtractLines Sample.renderer 0 facade.

(** "abc abcd ab abcdefghijkl a" *)
Definition fiveWords : list bytes :=
  [[x61; x62; x63]; [x61; x62; x63; x64]; [x61; x62];
   [x61; x62; x63; x64; x65; x66; x67; x68; x69; x6a; x6b; x6c]; [x61]].

(** "ab-cd", a soft hyphen, "ef" *)
Definition mixedWord : bytes := [x61; x62; x2d; x63; x64; xc2; xad; x65; x66].

Definition rightAligned := Sample.paragraph RIGHT_ALIGN true false fiveWords.
Definition justified := Sample.paragraph JUSTIFIED true false fiveWords.
Definition justifiedIndented := Sample.paragraph JUSTIFIED false false fiveWords.
Definition oneMixedWord := Sample.paragraph LEFT_ALIGN true true [mixedWord].
Definition twoWords := Sample.paragraph LEFT_ALIGN true true [[x61; x62; x63]; mixedWord].
Definition malformed := Sample.paragraph LEFT_ALIGN true true [[xc2; xc2; xad; xad]].

(** "abc ab", centred; "abc" alone, right-aligned. *)
Definition shortCentred := Sample.paragraph CENTER_ALIGN true false [[x61; x62; x63]; [x61; x62]].
Definition oneWordRight := Sample.paragraph RIGHT_ALIGN true false [[x61; x62; x63]].

(** A registry whose hyphenators know no pattern. *)
Definition noPatterns (minPre minSuf : nat) : LanguageHyphenator :=
  affixFilteredHyphenator (fun _ => []) minPre minSuf.
Definition forLanguage : bytes -> option LanguageHyphenator :=
  hyphenatorForLanguage (noPatterns 3 3) (noPatterns 2 2) (noPatterns 2 2) (noPatterns 2 2).

End Run.

(** * Properties of the hyphenation facade *)

Lemma isEmpty_true {A} (l : list A) : isEmpty l = true <-> l = [].
Proof. destruct l; simpl; split; congruence. Qed.

Lemma isEmpty_false {A} (l : list A) : isEmpty l = false <-> l <> [].
Proof. destruct l; simpl; split; congruence. Qed.

Section HyphenatorFacts.

Variable collectCodepoints : bytes -> list CodepointInfo.
Variable trimSurroundingPunctuationAndFootnote : list CodepointInfo -> list CodepointInfo.
Variables isExplicitHyphen isSoftHyphen isAlphabetic : Z -> bool.
Variables kDefaultMinPrefix kDefaultMinSuffix : nat.
Variable cachedHyphenator_ : option LanguageHyphenator.

Local Abbreviation buildExplicit := (buildExplicitBreakInfos isExplicitHyphen isSoftHyphen isAlphabetic).
Local Abbreviation markerBreaks := (explicitMarkerBreaks isExplicitHyphen isSoftHyphen isAlphabetic).
Local Abbreviation isMarker := (markerAt isExplicitHyphen isAlphabetic).
Local Abbreviation facade :=
  (breakOffsets collectCodepoints trimSurroundingPunctuationAndFootnote
                isExplicitHyphen isSoftHyphen isAlphabetic
                kDefaultMinPrefix kDefaultMinSuffix cachedHyphenator_).
Local Abbreviation trimmed word :=
  (trimSurroundingPunctuationAndFootnote (collectCodepoints word)).

Lemma filter_map_shift (cps : list CodepointInfo) (prev : CodepointInfo) (l : list nat) :
  (forall i, In i l -> (1 <= i)%nat) ->
  map (markerBreak isSoftHyphen (prev :: cps)) (filter (isMarker (prev :: cps)) (map S l))
  = map (markerBreak isSoftHyphen cps) (filter (isMarker cps) l).
Proof.
  induction l as [|i l IH]; intros Hl; [reflexivity|].
  assert (Hi : (1 <= i)%nat) by (apply Hl; now left).
  assert (Hm : isMarker (prev :: cps) (S i) = isMarker cps i).
  { unfold markerAt. replace (S i - 1)%nat with (S (i - 1)) by lia.
    replace (S i + 1)%nat with (S (i + 1)) by lia. reflexivity. }
  assert (Hb : markerBreak isSoftHyphen (prev :: cps) (S i) = markerBreak isSoftHyphen cps i).
  { unfold markerBreak. replace (S i + 1)%nat with (S (i + 1)) by lia. reflexivity. }
  simpl map at 2. simpl filter. rewrite Hm.
  destruct (isMarker cps i); simpl; rewrite IH by (intros; apply Hl; now right);
    [rewrite Hb|]; reflexivity.
Qed.

(** The scanning loop computes the breaks that the specification lists. *)
Lemma buildExplicitBreakInfos_markers (cps : list CodepointInfo) :
  buildExplicit cps = markerBreaks cps.
Proof.
  induction cps as [|prev t IH]; [reflexivity|].
  destruct t as [|cur [|next t']]; [reflexivity|reflexivity|].
  unfold explicitMarkerBreaks.
  replace (length (prev :: cur :: next :: t') - 2)%nat with (S (length (cur :: next :: t') - 2))
    by (simpl; lia).
  rewrite <- cons_seq, <- seq_shift.
  change (buildExplicit (prev :: cur :: next :: t'))
    with (if isExplicitBreakAt isExplicitHyphen isAlphabetic prev cur next
          then mkBreakInfo (byteOffset next) (isSoftHyphen (value cur))
               :: buildExplicit (cur :: next :: t')
          else buildExplicit (cur :: next :: t')).
  rewrite IH. unfold explicitMarkerBreaks.
  set (l := seq 1 (length (cur :: next :: t') - 2)).
  assert (Hl : forall i, In i l -> (1 <= i)%nat)
    by (intros i Hi; apply in_seq in Hi; lia).
  cbn [filter].
  change (isMarker (prev :: cur :: next :: t') 1%nat)
    with (isExplicitBreakAt isExplicitHyphen isAlphabetic prev cur next).
  destruct (isExplicitBreakAt isExplicitHyphen isAlphabetic prev cur next).
  - cbn [map]. rewrite (filter_map_shift _ prev l Hl). reflexivity.
  - rewrite (filter_map_shift _ prev l Hl). reflexivity.
Qed.

Lemma markerBreaks_nonempty (cps : list CodepointInfo) (i : nat) :
  (1 <= i)%nat -> (i + 1 < length cps)%nat -> isMarker cps i = true ->
  markerBreaks cps <> [].
Proof.
  intros H1 H2 Hm E. unfold explicitMarkerBreaks in E.
  apply map_eq_nil in E.
  assert (Hin : In i (filter (isMarker cps) (seq 1 (length cps - 2)))).
  { apply filter_In. split; [apply in_seq; lia|assumption]. }
  rewrite E in Hin. destruct Hin.
Qed.

(** Marker breaks, when there are any, are what the facade returns. *)
Lemma breakOffsets_explicit (word : bytes) (includeFallback : bool) :
  word <> [] -> markerBreaks (trimmed word) <> [] ->
  facade word includeFallback = markerBreaks (trimmed word).
Proof.
  intros Hne Hn. unfold breakOffsets. destruct word as [|b0 w]; [congruence|].
  simpl isEmpty. cbv iota. rewrite buildExplicitBreakInfos_markers.
  apply isEmpty_false in Hn. rewrite Hn. reflexivity.
Qed.

Lemma In_markerBreaks (cps : list CodepointInfo) (b : BreakInfo) :
  In b (markerBreaks cps) <->
  exists k, (1 <= k)%nat /\ (k + 1 < length cps)%nat
            /\ isMarker cps k = true
            /\ bi_byteOffset b = byteOffset (nth (k + 1) cps cpDefault)
            /\ requiresInsertedHyphen b = isSoftHyphen (value (nth k cps cpDefault)).
Proof.
  unfold explicitMarkerBreaks. rewrite in_map_iff. split.
  - intros (k & Hk & Hin). apply filter_In in Hin. destruct Hin as [Hs Hmk].
    apply in_seq in Hs. exists k. subst b. simpl. repeat split; try lia; assumption.
  - intros (k & Hk1 & Hk2 & Hmk & Ho & Hf). exists k. split.
    + destruct b as [o f]. simpl in Ho, Hf. unfold markerBreak. congruence.
    + apply filter_In. split; [apply in_seq; lia|assumption].
Qed.

(** C5.  A word whose trimmed codepoints hold an explicit hyphen marker
    between two alphabetic codepoints gets exactly the marker breaks,
    whatever [includeFallback] and whatever the active language: one break
    per marker, in order, pointing just after the marker, with
    [requiresInsertedHyphen] equal to "the marker is a soft hyphen". *)
Theorem explicit_markers_take_precedence
    (word : bytes) (includeFallback : bool) (i : nat) :
  word <> [] ->
  (1 <= i)%nat -> (i + 1 < length (trimmed word))%nat ->
  isMarker (trimmed word) i = true ->
  facade word includeFallback = markerBreaks (trimmed word)
  /\ (forall b, In b (facade word includeFallback) <->
        exists k, (1 <= k)%nat /\ (k + 1 < length (trimmed word))%nat
                  /\ isMarker (trimmed word) k = true
                  /\ bi_byteOffset b = byteOffset (nth (k + 1) (trimmed word) cpDefault)
                  /\ requiresInsertedHyphen b = isSoftHyphen (value (nth k (trimmed word) cpDefault))).
Proof.
  intros Hne H1 H2 Hm.
  pose proof (markerBreaks_nonempty _ i H1 H2 Hm) as Hn.
  pose proof (breakOffsets_explicit word includeFallback Hne Hn) as E.
  split; [exact E|].
  intros b. rewrite E. apply In_markerBreaks.
Qed.

(** The counting loop of the fallback enumerates an interval. *)
Lemma fallbackIndexes_seq (fuel idx minSuf n : nat) :
  (n < fuel + idx + minSuf)%nat ->
  fallbackIndexes fuel idx minSuf n = seq idx (S n - (idx + minSuf)).
Proof.
  revert idx. induction fuel as [|fuel IH]; intros idx Hf.
  - cbn [fallbackIndexes]. replace (S n - (idx + minSuf))%nat with 0%nat by lia. reflexivity.
  - cbn [fallbackIndexes]. destruct (Nat.leb_spec (idx + minSuf) n) as [Hle|Hgt].
    + rewrite IH by lia.
      replace (S n - (idx + minSuf))%nat with (S (S n - (S idx + minSuf))) by lia.
      reflexivity.
    + replace (S n - (idx + minSuf))%nat with 0%nat by lia. reflexivity.
Qed.

Local Abbreviation activeMinPrefix := (activeMinPrefix kDefaultMinPrefix cachedHyphenator_).
Local Abbreviation activeMinSuffix := (activeMinSuffix kDefaultMinSuffix cachedHyphenator_).
Local Abbreviation languageBreaks := (languageBreaks cachedHyphenator_).

(** C9.  A language hyphenator that discards the candidates violating its
    affix minimums [(p, s)] only returns indices [i] with
    [p <= i <= n - s]; and when a non-empty word has no explicit marker
    break and no language break, the facade called with
    [includeFallback = true] returns one break (with an inserted hyphen)
    for every codepoint gap from the active or default minimum prefix up
    to [n] minus the minimum suffix, in increasing order, and no other. *)
Theorem minimum_affix_bounds :
  (forall oddGaps p s cps i,
      In i (breakIndexes (affixFilteredHyphenator oddGaps p s) cps) ->
      (p <= i)%nat /\ (i <= length cps - s)%nat /\ (i + s <= length cps)%nat)
  /\ (forall word,
        word <> [] ->
        buildExplicit (trimmed word) = [] ->
        languageBreaks (trimmed word) = [] ->
        let n := length (trimmed word) in
        let gaps := seq activeMinPrefix (S n - (activeMinPrefix + activeMinSuffix)) in
        facade word true
        = map (fun idx => mkBreakInfo (byteOffsetForIndex (trimmed word) idx) true) gaps
        /\ (forall idx, In idx gaps <->
              (activeMinPrefix <= idx)%nat /\ (idx + activeMinSuffix <= n)%nat)).
Proof.
  split.
  - intros oddGaps p s cps i Hin. simpl in Hin. apply filter_In in Hin.
    destruct Hin as [_ Hb]. apply andb_true_iff in Hb. destruct Hb as [Hp Hs].
    apply Nat.leb_le in Hp, Hs. lia.
  - intros word Hne Hex Hlang n gaps. split.
    + unfold breakOffsets. destruct word as [|b0 w]; [congruence|].
      cbn [isEmpty]. rewrite Hex. cbn [negb isEmpty].
      rewrite Hlang. cbn [andb isEmpty]. fold n.
      rewrite fallbackIndexes_seq by lia. fold gaps.
      destruct gaps; reflexivity.
    + intros idx. unfold gaps. rewrite in_seq. lia.
Qed.

End HyphenatorFacts.

(** The facade of the sample instance on a word with one soft hyphen. *)
Lemma explicit_markers_take_precedence_witness :
  Sample.breakOffsetsNoLanguage [x61; x62; xc2; xad; x63; x64] true
  = [mkBreakInfo 4 true].
Proof.
  refine (eq_trans
    (proj1 (explicit_markers_take_precedence Sample.collectCodepoints
       Sample.trimSurroundingPunctuationAndFootnote Sample.isExplicitHyphen
       Sample.isSoftHyphen Sample.isAlphabetic Sample.kDefaultMinPrefix
       Sample.kDefaultMinSuffix None [x61; x62; xc2; xad; x63; x64] true 2 _ _ _ _)) _).
  - discriminate.
  - lia.
  - vm_compute. lia.
  - reflexivity.
  - reflexivity.
Defined.

Lemma minimum_affix_bounds_witness :
  Sample.breakOffsetsNoLanguage [x61; x62; x63; x64; x65] true
  = [mkBreakInfo 2 true; mkBreakInfo 3 true]
  /\ ((3 <= 4)%nat /\ (4 <= 7 - 3)%nat /\ (4 + 3 <= 7)%nat).
Proof.
  split.
  - refine (eq_trans
      (proj1 (proj2 (minimum_affix_bounds Sample.collectCodepoints
         Sample.trimSurroundingPunctuationAndFootnote Sample.isExplicitHyphen
         Sample.isSoftHyphen Sample.isAlphabetic Sample.kDefaultMinPrefix
         Sample.kDefaultMinSuffix None) [x61; x62; x63; x64; x65] _ _ _)) _).
    + discriminate.
    + reflexivity.
    + reflexivity.
    + reflexivity.
  - apply (proj1 (minimum_affix_bounds Sample.collectCodepoints
         Sample.trimSurroundingPunctuationAndFootnote Sample.isExplicitHyphen
         Sample.isSoftHyphen Sample.isAlphabetic Sample.kDefaultMinPrefix
         Sample.kDefaultMinSuffix None)
       (fun _ => [1; 4; 6]%nat) 3%nat 3%nat
       (map (fun k => mkCodepointInfo 97 k) (seq 0 7)) 4%nat).
    simpl. auto.
Defined.

(** * Soft hyphens and measured widths *)

Lemma to_uint16_range (z : Z) : 0 <= to_uint16 z < 65536.
Proof. unfold to_uint16. apply Z.mod_pos_bound. lia. Qed.

Lemma to_uint16_small (z : Z) : 0 <= z < 65536 -> to_uint16 z = z.
Proof. intros H. unfold to_uint16. apply Z.mod_small. exact H. Qed.

Lemma to_uint16_idem (z : Z) : to_uint16 (to_uint16 z) = to_uint16 z.
Proof. apply to_uint16_small, to_uint16_range. Qed.

Lemma strip_without_soft_hyphen (word : bytes) :
  containsSoftHyphen word = false -> stripSoftHyphensInPlace word = word.
Proof.
  induction word as [|a t IH]; [reflexivity|].
  destruct t as [|b t']; [reflexivity|].
  change (containsSoftHyphen (a :: b :: t'))
    with (isSoftHyphenPair a b || containsSoftHyphen (b :: t')).
  change (stripSoftHyphensInPlace (a :: b :: t'))
    with (if isSoftHyphenPair a b then stripSoftHyphensInPlace t'
          else a :: stripSoftHyphensInPlace (b :: t')).
  intros H. apply orb_false_iff in H. destruct H as [Hp Ht].
  rewrite Hp. f_equal. apply IH. exact Ht.
Qed.

Lemma stripIfSoftHyphen_strip (word : bytes) :
  stripIfSoftHyphen word = stripSoftHyphensInPlace word.
Proof.
  unfold stripIfSoftHyphen. destruct (containsSoftHyphen word) eqn:E; [reflexivity|].
  symmetry. apply strip_without_soft_hyphen. exact E.
Qed.

Lemma strip_cons2 (a b : byte) (t : bytes) :
  stripSoftHyphensInPlace (a :: b :: t)
  = if isSoftHyphenPair a b then stripSoftHyphensInPlace t
    else a :: stripSoftHyphensInPlace (b :: t).
Proof. reflexivity. Qed.

(** Appending the hyphen character never completes a soft hyphen. *)
Lemma strip_app_hyphen (word : bytes) :
  stripSoftHyphensInPlace (word ++ [hyphenChar]) = stripSoftHyphensInPlace word ++ [hyphenChar].
Proof.
  assert (G : forall n (w : bytes), (length w <= n)%nat ->
              stripSoftHyphensInPlace (w ++ [hyphenChar]) = stripSoftHyphensInPlace w ++ [hyphenChar]).
  { induction n as [|n IH]; intros w Hn.
    - destruct w; [reflexivity|simpl in Hn; lia].
    - destruct w as [|a [|b t']]; [reflexivity| |].
      + change ([a] ++ [hyphenChar]) with [a; hyphenChar]. rewrite strip_cons2.
        replace (isSoftHyphenPair a hyphenChar) with false; [reflexivity|].
        unfold isSoftHyphenPair. rewrite andb_comm. reflexivity.
      + change ((a :: b :: t') ++ [hyphenChar]) with (a :: b :: (t' ++ [hyphenChar])).
        rewrite !strip_cons2.
        destruct (isSoftHyphenPair a b).
        * apply IH. simpl in Hn. lia.
        * change (b :: t' ++ [hyphenChar]) with ((b :: t') ++ [hyphenChar]).
          rewrite IH by (simpl in *; lia). reflexivity. }
  apply (G (length word)). lia.
Qed.

Section MeasureFacts.

Variable renderer : GfxRenderer.
Variable fontId : Z.

Local Abbreviation measure := (measureWordWidth renderer fontId).

(** What [measureWordWidth] hands to the renderer. *)
Lemma measureWordWidth_stripped (word : bytes) (st : FontStyle) (appendHyphen : bool) :
  measure word st appendHyphen
  = to_uint16 (getTextWidth renderer fontId
                 (stripSoftHyphensInPlace word ++ (if appendHyphen then [hyphenChar] else [])) st).
Proof.
  unfold measureWordWidth.
  destruct (containsSoftHyphen word) eqn:E, appendHyphen; cbn [negb andb];
    rewrite ?app_nil_r, ?(strip_without_soft_hyphen word E); reflexivity.
Qed.

Lemma measureWordWidth_range (word : bytes) (st : FontStyle) (appendHyphen : bool) :
  0 <= measure word st appendHyphen < 65536.
Proof. rewrite measureWordWidth_stripped. apply to_uint16_range. Qed.

(** The width cached for a prefix is the width of the word that the
    split leaves in the buffer. *)
Lemma measureWordWidth_prefix (word : bytes) (st : FontStyle) (needsHyphen : bool) :
  measure (word ++ (if needsHyphen then [hyphenChar] else [])) st false
  = measure word st needsHyphen.
Proof.
  rewrite !measureWordWidth_stripped. destruct needsHyphen.
  - rewrite strip_app_hyphen, app_nil_r. reflexivity.
  - rewrite !app_nil_r. reflexivity.
Qed.

End MeasureFacts.

(** * The word splitter *)

Section SplitFacts.

Variable renderer : GfxRenderer.
Variable fontId : Z.
Variable Hyphenator_breakOffsets : bytes -> bool -> list BreakInfo.

Local Abbreviation hyphenate := (hyphenateWordAtIndex renderer fontId Hyphenator_breakOffsets).
Local Abbreviation pwidth := (prefixWidthOf renderer fontId).
Local Abbreviation fitting := (fittingBreak renderer fontId).
Local Abbreviation choose := (chooseBreak renderer fontId).
Local Abbreviation consider := (considerBreak renderer fontId).
Local Abbreviation splitAt := (splitWordAt renderer fontId).
Local Abbreviation chosenFrom := (chosenFrom renderer fontId).

Lemma prefixWidthOf_range word st info : 0 <= pwidth word st info < 65536.
Proof. apply measureWordWidth_range. Qed.

Lemma considerBreak_cases word st avail c info :
  (consider word st avail c info = c
   /\ (fitting word st avail info -> pwidth word st info <= chosenWidth c))
  \/ (consider word st avail c info = chosenFrom word st info
      /\ fitting word st avail info /\ chosenWidth c < pwidth word st info).
Proof.
  unfold considerBreak, fittingBreak.
  destruct (Nat.eqb_spec (bi_byteOffset info) 0) as [E0|N0]; cbn [orb].
  { left. split; [reflexivity|]. intros (H & _). contradiction. }
  destruct (Nat.leb_spec (length word) (bi_byteOffset info)) as [Hl|Hl].
  { left. split; [reflexivity|]. intros (_ & H & _). lia. }
  fold (pwidth word st info).
  destruct (Z.gtb_spec (pwidth word st info) avail) as [Hg|Hg]; cbn [orb].
  { left. split; [reflexivity|]. intros (_ & _ & H). lia. }
  destruct (Z.leb_spec (pwidth word st info) (chosenWidth c)) as [Hc|Hc].
  { left. split; [reflexivity|]. intros _. exact Hc. }
  right. repeat split; try assumption; lia.
Qed.

(** The selection loop keeps the first candidate of maximal fitting width. *)
Lemma fold_considerBreak word st avail infos c0 :
  let c := fold_left (consider word st avail) infos c0 in
  chosenWidth c0 <= chosenWidth c
  /\ (forall info, In info infos -> fitting word st avail info ->
                   pwidth word st info <= chosenWidth c)
  /\ (c = c0 \/ exists info, In info infos /\ fitting word st avail info
                             /\ c = chosenFrom word st info).
Proof.
  revert c0. induction infos as [|info infos IH]; intros c0; cbn [fold_left].
  - repeat split; [lia| intros ? []|now left].
  - destruct (IH (consider word st avail c0 info)) as (Hmono & Hmax & Hsrc).
    destruct (considerBreak_cases word st avail c0 info) as [[E Hle]|[E [Hfit Hlt]]];
      rewrite E in *.
    + split; [|split].
      * exact Hmono.
      * intros i [<-|Hin] Hf; [specialize (Hle Hf); lia|auto].
      * destruct Hsrc as [->|(i & Hin & Hf & Ec)]; [now left|].
        right. exists i. split; [now right|split; assumption].
    + split; [|split].
      * cbn [chosenFrom chosenWidth] in Hmono. lia.
      * intros i [<-|Hin] Hf; [exact Hmono|auto].
      * right. destruct Hsrc as [->|(i & Hin & Hf & Ec)].
        -- exists info. split; [now left|split; [assumption|reflexivity]].
        -- exists i. split; [now right|split; assumption].
Qed.

Lemma chooseBreak_spec word st avail infos :
  (chosenWidth (choose word st avail infos) < 0
   /\ forall info, In info infos -> ~ fitting word st avail info)
  \/ (exists info, In info infos /\ fitting word st avail info
        /\ (forall info', In info' infos -> fitting word st avail info' ->
                          pwidth word st info' <= pwidth word st info)
        /\ choose word st avail infos = chosenFrom word st info).
Proof.
  unfold chooseBreak.
  destruct (fold_considerBreak word st avail infos (mkChosen 0 (-1) true))
    as (Hmono & Hmax & Hsrc).
  destruct Hsrc as [E|(info & Hin & Hf & E)].
  - left. rewrite E. cbn [chosenWidth]. split; [lia|].
    intros info Hin Hf. specialize (Hmax info Hin Hf). rewrite E in Hmax.
    cbn [chosenWidth] in Hmax. pose proof (prefixWidthOf_range word st info). lia.
  - right. exists info. split; [assumption|split; [assumption|split; [|assumption]]].
    intros i Hi Hfi. specialize (Hmax i Hi Hfi). rewrite E in Hmax. exact Hmax.
Qed.

(** The two ways [hyphenateWordAtIndex] returns. *)
Lemma hyphenateWordAtIndex_spec wordIndex avail wordWidths allowFallback pt :
  let word := nth wordIndex (words pt) [] in
  let st := nth wordIndex (wordStyles pt) REGULAR in
  let infos := Hyphenator_breakOffsets word allowFallback in
  (hyphenate wordIndex avail wordWidths allowFallback pt = (false, pt, wordWidths)
   /\ (avail <= 0 \/ (length (words pt) <= wordIndex)%nat
       \/ forall info, In info infos -> ~ fitting word st avail info))
  \/ (exists info,
        hyphenate wordIndex avail wordWidths allowFallback pt
        = (true, fst (splitAt wordIndex info wordWidths pt),
                 snd (splitAt wordIndex info wordWidths pt))
        /\ 0 < avail /\ (wordIndex < length (words pt))%nat
        /\ In info infos /\ fitting word st avail info
        /\ (forall info', In info' infos -> fitting word st avail info' ->
                          pwidth word st info' <= pwidth word st info)).
Proof.
  intros word st infos. unfold hyphenateWordAtIndex.
  destruct (Z.leb_spec avail 0) as [Ha|Ha]; cbn [orb].
  { left. split; [reflexivity|]. now left. }
  destruct (Nat.leb_spec (length (words pt)) wordIndex) as [Hi|Hi].
  { left. split; [reflexivity|]. right; now left. }
  fold word st. fold infos.
  destruct (isEmpty infos) eqn:Ee.
  { left. split; [reflexivity|]. right; right. destruct infos; [intros ? []|discriminate]. }
  destruct (chooseBreak_spec word st avail infos) as [[Hneg Hnone]|(info & Hin & Hf & Hbest & Ec)].
  - left. destruct (Z.ltb_spec (chosenWidth (choose word st avail infos)) 0); [|lia].
    split; [reflexivity|]. right; right. exact Hnone.
  - right. exists info. rewrite Ec. cbn [chosenFrom chosenWidth chosenOffset chosenNeedsHyphen].
    pose proof (prefixWidthOf_range word st info) as Hr.
    destruct (Z.ltb_spec (pwidth word st info) 0); [lia|].
    rewrite to_uint16_small by exact Hr.
    split; [reflexivity|]. repeat (split; [assumption|]). assumption.
Qed.

Lemma insertAt_length {A} (i : nat) (x : A) (l : list A) :
  length (insertAt i x l) = S (length l).
Proof.
  unfold insertAt. rewrite length_app. cbn [length].
  rewrite Nat.add_succ_r, <- length_app, firstn_skipn. reflexivity.
Qed.

Lemma setAt_length {A} (i : nat) (x : A) (l : list A) :
  length (setAt i x l) = length l.
Proof.
  unfold setAt. destruct (Nat.ltb_spec i (length l)) as [H|H]; [|reflexivity].
  rewrite length_app. cbn [length]. rewrite length_firstn, length_skipn. lia.
Qed.

(** C10.  [hyphenateWordAtIndex] returns [false] exactly when the
    available width is not positive, the index is out of range, or no
    candidate (none at all, or none whose prefix fits) can be used; it then
    leaves the word list, the style list and the cached widths as they
    were.  When it returns [true] the three of them have grown by one
    entry. *)
Theorem split_failure_is_atomic wordIndex avail wordWidths allowFallback pt :
  let r := hyphenateWordAtIndex renderer fontId Hyphenator_breakOffsets
                                wordIndex avail wordWidths allowFallback pt in
  let word := nth wordIndex (words pt) [] in
  let st := nth wordIndex (wordStyles pt) REGULAR in
  let infos := Hyphenator_breakOffsets word allowFallback in
  (fst (fst r) = false <->
     avail <= 0 \/ (length (words pt) <= wordIndex)%nat \/ infos = []
     \/ (forall info, In info infos -> ~ fittingBreak renderer fontId word st avail info))
  /\ (fst (fst r) = false ->
        words (snd (fst r)) = words pt /\ wordStyles (snd (fst r)) = wordStyles pt
        /\ snd (fst r) = pt /\ snd r = wordWidths)
  /\ (fst (fst r) = true ->
        length (words (snd (fst r))) = S (length (words pt))
        /\ length (wordStyles (snd (fst r))) = S (length (wordStyles pt))
        /\ length (snd r) = S (length wordWidths)).
Proof.
  intros r word st infos. subst r.
  destruct (hyphenateWordAtIndex_spec wordIndex avail wordWidths allowFallback pt)
    as [[E Hwhy]|(info & E & Ha & Hi & Hin & Hf & Hbest)]; rewrite E; cbn [fst snd].
  - split; [|split].
    + split; [intros _|reflexivity].
      destruct Hwhy as [H|[H|H]]; auto.
    + intros _. repeat split.
    + discriminate.
  - split; [|split].
    + split; [discriminate|]. intros [H|[H|[H|H]]]; try lia.
      * fold word infos in Hin. rewrite H in Hin. destruct Hin.
      * exfalso. exact (H info Hin Hf).
    + discriminate.
    + intros _. unfold splitWordAt. cbn [fst snd words wordStyles withWords].
      rewrite !insertAt_length, !setAt_length. repeat split.
Qed.

End SplitFacts.

(** * The DP table *)

Lemma to_int64_small (z : Z) :
  - 9223372036854775808 <= z < 9223372036854775808 -> to_int64 z = z.
Proof. intros H. unfold to_int64. rewrite Z.mod_small; lia. Qed.

Lemma to_int_small (z : Z) : - 2147483648 <= z < 2147483648 -> to_int z = z.
Proof. intros H. unfold to_int. rewrite Z.mod_small; lia. Qed.

(** On [int] operands the 64-bit sum is exact and the result saturates. *)
Lemma lineCost_saturated (remainingSpace dpNext : Z) :
  - 2147483648 <= remainingSpace <= 2147483647 ->
  0 <= dpNext <= MAX_COST ->
  lineCost remainingSpace dpNext = Z.min MAX_COST (remainingSpace * remainingSpace + dpNext)
  /\ 0 <= lineCost remainingSpace dpNext <= MAX_COST.
Proof.
  intros Hr Hd. unfold lineCost, MAX_COST in *.
  assert (Hsq : 0 <= remainingSpace * remainingSpace <= 4611686018427387904) by nia.
  rewrite (to_int64_small (remainingSpace * remainingSpace)) by lia.
  rewrite to_int64_small by lia.
  destruct (Z.gtb_spec (remainingSpace * remainingSpace + dpNext) 2147483647) as [Hg|Hg].
  - split; lia.
  - rewrite to_int_small by lia. split; lia.
Qed.

Lemma dpInner_range pageWidth spaceWidth ws dps j currlen dpi ansi :
  pageWidth <= 65535 -> 0 <= spaceWidth ->
  Forall (fun w => 0 <= w) ws -> Forall costInRange dps ->
  0 <= currlen + spaceWidth -> costInRange dpi ->
  costInRange (fst (dpInner pageWidth spaceWidth ws dps j currlen dpi ansi)).
Proof.
  intros Hpw Hsw. revert dps j currlen dpi ansi.
  induction ws as [|w ws IH]; intros dps j currlen dpi ansi Hws Hdps Hcur Hdpi;
    cbn [dpInner]; [exact Hdpi|].
  inversion Hws as [|? ? Hw Hws']; subst.
  destruct (Z.gtb_spec (currlen + (w + spaceWidth)) pageWidth) as [Hg|Hg]; [exact Hdpi|].
  assert (Hcost : costInRange
            match dps with
            | [] => 0
            | dpNext :: _ => lineCost (pageWidth - (currlen + (w + spaceWidth))) dpNext
            end).
  { destruct dps as [|d dps']; [unfold costInRange, MAX_COST; lia|].
    inversion Hdps; subst. apply lineCost_saturated; [lia|assumption]. }
  assert (Htl : Forall costInRange (tl dps))
    by (destruct dps; [constructor|inversion Hdps; assumption]).
  set (cost := match dps with
               | [] => 0
               | dpNext :: _ => lineCost (pageWidth - (currlen + (w + spaceWidth))) dpNext
               end) in *.
  destruct (Z.ltb_spec cost dpi); apply IH; auto; lia.
Qed.

Lemma dpFill_range pageWidth spaceWidth i ws :
  pageWidth <= 65535 -> 0 <= spaceWidth -> Forall (fun w => 0 <= w) ws ->
  Forall costInRange (fst (dpFill pageWidth spaceWidth i ws)).
Proof.
  intros Hpw Hsw. revert i. induction ws as [|w ws IH]; intros i Hws; cbn [dpFill].
  - constructor.
  - inversion Hws as [|? ? Hw Hws']; subst.
    destruct ws as [|w2 ws'].
    + constructor; [unfold costInRange, MAX_COST; lia|constructor].
    + specialize (IH (S i) Hws').
      destruct (dpFill pageWidth spaceWidth (S i) (w2 :: ws')) as [dps anss] eqn:E.
      cbn [fst] in IH.
      pose proof (dpInner_range pageWidth spaceWidth (w :: w2 :: ws') dps i (- spaceWidth)
                    MAX_COST 0%nat Hpw Hsw Hws IH) as Hin.
      destruct (dpInner pageWidth spaceWidth (w :: w2 :: ws') dps i (- spaceWidth) MAX_COST 0%nat)
        as [dpi ansi] eqn:E2.
      cbn [fst] in Hin.
      destruct (Z.eqb_spec dpi MAX_COST); cbn [fst]; constructor; auto.
      * destruct dps; [unfold costInRange, MAX_COST; cbn; lia|inversion IH; assumption].
      * apply Hin; [lia|unfold costInRange, MAX_COST; lia].
Qed.

(** C7.  The cost of a line is the exact sum [remainingSpace^2 + dp[j+1]]
    (the 64-bit arithmetic does not wrap on [int] operands) cut off at
    [MAX_COST], and every cost stored in the DP table lies between 0 and
    [MAX_COST], for every viewport width and every vector of word widths. *)
Theorem dp_cost_saturates :
  (forall remainingSpace dpNext,
      - 2147483648 <= remainingSpace <= 2147483647 ->
      0 <= dpNext <= MAX_COST ->
      lineCost remainingSpace dpNext
      = Z.min MAX_COST (remainingSpace * remainingSpace + dpNext)
      /\ 0 <= lineCost remainingSpace dpNext <= MAX_COST)
  /\ (forall pageWidth spaceWidth wordWidths,
        0 <= pageWidth <= 65535 -> 0 <= spaceWidth ->
        Forall (fun w => 0 <= w <= 65535) wordWidths ->
        Forall (fun d => 0 <= d <= MAX_COST) (fst (dpFill pageWidth spaceWidth 0 wordWidths))).
Proof.
  split.
  - exact lineCost_saturated.
  - intros pageWidth spaceWidth wordWidths Hpw Hsw Hws.
    apply dpFill_range; [lia|assumption|].
    eapply Forall_impl; [|exact Hws]. cbv beta. intros; lia.
Qed.

Lemma dp_cost_saturates_witness :
  lineCost 60000 2000000000 = MAX_COST
  /\ Forall (fun d => 0 <= d <= MAX_COST) (fst (dpFill 65535 5 0 [30; 40; 45; 25])).
Proof.
  split.
  - refine (eq_trans (proj1 (proj1 dp_cost_saturates 60000 2000000000 _ _)) _).
    + lia.
    + unfold MAX_COST. lia.
    + reflexivity.
  - apply (proj2 dp_cost_saturates 65535 5 [30; 40; 45; 25]).
    + lia.
    + lia.
    + repeat constructor; lia.
Defined.

(** * Vectors: writes, insertions and slices *)

Lemma list_split_at {A} (d : A) (i : nat) (l : list A) :
  (i < length l)%nat -> l = firstn i l ++ nth i l d :: skipn (S i) l.
Proof.
  revert i. induction l as [|x l IH]; intros i Hi; [simpl in Hi; lia|].
  destruct i as [|i]; [reflexivity|].
  cbn [firstn nth skipn app]. f_equal. apply IH. simpl in Hi. lia.
Qed.

Lemma setAt_app {A} (l1 : list A) (x y : A) (l2 : list A) :
  setAt (length l1) y (l1 ++ x :: l2) = l1 ++ y :: l2.
Proof.
  unfold setAt. rewrite length_app. cbn [length].
  destruct (Nat.ltb_spec (length l1) (length l1 + S (length l2))) as [_|H]; [|lia].
  rewrite firstn_app, Nat.sub_diag, firstn_all, app_nil_r. cbn [firstn].
  replace (S (length l1)) with (length l1 + 1)%nat by lia.
  rewrite skipn_app, skipn_all2 by lia.
  replace (length l1 + 1 - length l1)%nat with 1%nat by lia. reflexivity.
Qed.

Lemma insertAt_app {A} (l1 : list A) (x y : A) (l2 : list A) :
  insertAt (S (length l1)) y (l1 ++ x :: l2) = l1 ++ x :: y :: l2.
Proof.
  unfold insertAt.
  replace (S (length l1)) with (length l1 + 1)%nat by lia.
  rewrite firstn_app, skipn_app, firstn_all2, skipn_all2 by lia.
  replace (length l1 + 1 - length l1)%nat with 1%nat by lia.
  cbn [firstn skipn app]. rewrite <- app_assoc. reflexivity.
Qed.

Lemma nth_middle' {A} (d : A) (l1 : list A) (x : A) (l2 : list A) :
  nth (length l1) (l1 ++ x :: l2) d = x.
Proof. rewrite app_nth2, Nat.sub_diag by lia. reflexivity. Qed.

Lemma insertAt_setAt {A} (d : A) (i : nat) (x y : A) (l : list A) :
  (i < length l)%nat ->
  insertAt (S i) y (setAt i x l) = firstn i l ++ x :: y :: skipn (S i) l.
Proof.
  intros Hi. pose proof (list_split_at d i l Hi) as E.
  assert (L : length (firstn i l) = i) by (rewrite length_firstn; lia).
  remember (firstn i l) as l1. remember (skipn (S i) l) as l2. remember (nth i l d) as x0.
  rewrite E, <- L. rewrite setAt_app, insertAt_app. reflexivity.
Qed.

Lemma insertAt_after {A} (d : A) (i : nat) (y : A) (l : list A) :
  (i < length l)%nat ->
  insertAt (S i) y l = firstn i l ++ nth i l d :: y :: skipn (S i) l.
Proof.
  intros Hi. pose proof (list_split_at d i l Hi) as E.
  assert (L : length (firstn i l) = i) by (rewrite length_firstn; lia).
  remember (firstn i l) as l1. remember (skipn (S i) l) as l2. remember (nth i l d) as x0.
  rewrite E, <- L. rewrite insertAt_app. reflexivity.
Qed.

Lemma app_eq_length_inv {A} (l1 l1' l2 l2' : list A) :
  length l1 = length l1' -> l1 ++ l2 = l1' ++ l2' -> l1 = l1' /\ l2 = l2'.
Proof.
  revert l1'. induction l1 as [|x l1 IH]; intros [|x' l1'] Hl E; try discriminate.
  - split; [reflexivity|exact E].
  - injection E as -> E. destruct (IH l1') as [-> ->]; [simpl in Hl; lia|exact E|].
    split; reflexivity.
Qed.

Section BufferFacts.

Variable renderer : GfxRenderer.
Variable fontId : Z.
Variable Hyphenator_breakOffsets : bytes -> bool -> list BreakInfo.

Local Abbreviation hyphenate := (hyphenateWordAtIndex renderer fontId Hyphenator_breakOffsets).
Local Abbreviation measure := (measureWordWidth renderer fontId).
Local Abbreviation widthsOf := (calculateWordWidthsFrom renderer fontId).
Local Abbreviation splitAt := (splitWordAt renderer fontId).
Local Abbreviation pwidth := (prefixWidthOf renderer fontId).
Local Abbreviation fitting := (fittingBreak renderer fontId).
Local Abbreviation cached := (cached renderer fontId).
Local Abbreviation realizedSplit := (realizedSplit renderer fontId Hyphenator_breakOffsets).
Local Abbreviation splits := (splits renderer fontId Hyphenator_breakOffsets).

Lemma widthsOf_length ws sts : length (widthsOf ws sts) = length ws.
Proof.
  revert sts. induction ws as [|w ws IH]; intros sts; cbn [calculateWordWidthsFrom length];
    [reflexivity|]. rewrite IH. reflexivity.
Qed.

Lemma widthsOf_app ws1 ws2 sts1 sts2 :
  length ws1 = length sts1 ->
  widthsOf (ws1 ++ ws2) (sts1 ++ sts2) = widthsOf ws1 sts1 ++ widthsOf ws2 sts2.
Proof.
  revert sts1. induction ws1 as [|w ws1 IH]; intros [|s sts1] H; try discriminate;
    [reflexivity|].
  cbn [app calculateWordWidthsFrom hd tl]. f_equal. apply IH. simpl in H. lia.
Qed.

Lemma widthsOf_skipn b ws sts :
  widthsOf (skipn b ws) (skipn b sts) = skipn b (widthsOf ws sts).
Proof.
  revert ws sts. induction b as [|b IH]; intros ws sts; [reflexivity|].
  destruct ws as [|w ws]; [reflexivity|].
  destruct sts as [|s sts]; cbn [skipn calculateWordWidthsFrom tl].
  - rewrite <- IH. destruct b; reflexivity.
  - apply IH.
Qed.

Lemma cached_length pt ww : cached pt ww -> length ww = length (words pt).
Proof. intros ->. apply widthsOf_length. Qed.

(** *** The shape of a realized split *)

Lemma splits_trans n m s s' s'' :
  splits n s s' -> splits m s' s'' -> splits (n + m) s s''.
Proof.
  induction 1 as [|n s s1 s2 Hstep Hrest IH]; intros H2; [exact H2|].
  cbn [Nat.add]. econstructor; [exact Hstep|]. apply IH. exact H2.
Qed.

Lemma splits_one s s' : realizedSplit s s' -> splits 1 s s'.
Proof. intros H. econstructor; [exact H|constructor]. Qed.

(** The outcome of a successful call, with the buffer taken apart around
    the word that is split. *)
Lemma hyphenate_true_shape wordIndex avail wordWidths allowFallback pt pt' wordWidths' :
  aligned pt -> length wordWidths = length (words pt) ->
  hyphenate wordIndex avail wordWidths allowFallback pt = (true, pt', wordWidths') ->
  exists before word after stylesBefore st stylesAfter widthsBefore x widthsAfter info,
    words pt = before ++ word :: after
    /\ wordStyles pt = stylesBefore ++ st :: stylesAfter
    /\ wordWidths = widthsBefore ++ x :: widthsAfter
    /\ length before = wordIndex /\ length stylesBefore = wordIndex
    /\ length widthsBefore = wordIndex
    /\ In info (Hyphenator_breakOffsets word allowFallback)
    /\ fitting word st avail info
    /\ (forall info', In info' (Hyphenator_breakOffsets word allowFallback) ->
                      fitting word st avail info' -> pwidth word st info' <= pwidth word st info)
    /\ 0 < avail
    /\ pt' = withWords pt
               (before ++ (firstn (bi_byteOffset info) word
                           ++ (if requiresInsertedHyphen info then [hyphenChar] else []))
                       :: skipn (bi_byteOffset info) word :: after)
               (stylesBefore ++ st :: st :: stylesAfter)
    /\ wordWidths' = widthsBefore ++ pwidth word st info
                     :: measure (skipn (bi_byteOffset info) word) st false :: widthsAfter.
Proof.
  intros Hal Hlen E.
  destruct (hyphenateWordAtIndex_spec renderer fontId Hyphenator_breakOffsets
              wordIndex avail wordWidths allowFallback pt)
    as [[E' _]|(info & E' & Ha & Hi & Hin & Hf & Hbest)]; rewrite E' in E; [discriminate|].
  injection E as <- <-.
  set (word := nth wordIndex (words pt) []) in *.
  set (st := nth wordIndex (wordStyles pt) REGULAR) in *.
  assert (Hw : words pt = firstn wordIndex (words pt) ++ word :: skipn (S wordIndex) (words pt))
    by (apply list_split_at; exact Hi).
  assert (Hs : wordStyles pt
               = firstn wordIndex (wordStyles pt) ++ st :: skipn (S wordIndex) (wordStyles pt))
    by (apply list_split_at; unfold aligned in Hal; lia).
  assert (Hx : wordWidths
               = firstn wordIndex wordWidths ++ nth wordIndex wordWidths 0
                 :: skipn (S wordIndex) wordWidths)
    by (apply list_split_at; lia).
  assert (L1 : length (firstn wordIndex (words pt)) = wordIndex)
    by (rewrite length_firstn; lia).
  assert (L2 : length (firstn wordIndex (wordStyles pt)) = wordIndex)
    by (rewrite length_firstn; unfold aligned in Hal; lia).
  assert (L3 : length (firstn wordIndex wordWidths) = wordIndex)
    by (rewrite length_firstn; lia).
  exists (firstn wordIndex (words pt)), word, (skipn (S wordIndex) (words pt)),
         (firstn wordIndex (wordStyles pt)), st, (skipn (S wordIndex) (wordStyles pt)),
         (firstn wordIndex wordWidths), (nth wordIndex wordWidths 0),
         (skipn (S wordIndex) wordWidths), info.
  repeat (split; [assumption|]).
  unfold splitWordAt. fold word st. cbn [fst snd]. split.
  - f_equal.
    + apply insertAt_setAt with (d := word). exact Hi.
    + apply insertAt_after. unfold aligned in Hal. lia.
  - apply insertAt_setAt with (d := 0). lia.
Qed.

Lemma hyphenate_realized wordIndex avail wordWidths allowFallback pt pt' wordWidths' :
  aligned pt -> length wordWidths = length (words pt) ->
  hyphenate wordIndex avail wordWidths allowFallback pt = (true, pt', wordWidths') ->
  realizedSplit (pt, wordWidths) (pt', wordWidths').
Proof.
  intros Hal Hlen E.
  destruct (hyphenate_true_shape _ _ _ _ _ _ _ Hal Hlen E)
    as (before & word & after & sb & st & sa & wb & x & wa & info
        & Hw & Hs & Hx & L1 & L2 & L3 & Hin & (Hf1 & Hf2 & Hf3) & Hbest & Ha & Hpt & Hww).
  eapply realized_split with (offset := bi_byteOffset info)
                             (needsHyphen := requiresInsertedHyphen info); eauto;
    try (subst pt'; reflexivity).
  lia.
Qed.

Lemma hyphenate_true_aligned wordIndex avail wordWidths allowFallback pt pt' wordWidths' :
  aligned pt -> length wordWidths = length (words pt) ->
  hyphenate wordIndex avail wordWidths allowFallback pt = (true, pt', wordWidths') ->
  aligned pt' /\ length wordWidths' = length (words pt')
  /\ length (words pt') = S (length (words pt)).
Proof.
  intros Hal Hlen E.
  destruct (hyphenate_true_shape _ _ _ _ _ _ _ Hal Hlen E)
    as (before & word & after & sb & st & sa & wb & x & wa & info
        & Hw & Hs & Hx & L1 & L2 & L3 & Hin & Hf & Hbest & Ha & Hpt & Hww).
  subst pt' wordWidths'. unfold aligned in *. cbn [withWords words wordStyles].
  rewrite Hw, Hs, Hx in *. rewrite !length_app in *. cbn [length] in *. lia.
Qed.

Lemma hyphenate_true_cached wordIndex avail wordWidths allowFallback pt pt' wordWidths' :
  aligned pt -> cached pt wordWidths ->
  hyphenate wordIndex avail wordWidths allowFallback pt = (true, pt', wordWidths') ->
  cached pt' wordWidths'.
Proof.
  intros Hal Hc E. pose proof (cached_length _ _ Hc) as Hlen.
  destruct (hyphenate_true_shape _ _ _ _ _ _ _ Hal Hlen E)
    as (before & word & after & sb & st & sa & wb & x & wa & info
        & Hw & Hs & Hx & L1 & L2 & L3 & Hin & Hf & Hbest & Ha & Hpt & Hww).
  subst pt' wordWidths'. unfold cached in *. cbn [withWords words wordStyles].
  rewrite Hw, Hs in Hc. rewrite widthsOf_app in Hc by lia.
  rewrite Hx in Hc. apply app_eq_length_inv in Hc; [|rewrite widthsOf_length; lia].
  destruct Hc as [Hc1 Hc2]. rewrite widthsOf_app by lia. rewrite Hc1.
  f_equal. cbn [calculateWordWidthsFrom hd tl] in *. injection Hc2 as _ Hc2.
  rewrite measureWordWidth_prefix. unfold prefixWidthOf. rewrite Hc2. reflexivity.
Qed.

Lemma realizedSplit_grows pt ww pt' ww' :
  bufferOk pt ww -> realizedSplit (pt, ww) (pt', ww') ->
  bufferOk pt' ww' /\ length ww' = S (length ww)
  /\ length (words pt') = S (length (words pt)).
Proof.
  intros [Hal Hlen] Hr. inversion Hr; subst.
  match goal with
  | H : hyphenateWordAtIndex _ _ _ _ _ _ _ _ = _ |- _ =>
      pose proof (hyphenate_true_aligned _ _ _ _ _ _ _ Hal Hlen H) as (Ha & Hb & Hc)
  end.
  split; [split; assumption|]. split; lia.
Qed.

Lemma splits_grow n s s' :
  splits n s s' -> bufferOk (fst s) (snd s) ->
  bufferOk (fst s') (snd s')
  /\ length (words (fst s')) = (length (words (fst s)) + n)%nat.
Proof.
  induction 1 as [s|n [pt ww] [pt1 ww1] s2 Hstep Hrest IH]; intros Hok.
  - split; [exact Hok|lia].
  - cbn [fst snd] in *.
    destruct (realizedSplit_grows _ _ _ _ Hok Hstep) as (Hok1 & _ & Hl).
    destruct (IH Hok1) as (Hok2 & Hl2). split; [exact Hok2|lia].
Qed.

End BufferFacts.

(** * Slices, line widths and the scan measure *)

Lemma sumZ_from (l : list Z) (a : Z) : fold_left Z.add l a = a + sumZ l.
Proof.
  unfold sumZ. revert a. induction l as [|x l IH]; intros a; cbn [fold_left]; [lia|].
  rewrite IH, (IH (0 + x)). lia.
Qed.

Lemma sumZ_cons (x : Z) (l : list Z) : sumZ (x :: l) = x + sumZ l.
Proof.
  change (sumZ (x :: l)) with (fold_left Z.add l (0 + x)). rewrite sumZ_from. lia.
Qed.

Lemma sumZ_app (l1 l2 : list Z) : sumZ (l1 ++ l2) = sumZ l1 + sumZ l2.
Proof.
  induction l1 as [|x l1 IH]; [change (sumZ []) with 0; cbn [app]; lia|].
  cbn [app]. rewrite !sumZ_cons, IH. lia.
Qed.

Lemma lineWidthOf_snoc (spaceWidth : Z) (l : list Z) (w : Z) :
  lineWidthOf spaceWidth (l ++ [w])
  = lineWidthOf spaceWidth l + ((if isEmpty l then 0 else spaceWidth) + w).
Proof.
  destruct l as [|x l].
  - cbn [app lineWidthOf isEmpty length]. rewrite sumZ_cons. change (sumZ []) with 0. lia.
  - unfold lineWidthOf. cbn [app isEmpty]. rewrite app_comm_cons, sumZ_app, length_app.
    cbn [length]. rewrite (sumZ_cons w []). change (sumZ []) with 0. lia.
Qed.

Lemma slice_alt {A} (first last : nat) (l : list A) :
  slice first last l = skipn first (firstn last l).
Proof. unfold slice. symmetry. apply skipn_firstn_comm. Qed.

Lemma slice_empty {A} (first : nat) (l : list A) : slice first first l = [].
Proof. unfold slice. rewrite Nat.sub_diag. reflexivity. Qed.

Lemma firstn_succ_nth {A} (d : A) (i : nat) (l : list A) :
  (i < length l)%nat -> firstn (S i) l = firstn i l ++ [nth i l d].
Proof.
  revert i. induction l as [|x l IH]; intros i Hi; [simpl in Hi; lia|].
  destruct i as [|i]; [reflexivity|].
  cbn [firstn nth app]. f_equal. apply IH. simpl in Hi. lia.
Qed.

Lemma slice_snoc {A} (d : A) (first i : nat) (l : list A) :
  (first <= i)%nat -> (i < length l)%nat ->
  slice first (S i) l = slice first i l ++ [nth i l d].
Proof.
  intros H1 H2. rewrite !slice_alt, (firstn_succ_nth d) by exact H2.
  rewrite skipn_app. rewrite length_firstn.
  replace (first - Nat.min i (length l))%nat with 0%nat by lia. reflexivity.
Qed.

Lemma slice_frame {A} (first last : nat) (l1 l2 : list A) :
  firstn last l1 = firstn last l2 -> slice first last l1 = slice first last l2.
Proof. intros H. rewrite !slice_alt, H. reflexivity. Qed.

Lemma firstn_frame {A} (a b : nat) (l1 l2 : list A) :
  (a <= b)%nat -> firstn b l1 = firstn b l2 -> firstn a l1 = firstn a l2.
Proof.
  intros Hab H. replace a with (Nat.min a b) by lia.
  rewrite <- !firstn_firstn, H. reflexivity.
Qed.

Lemma nth_firstn_frame {A} (d : A) (i n : nat) (l1 l2 : list A) :
  (i < n)%nat -> firstn n l1 = firstn n l2 -> nth i l1 d = nth i l2 d.
Proof.
  intros Hi H.
  pose proof (nth_firstn n l1 i d) as E1. pose proof (nth_firstn n l2 i d) as E2.
  destruct (Nat.ltb_spec i n) as [_|Hn]; [|lia].
  rewrite <- E1, <- E2, H. reflexivity.
Qed.

Lemma scanMeasure_app ws1 ws2 :
  scanMeasure (ws1 ++ ws2) = (scanMeasure ws1 + scanMeasure ws2)%nat.
Proof. unfold scanMeasure. rewrite concat_app, !length_app. lia. Qed.

Lemma scanMeasure_skipn (a b : nat) (ws : list bytes) :
  (a <= b)%nat -> (b <= length ws)%nat ->
  (scanMeasure (skipn b ws) + (b - a) <= scanMeasure (skipn a ws))%nat.
Proof.
  intros Hab Hb.
  rewrite <- (firstn_skipn (b - a) (skipn a ws)), skipn_skipn.
  replace (b - a + a)%nat with b by lia. rewrite scanMeasure_app.
  unfold scanMeasure at 2. rewrite length_firstn, length_skipn. lia.
Qed.

Lemma skipn_at {A} (l1 l2 : list A) : skipn (length l1) (l1 ++ l2) = l2.
Proof. induction l1 as [|x l1 IH]; [reflexivity|exact IH]. Qed.

Lemma skipn_after {A} (l1 : list A) (x : A) (l2 : list A) :
  skipn (S (length l1)) (l1 ++ x :: l2) = l2.
Proof. induction l1 as [|y l1 IH]; [reflexivity|exact IH]. Qed.

Lemma firstn_at {A} (l1 l2 : list A) : firstn (length l1) (l1 ++ l2) = l1.
Proof. induction l1 as [|x l1 IH]; [reflexivity|cbn [length app firstn]; now rewrite IH]. Qed.

(** * The greedy hyphenated breaker *)

Section GreedyFacts.

Variable renderer : GfxRenderer.
Variable fontId : Z.
Variable Hyphenator_breakOffsets : bytes -> bool -> list BreakInfo.
Variables pageWidth spaceWidth : Z.

Local Abbreviation hyphenate := (hyphenateWordAtIndex renderer fontId Hyphenator_breakOffsets).
Local Abbreviation measure := (measureWordWidth renderer fontId).
Local Abbreviation pwidth := (prefixWidthOf renderer fontId).
Local Abbreviation fitting := (fittingBreak renderer fontId).
Local Abbreviation cached := (cached renderer fontId).
Local Abbreviation realizedSplit := (realizedSplit renderer fontId Hyphenator_breakOffsets).
Local Abbreviation splits := (splits renderer fontId Hyphenator_breakOffsets).
Local Abbreviation unsplittable := (unsplittable renderer fontId Hyphenator_breakOffsets).
Local Abbreviation lineFits :=
  (lineFits renderer fontId Hyphenator_breakOffsets pageWidth spaceWidth).
Local Abbreviation linesFit :=
  (linesFit renderer fontId Hyphenator_breakOffsets pageWidth spaceWidth).
Local Abbreviation body :=
  (lineBody renderer fontId Hyphenator_breakOffsets pageWidth spaceWidth).
Local Abbreviation fill :=
  (fillLine renderer fontId Hyphenator_breakOffsets).
Local Abbreviation lines :=
  (hyphenatedLines renderer fontId Hyphenator_breakOffsets).
Local Abbreviation fillPost :=
  (fillPost renderer fontId Hyphenator_breakOffsets pageWidth spaceWidth).
Local Abbreviation linesPost :=
  (linesPost renderer fontId Hyphenator_breakOffsets pageWidth spaceWidth).

Lemma hyphenate_false wordIndex avail ww fb pt pt' ww' :
  hyphenate wordIndex avail ww fb pt = (false, pt', ww') -> pt' = pt /\ ww' = ww.
Proof.
  intros E.
  destruct (hyphenateWordAtIndex_spec renderer fontId Hyphenator_breakOffsets
              wordIndex avail ww fb pt) as [[E' _]|(info & E' & _)];
    rewrite E' in E; [|discriminate].
  injection E as <- <-. split; reflexivity.
Qed.

(** Whether a word can be split depends on the word and its style only. *)
Lemma hyphenate_ok_local i1 i2 avail ww1 ww2 fb pt1 pt2 :
  nth i1 (words pt1) [] = nth i2 (words pt2) [] ->
  nth i1 (wordStyles pt1) REGULAR = nth i2 (wordStyles pt2) REGULAR ->
  ((i1 < length (words pt1))%nat <-> (i2 < length (words pt2))%nat) ->
  fst (fst (hyphenate i1 avail ww1 fb pt1)) = fst (fst (hyphenate i2 avail ww2 fb pt2)).
Proof.
  intros Hw Hs Hl. unfold hyphenateWordAtIndex.
  destruct (avail <=? 0); cbn [orb]; [reflexivity|].
  destruct (Nat.leb_spec (length (words pt1)) i1), (Nat.leb_spec (length (words pt2)) i2);
    try (exfalso; lia); [reflexivity|].
  rewrite Hw, Hs.
  destruct (isEmpty _); [reflexivity|].
  destruct (chosenWidth _ <? 0); reflexivity.
Qed.

Lemma unsplittable_frame ww1 ww2 pt1 pt2 i n :
  (i < n)%nat -> (n <= length (words pt1))%nat -> (n <= length (words pt2))%nat ->
  firstn n (words pt1) = firstn n (words pt2) ->
  firstn n (wordStyles pt1) = firstn n (wordStyles pt2) ->
  unsplittable pageWidth ww1 pt1 i -> unsplittable pageWidth ww2 pt2 i.
Proof.
  intros Hi H1 H2 Hw Hs. unfold Voc.unsplittable.
  rewrite (hyphenate_ok_local i i pageWidth ww1 ww2 true pt1 pt2); [auto| | |lia].
  - apply nth_firstn_frame with (n := n); assumption.
  - apply nth_firstn_frame with (n := n); assumption.
Qed.

Lemma lineFits_frame ww1 ww2 pt1 pt2 first last :
  (first < last)%nat -> (last <= length (words pt1))%nat -> (last <= length (words pt2))%nat ->
  firstn last ww1 = firstn last ww2 ->
  firstn last (words pt1) = firstn last (words pt2) ->
  firstn last (wordStyles pt1) = firstn last (wordStyles pt2) ->
  lineFits ww1 pt1 first last -> lineFits ww2 pt2 first last.
Proof.
  intros Hfl H1 H2 Hx Hw Hs [Hfit|[He Hu]].
  - left. rewrite <- (slice_frame first last ww1 ww2 Hx). exact Hfit.
  - right. split; [exact He|].
    apply (unsplittable_frame ww1 ww2 pt1 pt2 first last); assumption.
Qed.

(** The three outcomes of the loop body. *)
Lemma lineBody_cases lineStart cur lineWidth ww pt :
  let spacing := if (cur =? lineStart)%nat then 0 else spaceWidth in
  let avail := pageWidth - lineWidth - spacing in
  (lineWidth + (spacing + nth cur ww 0) <= pageWidth
   /\ body lineStart cur lineWidth ww pt
      = Continue (S cur) (lineWidth + (spacing + nth cur ww 0)))
  \/ (pageWidth < lineWidth + (spacing + nth cur ww 0)
      /\ exists pt' ww',
           hyphenate cur avail ww (cur =? lineStart)%nat pt = (true, pt', ww')
           /\ body lineStart cur lineWidth ww pt = CloseLine pt' ww' (S cur))
  \/ (pageWidth < lineWidth + (spacing + nth cur ww 0)
      /\ fst (fst (hyphenate cur avail ww (cur =? lineStart)%nat pt)) = false
      /\ body lineStart cur lineWidth ww pt
         = CloseLine pt ww (if (cur =? lineStart)%nat then S cur else cur)).
Proof.
  intros spacing avail. unfold lineBody. fold spacing. fold avail.
  destruct (Z.leb_spec (lineWidth + (spacing + nth cur ww 0)) pageWidth) as [Hfit|Hov].
  { left. split; [exact Hfit|reflexivity]. }
  right.
  destruct (Z.gtb_spec avail 0) as [Hpos|Hneg].
  - destruct (hyphenate cur avail ww (cur =? lineStart)%nat pt) as [[ok pt'] ww'] eqn:E.
    destruct ok.
    + left. split; [exact Hov|]. exists pt', ww'. split; reflexivity.
    + right. split; [exact Hov|]. split; [reflexivity|].
      destruct (cur =? lineStart)%nat; reflexivity.
  - right. split; [exact Hov|]. split.
    + unfold hyphenateWordAtIndex. destruct (Z.leb_spec avail 0); [reflexivity|lia].
    + destruct (cur =? lineStart)%nat; reflexivity.
Qed.

Lemma fillPost_weaken lineStart cur ww pt pt' ww' cur' :
  (lineStart <= cur)%nat ->
  fillPost lineStart (S cur) ww pt pt' ww' cur' ->
  fillPost lineStart cur ww pt pt' ww' cur'.
Proof.
  intros Hc (Hok & Hle & Hlen & Hprog & Hfit & Hch & Hca).
  split; [exact Hok|]. split; [lia|]. split; [exact Hlen|].
  split; [intros _; lia|]. split; [exact Hfit|]. split; [|exact Hca].
  destruct Hch as [E|(Hr & Hlt & Hrest)]; [now left|].
  right. split; [exact Hr|]. split; [lia|exact Hrest].
Qed.

Lemma slice_length_lt {A} (first cur : nat) (l : list A) :
  (cur <= length l)%nat -> length (slice first cur l) = (cur - first)%nat.
Proof. intros H. unfold slice. rewrite length_firstn, length_skipn. lia. Qed.

Lemma isEmpty_slice {A} (first cur : nat) (l : list A) :
  (first <= cur)%nat -> (cur <= length l)%nat ->
  isEmpty (slice first cur l) = (cur =? first)%nat.
Proof.
  intros H1 H2. pose proof (slice_length_lt first cur l H2) as HL.
  destruct (slice first cur l) eqn:E; cbn [isEmpty length] in *;
    destruct (Nat.eqb_spec cur first); try reflexivity; lia.
Qed.

Lemma fillLine_spec fuel lineStart cur lineWidth ww pt :
  bufferOk pt ww ->
  (lineStart <= cur)%nat -> (cur <= length ww)%nat -> (length ww - cur < fuel)%nat ->
  lineWidth = lineWidthOf spaceWidth (slice lineStart cur ww) ->
  ((lineStart < cur)%nat -> lineWidth <= pageWidth) ->
  exists pt' ww' cur',
    fill fuel pageWidth spaceWidth lineStart cur lineWidth ww pt = Some (pt', ww', cur')
    /\ fillPost lineStart cur ww pt pt' ww' cur'.
Proof.
  revert cur lineWidth.
  induction fuel as [|fuel IH]; intros cur lineWidth Hok Hls Hcur Hfuel Hlw Hfit; [lia|].
  cbn [fillLine].
  destruct (Nat.ltb_spec cur (length ww)) as [Hlt|Hge].
  2:{ exists pt, ww, cur. split; [reflexivity|].
      split; [exact Hok|]. split; [lia|]. split; [lia|]. split; [lia|].
      split; [|split; [now left|auto]].
      intros Hl. left. rewrite <- Hlw. auto. }
  pose proof (isEmpty_slice lineStart cur ww Hls Hcur) as Hemp.
  assert (Hsnoc : lineWidthOf spaceWidth (slice lineStart (S cur) ww)
                  = lineWidth + ((if (cur =? lineStart)%nat then 0 else spaceWidth)
                                 + nth cur ww 0)).
  { rewrite (slice_snoc 0) by assumption. rewrite lineWidthOf_snoc, Hemp, <- Hlw.
    reflexivity. }
  pose proof (lineBody_cases lineStart cur lineWidth ww pt) as Hcases.
  cbv zeta in Hcases.
  destruct Hcases as [[Hf Eb]|[(Hov & pt' & ww' & Eh & Eb)|(Hov & Eh & Eb)]]; rewrite Eb.
  - (* the word fits: continue *)
    destruct (IH (S cur) (lineWidth + ((if (cur =? lineStart)%nat then 0 else spaceWidth)
                                       + nth cur ww 0))
                 Hok ltac:(lia) ltac:(lia) ltac:(lia) (eq_sym Hsnoc) (fun _ => Hf))
      as (pt' & ww' & cur' & E & Hpost).
    exists pt', ww', cur'. split; [exact E|].
    apply fillPost_weaken; assumption.
  - (* the word is split: the prefix closes the line *)
    destruct Hok as [Hal Hlen].
    destruct (hyphenate_true_shape renderer fontId Hyphenator_breakOffsets
                _ _ _ _ _ _ _ Hal Hlen Eh)
      as (before & word & after & sb & st & sa & wb & x & wa & info
          & Hw & Hs & Hx & L1 & L2 & L3 & Hin & (Hf1 & Hf2 & Hf3) & Hbest & Ha & Hpt & Hww).
    pose proof (hyphenate_true_aligned renderer fontId Hyphenator_breakOffsets
                  _ _ _ _ _ _ _ Hal Hlen Eh) as (Hal' & Hlen' & Hgrow).
    assert (Fw : firstn cur ww' = firstn cur ww).
    { rewrite Hww, Hx, <- L3, !firstn_at. reflexivity. }
    assert (Fword : firstn cur (words pt') = firstn cur (words pt)).
    { rewrite Hpt. cbn [withWords words]. rewrite Hw, <- L1, !firstn_at. reflexivity. }
    assert (Fst : firstn cur (wordStyles pt') = firstn cur (wordStyles pt)).
    { rewrite Hpt. cbn [withWords wordStyles]. rewrite Hs, <- L2, !firstn_at. reflexivity. }
    assert (Hnth : nth cur ww' 0 = pwidth word st info).
    { rewrite Hww, <- L3. apply nth_middle'. }
    exists pt', ww', (S cur). split; [reflexivity|].
    split; [split; assumption|]. split; [lia|]. split; [lia|]. split; [lia|].
    split; [|split].
    + intros _. left.
      rewrite (slice_snoc 0) by lia.
      rewrite (slice_frame lineStart cur ww' ww Fw).
      rewrite lineWidthOf_snoc, Hemp, <- Hlw, Hnth.
      destruct (cur =? lineStart)%nat; lia.
    + right.
      split; [exact (hyphenate_realized renderer fontId Hyphenator_breakOffsets
                       _ _ _ _ _ _ _ Hal Hlen Eh)|].
      split; [lia|]. split; [lia|].
      replace (S cur - 1)%nat with cur by lia.
      repeat (split; [assumption|]).
      rewrite Hpt. cbn [withWords words]. rewrite Hw, <- L1.
      rewrite skipn_after, skipn_at. unfold scanMeasure. cbn [length concat].
      rewrite !length_app, length_skipn. lia.
    + intros Hc.
      exact (hyphenate_true_cached renderer fontId Hyphenator_breakOffsets
               _ _ _ _ _ _ _ Hal Hc Eh).
  - (* no split: the line is closed before the word, or the word is forced *)
    exists pt, ww, (if (cur =? lineStart)%nat then S cur else cur).
    split; [reflexivity|].
    split; [exact Hok|].
    destruct (Nat.eqb_spec cur lineStart) as [Heq|Hne].
    + subst cur. split; [lia|]. split; [lia|]. split; [lia|].
      split; [|split; [now left|auto]].
      intros _. right. split; [reflexivity|].
      unfold Voc.unsplittable. rewrite slice_empty in Hlw. cbn [lineWidthOf] in Hlw.
      subst lineWidth.
      replace (pageWidth - 0 - 0) with pageWidth in Eh by lia. exact Eh.
    + split; [lia|]. split; [lia|]. split; [lia|].
      split; [|split; [now left|auto]].
      intros _. left. rewrite <- Hlw. apply Hfit. lia.
Qed.

Lemma coverFrom_le start breaks total : coverFrom start breaks total -> (start <= total)%nat.
Proof.
  revert start. induction breaks as [|b rest IH]; intros start H; cbn [coverFrom] in H.
  - lia.
  - lia.
Qed.

Lemma hyphenatedLines_nil fuel cur ww pt ptf wwf :
  lines fuel pageWidth spaceWidth cur ww pt = Some (ptf, wwf, []) ->
  (ptf, wwf) = (pt, ww).
Proof.
  destruct fuel as [|fuel]; cbn [hyphenatedLines]; [discriminate|].
  destruct (cur <? length ww)%nat.
  - destruct (fill _ _ _ _ _ _ _ _) as [[[p l] c]|]; [|discriminate].
    destruct (lines _ _ _ _ _ _) as [[[p' l'] r]|]; discriminate.
  - intros E. injection E as <- <-. reflexivity.
Qed.

Lemma hyphenatedLines_spec fuel cur ww pt :
  bufferOk pt ww -> (cur <= length ww)%nat ->
  (scanMeasure (skipn cur (words pt)) < fuel)%nat ->
  exists ptf wwf breaks,
    lines fuel pageWidth spaceWidth cur ww pt = Some (ptf, wwf, breaks)
    /\ linesPost cur ww pt ptf wwf breaks.
Proof.
  revert cur ww pt.
  induction fuel as [|fuel IH]; intros cur ww pt Hok Hcur Hfuel; [lia|].
  cbn [hyphenatedLines].
  destruct (Nat.ltb_spec cur (length ww)) as [Hlt|Hge].
  2:{ exists pt, ww, []. split; [reflexivity|].
      split; [exact Hok|]. split; [cbn; lia|]. split; [exact I|].
      split; [exists 0%nat; constructor|].
      repeat (split; [reflexivity|]). split; [auto|]. split; [congruence|lia]. }
  destruct (fillLine_spec (S (length ww)) cur cur 0 ww pt Hok (le_n _) Hcur)
    as (pt1 & ww1 & cur1 & Ef & Hpost).
  { lia. }
  { rewrite slice_empty. reflexivity. }
  { lia. }
  rewrite Ef.
  destruct Hpost as (Hok1 & Hle1 & Hlen1 & Hprog & Hfit1 & Hch & Hca1).
  specialize (Hprog Hlt). specialize (Hfit1 Hprog).
  assert (Hw1 : length ww1 = length (words pt1)) by apply Hok1.
  assert (Hw0 : length ww = length (words pt)) by apply Hok.
  assert (Hmeasure : (scanMeasure (skipn cur1 (words pt1))
                      < scanMeasure (skipn cur (words pt)))%nat).
  { destruct Hch as [E|(Hr & Hc1 & Hc2 & F1 & F2 & F3 & Hm)].
    - injection E as -> ->.
      pose proof (scanMeasure_skipn cur cur1 (words pt) ltac:(lia) ltac:(lia)). lia.
    - pose proof (realizedSplit_grows renderer fontId Hyphenator_breakOffsets
                    _ _ _ _ Hok Hr) as (_ & Hg & _).
      pose proof (scanMeasure_skipn cur (cur1 - 1) (words pt) ltac:(lia) ltac:(lia)). lia. }
  assert (Fpre : firstn cur ww1 = firstn cur ww
                 /\ firstn cur (words pt1) = firstn cur (words pt)
                 /\ firstn cur (wordStyles pt1) = firstn cur (wordStyles pt)).
  { destruct Hch as [E|(Hr & Hc1 & Hc2 & F1 & F2 & F3 & Hm)].
    - injection E as -> ->. repeat split.
    - split; [|split].
      + exact (firstn_frame cur (cur1 - 1) _ _ ltac:(lia) F1).
      + exact (firstn_frame cur (cur1 - 1) _ _ ltac:(lia) F2).
      + exact (firstn_frame cur (cur1 - 1) _ _ ltac:(lia) F3). }
  destruct Fpre as (Fp1 & Fp2 & Fp3).
  destruct (IH cur1 ww1 pt1 Hok1 Hlen1 ltac:(lia)) as (ptf & wwf & rest & El & Hl).
  rewrite El. exists ptf, wwf, (cur1 :: rest). split; [reflexivity|].
  destruct Hl as (Hokf & Hcov & Hfits & (n & Hsp) & G1 & G2 & G3 & Hcaf & Hrep & Hne).
  assert (Hwf : length wwf = length (words ptf)) by apply Hokf.
  pose proof (coverFrom_le _ _ _ Hcov) as Hc1f.
  split; [exact Hokf|]. split; [cbn [coverFrom]; repeat split; [lia|lia|exact Hcov]|].
  split.
  { cbn [Voc.linesFit]. split; [|exact Hfits].
    apply (lineFits_frame ww1 wwf pt1 ptf cur cur1);
      [lia|lia|lia|symmetry; exact G1|symmetry; exact G2|symmetry; exact G3|exact Hfit1]. }
  split.
  { destruct Hch as [E|(Hr & _)].
    - injection E as -> ->. exists n. exact Hsp.
    - exists (S n). econstructor; [exact Hr|exact Hsp]. }
  split; [rewrite <- Fp1; eapply firstn_frame; [|exact G1]; lia|].
  split; [rewrite <- Fp2; eapply firstn_frame; [|exact G2]; lia|].
  split; [rewrite <- Fp3; eapply firstn_frame; [|exact G3]; lia|].
  split; [auto|]. split; [|congruence].
  intros _. cbn [lastLineStart]. destruct rest as [|b rest'].
  - (* the line just closed is the last one: nothing was split in it *)
    cbn [coverFrom] in Hcov.
    pose proof (hyphenatedLines_nil _ _ _ _ _ _ El) as Efin.
    injection Efin as -> ->.
    destruct Hch as [E|(Hr & Hc1 & Hc2 & _)]; [|lia].
    injection E as -> ->. rewrite Ef. f_equal. f_equal. lia.
  - apply Hrep. congruence.
Qed.

End GreedyFacts.

(** * The DP breaker *)

Section PrepassFacts.

Variable renderer : GfxRenderer.
Variable fontId : Z.
Variable Hyphenator_breakOffsets : bytes -> bool -> list BreakInfo.
Variable pageWidth : Z.

Local Abbreviation hyphenate := (hyphenateWordAtIndex renderer fontId Hyphenator_breakOffsets).
Local Abbreviation pwidth := (prefixWidthOf renderer fontId).
Local Abbreviation cached := (cached renderer fontId).
Local Abbreviation realizedSplit := (realizedSplit renderer fontId Hyphenator_breakOffsets).
Local Abbreviation splits := (splits renderer fontId Hyphenator_breakOffsets).
Local Abbreviation unsplittable := (unsplittable renderer fontId Hyphenator_breakOffsets).
Local Abbreviation splitWhile := (splitWhileTooWide renderer fontId Hyphenator_breakOffsets).
Local Abbreviation prepass := (splitOversizedWords renderer fontId Hyphenator_breakOffsets).
Local Abbreviation settled := (settled renderer fontId Hyphenator_breakOffsets pageWidth).
Local Abbreviation splitWhilePost :=
  (splitWhilePost renderer fontId Hyphenator_breakOffsets pageWidth).
Local Abbreviation prepassPost :=
  (prepassPost renderer fontId Hyphenator_breakOffsets pageWidth).

Lemma settled_frame ww1 ww2 pt1 pt2 i n :
  (i < n)%nat -> (n <= length (words pt1))%nat -> (n <= length (words pt2))%nat ->
  firstn n ww1 = firstn n ww2 ->
  firstn n (words pt1) = firstn n (words pt2) ->
  firstn n (wordStyles pt1) = firstn n (wordStyles pt2) ->
  settled ww1 pt1 i -> settled ww2 pt2 i.
Proof.
  intros Hi H1 H2 Hx Hw Hs [Hfit|Hu].
  - left. rewrite <- (nth_firstn_frame 0 i n ww1 ww2 Hi Hx). exact Hfit.
  - right. exact (unsplittable_frame renderer fontId Hyphenator_breakOffsets pageWidth
                    ww1 ww2 pt1 pt2 i n Hi H1 H2 Hw Hs Hu).
Qed.

(** The inner [while] runs its body at most once with success: two
    rounds of fuel are enough. *)
Lemma splitWhile_spec i ww pt :
  bufferOk pt ww -> (i < length ww)%nat ->
  exists pt' ww', splitWhile 2 i pageWidth ww pt = Some (pt', ww')
                  /\ splitWhilePost i ww pt pt' ww'.
Proof.
  intros Hok Hi. cbn [splitWhileTooWide].
  destruct (Z.gtb_spec (nth i ww 0) pageWidth) as [Hwide|Hfit].
  2:{ exists pt, ww. split; [reflexivity|]. split; [exact Hok|].
      split; [left; exact Hfit|]. split; [now left|auto]. }
  destruct (hyphenate i pageWidth ww true pt) as [[ok pt'] ww'] eqn:Eh.
  destruct ok.
  2:{ exists pt, ww. split; [reflexivity|]. split; [exact Hok|].
      split; [right; unfold Voc.unsplittable; rewrite Eh; reflexivity|].
      split; [now left|auto]. }
  destruct Hok as [Hal Hlen].
  destruct (hyphenate_true_shape renderer fontId Hyphenator_breakOffsets
              _ _ _ _ _ _ _ Hal Hlen Eh)
    as (before & word & after & sb & st & sa & wb & x & wa & info
        & Hw & Hs & Hx & L1 & L2 & L3 & Hin & (Hf1 & Hf2 & Hf3) & Hbest & Ha & Hpt & Hww).
  pose proof (hyphenate_true_aligned renderer fontId Hyphenator_breakOffsets
                _ _ _ _ _ _ _ Hal Hlen Eh) as (Hal' & Hlen' & Hgrow).
  assert (Hnth : nth i ww' 0 = pwidth word st info)
    by (rewrite Hww, <- L3; apply nth_middle').
  destruct (Z.gtb_spec (nth i ww' 0) pageWidth) as [Hwide'|Hfit']; [lia|].
  exists pt', ww'. split; [reflexivity|]. split; [split; assumption|].
  split; [left; exact Hfit'|]. split.
  - right.
    split; [exact (hyphenate_realized renderer fontId Hyphenator_breakOffsets
                     _ _ _ _ _ _ _ Hal Hlen Eh)|].
    split; [rewrite Hww, Hx, <- L3, !firstn_at; reflexivity|].
    split; [rewrite Hpt; cbn [withWords words]; rewrite Hw, <- L1, !firstn_at; reflexivity|].
    split; [rewrite Hpt; cbn [withWords wordStyles]; rewrite Hs, <- L2, !firstn_at;
            reflexivity|].
    rewrite Hpt. cbn [withWords words]. rewrite Hw, <- L1.
    rewrite skipn_after, skipn_at. unfold scanMeasure. cbn [length concat].
    rewrite !length_app, length_skipn. lia.
  - intros Hc.
    exact (hyphenate_true_cached renderer fontId Hyphenator_breakOffsets
             _ _ _ _ _ _ _ Hal Hc Eh).
Qed.

Lemma splitOversizedWords_spec fuel i ww pt :
  bufferOk pt ww -> (i <= length ww)%nat ->
  (scanMeasure (skipn i (words pt)) < fuel)%nat ->
  exists ptf wwf, prepass fuel i pageWidth ww pt = Some (ptf, wwf)
                  /\ prepassPost i ww pt ptf wwf.
Proof.
  revert i ww pt.
  induction fuel as [|fuel IH]; intros i ww pt Hok Hi Hfuel; [lia|].
  cbn [splitOversizedWords].
  destruct (Nat.ltb_spec i (length ww)) as [Hlt|Hge].
  2:{ exists pt, ww. split; [reflexivity|]. split; [exact Hok|].
      split; [exists 0%nat; constructor|]. repeat (split; [reflexivity|]).
      split; [intros k Hk; lia|]. split; [auto|lia]. }
  destruct (splitWhile_spec i ww pt Hok Hlt) as (pt1 & ww1 & E1 & Hok1 & Hset & Hch & Hca).
  change (splitWhile 2 i pageWidth ww pt) with
    (splitWhileTooWide renderer fontId Hyphenator_breakOffsets 2 i pageWidth ww pt) in E1.
  cbn [splitWhileTooWide] in E1. cbn [splitWhileTooWide]. rewrite E1.
  assert (Hw0 : length ww = length (words pt)) by apply Hok.
  assert (Hw1 : length ww1 = length (words pt1)) by apply Hok1.
  assert (Hfacts : (length ww <= length ww1)%nat
                   /\ (scanMeasure (skipn (S i) (words pt1))
                       < scanMeasure (skipn i (words pt)))%nat
                   /\ firstn i ww1 = firstn i ww
                   /\ firstn i (words pt1) = firstn i (words pt)
                   /\ firstn i (wordStyles pt1) = firstn i (wordStyles pt)).
  { destruct Hch as [E|(Hr & F1 & F2 & F3 & Hm)].
    - injection E as -> ->. split; [lia|]. split; [|repeat split].
      pose proof (scanMeasure_skipn i (S i) (words pt) ltac:(lia) ltac:(lia)). lia.
    - pose proof (realizedSplit_grows renderer fontId Hyphenator_breakOffsets
                    _ _ _ _ Hok Hr) as (_ & Hg & _).
      split; [lia|]. repeat (split; [assumption|]). assumption. }
  destruct Hfacts as (Hgrow & Hm & F1 & F2 & F3).
  destruct (IH (S i) ww1 pt1 Hok1 ltac:(lia) ltac:(lia))
    as (ptf & wwf & Ef & Hokf & (n & Hsp) & G1 & G2 & G3 & Hall & Hcaf & Hlenf).
  exists ptf, wwf. split; [exact Ef|].
  assert (Hwf : length wwf = length (words ptf)) by apply Hokf.
  split; [exact Hokf|]. split.
  { destruct Hch as [E|(Hr & _)].
    - injection E as -> ->. exists n. exact Hsp.
    - exists (S n). econstructor; [exact Hr|exact Hsp]. }
  split; [rewrite <- F1; exact (firstn_frame i (S i) _ _ ltac:(lia) G1)|].
  split; [rewrite <- F2; exact (firstn_frame i (S i) _ _ ltac:(lia) G2)|].
  split; [rewrite <- F3; exact (firstn_frame i (S i) _ _ ltac:(lia) G3)|].
  split; [|split; [auto|lia]].
  intros k Hk. destruct (Nat.eq_dec k i) as [->|Hne]; [|apply Hall; lia].
  apply (settled_frame ww1 wwf pt1 ptf i (S i));
    [lia|lia|lia|symmetry; exact G1|symmetry; exact G2|symmetry; exact G3|exact Hset].
Qed.

End PrepassFacts.

Section TableFacts.

Variables pageWidth spaceWidth : Z.

Local Abbreviation inner := (dpInner pageWidth spaceWidth).
Local Abbreviation table := (dpFill pageWidth spaceWidth).

(** The inner loop either leaves [dp[i]] and [ans[i]] alone or lowers
    [dp[i]] and records an end index whose line fits. *)
Lemma dpInner_ans ws dps j currlen dpi ansi :
  let r := inner ws dps j currlen dpi ansi in
  (fst r = dpi /\ snd r = ansi)
  \/ (fst r < dpi
      /\ exists k, (k < length ws)%nat /\ snd r = (j + k)%nat
                   /\ currlen + sumZ (firstn (S k) ws) + Z.of_nat (S k) * spaceWidth
                      <= pageWidth).
Proof.
  revert dps j currlen dpi ansi.
  induction ws as [|w ws IH]; intros dps j currlen dpi ansi; cbn [dpInner].
  - left. split; reflexivity.
  - destruct (Z.gtb_spec (currlen + (w + spaceWidth)) pageWidth) as [Hg|Hg].
    { left. split; reflexivity. }
    set (cost := match dps with
                 | [] => 0
                 | dpNext :: _ => lineCost (pageWidth - (currlen + (w + spaceWidth))) dpNext
                 end).
    assert (Hshift : forall k, currlen + (w + spaceWidth) + sumZ (firstn (S k) ws)
                               + Z.of_nat (S k) * spaceWidth
                               = currlen + sumZ (firstn (S (S k)) (w :: ws))
                                 + Z.of_nat (S (S k)) * spaceWidth).
    { intros k. change (firstn (S (S k)) (w :: ws)) with (w :: firstn (S k) ws).
      rewrite sumZ_cons. lia. }
    destruct (Z.ltb_spec cost dpi) as [Hlt|Hge].
    + right.
      destruct (IH (tl dps) (S j) (currlen + (w + spaceWidth)) cost j)
        as [[E1 E2]|(Hlow & k & Hk & Ek & Hfit)].
      * rewrite E1, E2. split; [exact Hlt|]. exists 0%nat.
        split; [cbn; lia|]. split; [lia|].
        cbn [firstn]. rewrite sumZ_cons. change (sumZ []) with 0. lia.
      * split; [lia|]. exists (S k). split; [cbn [length]; lia|]. split; [lia|].
        rewrite <- Hshift. exact Hfit.
    + destruct (IH (tl dps) (S j) (currlen + (w + spaceWidth)) dpi ansi)
        as [[E1 E2]|(Hlow & k & Hk & Ek & Hfit)].
      * left. split; assumption.
      * right. split; [exact Hlow|]. exists (S k). split; [cbn [length]; lia|].
        split; [lia|]. rewrite <- Hshift. exact Hfit.
Qed.

(** The table from index [i] on starts with the entry of [i], followed
    by the table from [i + 1] on. *)
Lemma dpFill_cons i w ws :
  exists d a, table i (w :: ws)
              = (d :: fst (table (S i) ws), a :: snd (table (S i) ws)).
Proof.
  cbn [dpFill]. destruct ws as [|w2 ws'].
  - exists 0, i. reflexivity.
  - destruct (table (S i) (w2 :: ws')) as [dps anss].
    destruct (inner (w :: w2 :: ws') dps i (- spaceWidth) MAX_COST 0%nat) as [dpi ansi].
    destruct (dpi =? MAX_COST); eexists; eexists; reflexivity.
Qed.

Lemma dpFill_length i ws :
  length (fst (table i ws)) = length ws /\ length (snd (table i ws)) = length ws.
Proof.
  revert i. induction ws as [|w ws IH]; intros i; [split; reflexivity|].
  destruct (dpFill_cons i w ws) as (d & a & E). rewrite E. cbn [fst snd length].
  destruct (IH (S i)) as [-> ->]. split; reflexivity.
Qed.

Lemma dpFill_skipn b i ws :
  table (b + i) (skipn b ws)
  = (skipn b (fst (table i ws)), skipn b (snd (table i ws))).
Proof.
  revert i ws. induction b as [|b IH]; intros i ws.
  - cbn [skipn Nat.add]. destruct (table i ws); reflexivity.
  - destruct ws as [|w ws]; [reflexivity|].
    destruct (dpFill_cons i w ws) as (d & a & E). rewrite E. cbn [fst snd skipn].
    replace (S b + i)%nat with (b + S i)%nat by lia. apply IH.
Qed.

(** The line recorded for an index: where it ends and that it fits,
    unless it is the forced single-word line. *)
Lemma dpFill_ans i ws k :
  (k < length ws)%nat ->
  let a := nth k (snd (table i ws)) 0%nat in
  (i + k <= a)%nat /\ (a < i + length ws)%nat
  /\ (a = (i + k)%nat
      \/ lineWidthOf spaceWidth (slice k (S (a - i)) ws) <= pageWidth).
Proof.
  revert i k. induction ws as [|w ws IH]; intros i k Hk; [simpl in Hk; lia|].
  destruct k as [|k].
  - (* the entry of index [i] itself *)
    cbn [dpFill]. destruct ws as [|w2 ws'].
    { cbn. lia. }
    destruct (table (S i) (w2 :: ws')) as [dps anss].
    pose proof (dpInner_ans (w :: w2 :: ws') dps i (- spaceWidth) MAX_COST 0%nat) as Hin.
    destruct (inner (w :: w2 :: ws') dps i (- spaceWidth) MAX_COST 0%nat) as [dpi ansi].
    cbn [fst snd] in Hin. cbv zeta in Hin.
    destruct (Z.eqb_spec dpi MAX_COST) as [He|Hne]; cbn [snd nth].
    { split; [lia|]. split; [cbn [length]; lia|]. left. lia. }
    destruct Hin as [[E1 E2]|(Hlow & k & Hk2 & Ek & Hfit)]; [contradiction|].
    subst ansi. split; [lia|]. split; [lia|]. right.
    replace (S (i + k - i)) with (S k) by lia.
    unfold slice. rewrite Nat.sub_0_r. cbn [skipn].
    unfold lineWidthOf.
    assert (HL : length (firstn (S k) (w :: w2 :: ws')) = S k)
      by (rewrite length_firstn; lia).
    destruct (firstn (S k) (w :: w2 :: ws')) eqn:Ef; [discriminate|].
    rewrite HL. lia.
  - (* a later index *)
    destruct (dpFill_cons i w ws) as (d & a0 & E). rewrite E. cbn [snd nth].
    cbn [length] in Hk.
    destruct (IH (S i) k ltac:(lia)) as (H1 & H2 & H3). cbv zeta.
    split; [lia|]. split; [cbn [length]; lia|].
    destruct H3 as [H3|H3]; [left; lia|right].
    replace (S (nth k (snd (table (S i) ws)) 0%nat - i))
      with (S (S (nth k (snd (table (S i) ws)) 0%nat - S i))) by lia.
    exact H3.
Qed.

(** Renumbering: the table built from index [i + c] records the end
    indices of the table built from [i], moved by [c]. *)
Lemma dpInner_shift c ws dps j currlen dpi ansi ansi0 :
  let r := inner ws dps j currlen dpi ansi0 in
  let r' := inner ws dps (j + c) currlen dpi ansi in
  fst r' = fst r
  /\ ((fst r = dpi /\ snd r = ansi0 /\ snd r' = ansi)
      \/ (fst r < dpi /\ snd r' = (snd r + c)%nat)).
Proof.
  revert dps j currlen dpi ansi ansi0.
  induction ws as [|w ws IH]; intros dps j currlen dpi ansi ansi0; cbn [dpInner].
  - split; [reflexivity|]. left. repeat split.
  - destruct (Z.gtb_spec (currlen + (w + spaceWidth)) pageWidth) as [Hg|Hg].
    { split; [reflexivity|]. left. repeat split. }
    set (cost := match dps with
                 | [] => 0
                 | dpNext :: _ => lineCost (pageWidth - (currlen + (w + spaceWidth))) dpNext
                 end).
    destruct (Z.ltb_spec cost dpi) as [Hlt|Hge].
    + pose proof (IH (tl dps) (S j) (currlen + (w + spaceWidth)) cost (j + c)%nat j) as H.
      cbv zeta in H. change (S j + c)%nat with (S (j + c)) in H.
      destruct H as (E & [(E1 & E2 & E3)|(Hlow & E3)]).
      * split; [exact E|]. right. split; [lia|]. rewrite E3, E2. reflexivity.
      * split; [exact E|]. right. split; [lia|exact E3].
    + exact (IH (tl dps) (S j) (currlen + (w + spaceWidth)) dpi ansi ansi0).
Qed.

Lemma dpFill_unfold i w w2 ws :
  table i (w :: w2 :: ws)
  = (let '(dps, anss) := table (S i) (w2 :: ws) in
     let '(dpi, ansi) := inner (w :: w2 :: ws) dps i (- spaceWidth) MAX_COST 0%nat in
     if dpi =? MAX_COST then (hd 0 dps :: dps, i :: anss) else (dpi :: dps, ansi :: anss)).
Proof. reflexivity. Qed.

Lemma dpFill_shift c i ws :
  table (i + c) ws
  = (fst (table i ws), map (fun a => (a + c)%nat) (snd (table i ws))).
Proof.
  revert i. induction ws as [|w ws IH]; intros i; [reflexivity|].
  destruct ws as [|w2 ws']; [reflexivity|].
  rewrite !dpFill_unfold.
  specialize (IH (S i)). change (S i + c)%nat with (S (i + c)) in IH. rewrite IH.
  destruct (table (S i) (w2 :: ws')) as [dps anss]. cbn [fst snd].
  pose proof (dpInner_shift c (w :: w2 :: ws') dps i (- spaceWidth) MAX_COST 0%nat 0%nat)
    as Hs.
  destruct (inner (w :: w2 :: ws') dps i (- spaceWidth) MAX_COST 0%nat) as [d0 a0].
  destruct (inner (w :: w2 :: ws') dps (i + c) (- spaceWidth) MAX_COST 0%nat) as [d1 a1].
  cbn [fst snd] in Hs. cbv zeta in Hs. destruct Hs as (-> & Hs).
  destruct (Z.eqb_spec d0 MAX_COST) as [He|Hne]; cbn [fst snd map]; [reflexivity|].
  destruct Hs as [(E1 & _)|(_ & ->)]; [contradiction|reflexivity].
Qed.

End TableFacts.

(** * Reconstruction of the lines from the table *)

Lemma followBreaks_spec fuel ans total cur :
  (forall c, (c < total)%nat -> (c <= nth c ans 0%nat < total)%nat) ->
  (cur <= total)%nat -> (total - cur < fuel)%nat ->
  exists breaks,
    followBreaks fuel ans total cur = Some breaks
    /\ coverFrom cur breaks total /\ endsAt ans cur breaks
    /\ ((cur < total)%nat -> breaks <> []).
Proof.
  intros Hans. revert cur. induction fuel as [|fuel IH]; intros cur Hcur Hfuel; [lia|].
  cbn [followBreaks].
  destruct (Nat.ltb_spec cur total) as [Hlt|Hge].
  2:{ exists []. split; [reflexivity|]. split; [cbn; lia|]. split; [exact I|lia]. }
  specialize (Hans cur Hlt) as Ha.
  destruct (Nat.leb_spec (nth cur ans 0 + 1)%nat cur) as [Hg|Hg]; [lia|].
  destruct (IH (nth cur ans 0 + 1)%nat ltac:(lia) ltac:(lia)) as (rest & E & Hcov & Hends & _).
  rewrite E. exists ((nth cur ans 0 + 1)%nat :: rest). split; [reflexivity|].
  split; [cbn [coverFrom]; repeat split; [lia|lia|exact Hcov]|].
  split; [cbn [endsAt]; split; [lia|exact Hends]|congruence].
Qed.

Lemma lastLine_ends ans total start breaks :
  coverFrom start breaks total -> endsAt ans start breaks -> breaks <> [] ->
  (start <= lastLineStart start breaks)%nat
  /\ (lastLineStart start breaks < total)%nat
  /\ S (nth (lastLineStart start breaks) ans 0%nat) = total.
Proof.
  revert start. induction breaks as [|e rest IH]; intros start Hcov Hends Hne; [congruence|].
  cbn [coverFrom endsAt] in *. destruct Hcov as (H1 & H2 & Hcov). destruct Hends as (He & Hends).
  cbn [lastLineStart]. destruct rest as [|e2 rest'].
  - cbn [coverFrom] in Hcov. repeat split; lia.
  - destruct (IH e Hcov Hends ltac:(congruence)) as (G1 & G2 & G3).
    repeat split; [lia|exact G2|exact G3].
Qed.

Lemma lastLineStart_cover total start breaks :
  coverFrom start breaks total -> breaks <> [] ->
  (start <= lastLineStart start breaks)%nat /\ (lastLineStart start breaks < total)%nat.
Proof.
  revert start. induction breaks as [|e rest IH]; intros start Hcov Hne; [congruence|].
  cbn [coverFrom] in *. destruct Hcov as (H1 & H2 & Hcov).
  cbn [lastLineStart]. destruct rest as [|e2 rest'].
  - lia.
  - destruct (IH e Hcov ltac:(congruence)) as (G1 & G2). lia.
Qed.

(** The last line of [breaks] taken apart. *)
Lemma breaks_last_line total start breaks :
  coverFrom start breaks total -> breaks <> [] ->
  exists earlier, breaks = earlier ++ [total]
                  /\ forall d, last (start :: earlier) d = lastLineStart start breaks.
Proof.
  revert start. induction breaks as [|e rest IH]; intros start Hcov Hne; [congruence|].
  cbn [coverFrom] in Hcov. destruct Hcov as (H1 & H2 & Hcov).
  destruct rest as [|e2 rest'].
  - cbn [coverFrom] in Hcov. subst e. exists []. split; reflexivity.
  - destruct (IH e Hcov ltac:(congruence)) as (earlier & E & El).
    exists (e :: earlier). split; [rewrite E; reflexivity|].
    intros d. change (lastLineStart start (e :: e2 :: rest'))
      with (lastLineStart e (e2 :: rest')).
    rewrite <- (El d). reflexivity.
Qed.

(** * The two breakers, as the layout uses them *)

Lemma bufferOk_dropWords b pt ww :
  bufferOk pt ww -> bufferOk (dropWords b pt) (skipn b ww).
Proof.
  intros [Hal Hlen]. unfold bufferOk, aligned, dropWords in *.
  cbn [withWords words wordStyles]. rewrite !length_skipn. lia.
Qed.

Section BreakerFacts.

Variable renderer : GfxRenderer.
Variable fontId : Z.
Variable Hyphenator_breakOffsets : bytes -> bool -> list BreakInfo.
Variables pageWidth spaceWidth : Z.

Local Abbreviation hyphenate := (hyphenateWordAtIndex renderer fontId Hyphenator_breakOffsets).
Local Abbreviation cached := (cached renderer fontId).
Local Abbreviation realizedSplit := (realizedSplit renderer fontId Hyphenator_breakOffsets).
Local Abbreviation splits := (splits renderer fontId Hyphenator_breakOffsets).
Local Abbreviation unsplittable := (unsplittable renderer fontId Hyphenator_breakOffsets).
Local Abbreviation settled := (settled renderer fontId Hyphenator_breakOffsets pageWidth).
Local Abbreviation lineFits :=
  (lineFits renderer fontId Hyphenator_breakOffsets pageWidth spaceWidth).
Local Abbreviation linesFit :=
  (linesFit renderer fontId Hyphenator_breakOffsets pageWidth spaceWidth).
Local Abbreviation splitWhile := (splitWhileTooWide renderer fontId Hyphenator_breakOffsets).
Local Abbreviation prepass := (splitOversizedWords renderer fontId Hyphenator_breakOffsets).
Local Abbreviation body :=
  (lineBody renderer fontId Hyphenator_breakOffsets pageWidth spaceWidth).
Local Abbreviation fill := (fillLine renderer fontId Hyphenator_breakOffsets).
Local Abbreviation lines := (hyphenatedLines renderer fontId Hyphenator_breakOffsets).
Local Abbreviation dpBreaks := (computeLineBreaks renderer fontId Hyphenator_breakOffsets).
Local Abbreviation greedyBreaks :=
  (computeHyphenatedLineBreaks renderer fontId Hyphenator_breakOffsets).
Local Abbreviation breaker := (breakLines renderer fontId Hyphenator_breakOffsets).
Local Abbreviation breakPost :=
  (breakPost renderer fontId Hyphenator_breakOffsets pageWidth spaceWidth).

Lemma hyphenate_dropWords b k avail ww fb pt :
  fst (fst (hyphenate k avail (skipn b ww) fb (dropWords b pt)))
  = fst (fst (hyphenate (b + k) avail ww fb pt)).
Proof.
  apply hyphenate_ok_local; unfold dropWords; cbn [withWords words wordStyles].
  - apply nth_skipn.
  - apply nth_skipn.
  - rewrite length_skipn. lia.
Qed.

Lemma cached_dropWords b pt ww : cached pt ww -> cached (dropWords b pt) (skipn b ww).
Proof.
  unfold Voc.cached, dropWords. cbn [withWords words wordStyles]. intros ->.
  symmetry. apply widthsOf_skipn.
Qed.

Lemma settled_dropWords b k ww pt :
  settled ww pt (b + k) -> settled (skipn b ww) (dropWords b pt) k.
Proof.
  intros [Hfit|Hu].
  - left. rewrite nth_skipn. exact Hfit.
  - right. unfold Voc.unsplittable in *. rewrite hyphenate_dropWords. exact Hu.
Qed.

(** When every word is settled the pre-pass changes nothing. *)
Lemma prepass_unchanged fuel i ww pt :
  (forall k, (i <= k < length ww)%nat -> settled ww pt k) ->
  (length ww - i < fuel)%nat ->
  prepass fuel i pageWidth ww pt = Some (pt, ww).
Proof.
  revert i. induction fuel as [|fuel IH]; intros i Hall Hfuel; [lia|].
  cbn [splitOversizedWords].
  destruct (Nat.ltb_spec i (length ww)) as [Hlt|Hge]; [|reflexivity].
  assert (E : splitWhile 2 i pageWidth ww pt = Some (pt, ww)).
  { cbn [splitWhileTooWide].
    destruct (Z.gtb_spec (nth i ww 0) pageWidth) as [Hwide|Hfit]; [|reflexivity].
    destruct (Hall i ltac:(lia)) as [Hf|Hu]; [lia|].
    unfold Voc.unsplittable in Hu.
    destruct (hyphenate i pageWidth ww true pt) as [[ok pt'] ww'].
    cbn [fst] in Hu. subst ok. reflexivity. }
  rewrite E.
  apply IH; [intros k Hk; apply Hall; lia|lia].
Qed.

Lemma slice_single {A} (d : A) (i : nat) (l : list A) :
  (i < length l)%nat -> slice i (S i) l = [nth i l d].
Proof.
  intros Hi. rewrite (slice_snoc d) by lia. rewrite slice_empty. reflexivity.
Qed.

Lemma linesFit_of_table ww pt start breaks :
  coverFrom start breaks (length ww) ->
  endsAt (snd (dpFill pageWidth spaceWidth 0 ww)) start breaks ->
  (forall k, (k < length ww)%nat -> settled ww pt k) ->
  linesFit ww pt start breaks.
Proof.
  intros Hcov Hends Hset. revert start Hcov Hends.
  induction breaks as [|e rest IH]; intros start Hcov Hends; [exact I|].
  cbn [coverFrom endsAt Voc.linesFit] in *.
  destruct Hcov as (H1 & H2 & Hcov). destruct Hends as (He & Hends).
  split; [|apply IH; assumption].
  destruct (dpFill_ans pageWidth spaceWidth 0 ww start ltac:(lia)) as (G1 & G2 & G3).
  cbv zeta in G3. rewrite Nat.sub_0_r in G3. rewrite <- He in G3.
  destruct G3 as [G3|G3]; [|left; exact G3].
  assert (Ee : e = S start) by (cbn [Nat.add] in G3; lia).
  destruct (Hset start ltac:(lia)) as [Hf|Hu].
  - left. rewrite Ee, (slice_single 0) by lia.
    unfold lineWidthOf. cbn [length]. rewrite sumZ_cons. change (sumZ []) with 0. lia.
  - right. split; assumption.
Qed.

Lemma isEmpty_words_dropWords b pt :
  (b < length (words pt))%nat -> isEmpty (words (dropWords b pt)) = false.
Proof.
  intros Hb. unfold dropWords. cbn [withWords words].
  destruct (skipn b (words pt)) eqn:E; [|reflexivity].
  pose proof (f_equal (@length bytes) E) as HL. rewrite length_skipn in HL.
  cbn [length] in HL. lia.
Qed.

Lemma computeLineBreaks_spec pt ww :
  bufferOk pt ww -> words pt <> [] ->
  exists ptf wwf breaks,
    dpBreaks pageWidth spaceWidth ww pt = Some (ptf, wwf, breaks)
    /\ breakPost dpBreaks pt ww ptf wwf breaks.
Proof.
  intros Hok Hne. unfold computeLineBreaks at 1.
  destruct (words pt) as [|w0 wsrest] eqn:Ew; [congruence|]. cbn [isEmpty].
  destruct (splitOversizedWords_spec renderer fontId Hyphenator_breakOffsets pageWidth
              (bufferFuel pt) 0 ww pt Hok ltac:(lia))
    as (ptf & wwf & Ep & Hokf & Hsp & _ & _ & _ & Hall & Hca & Hgrow).
  { unfold bufferFuel, scanMeasure. cbn [skipn]. lia. }
  rewrite Ep.
  assert (Hwf : length wwf = length (words ptf)) by apply Hokf.
  assert (Hw0 : length ww = length (words pt)) by apply Hok.
  assert (Hpos : (0 < length wwf)%nat) by (rewrite Ew in Hw0; cbn [length] in Hw0; lia).
  destruct (dpFill pageWidth spaceWidth 0 wwf) as [dps ans] eqn:Et.
  assert (Hans : forall c, (c < length (words ptf))%nat ->
                           (c <= nth c ans 0 < length (words ptf))%nat).
  { intros c Hc.
    destruct (dpFill_ans pageWidth spaceWidth 0 wwf c ltac:(lia)) as (G1 & G2 & _).
    rewrite Et in G1, G2. cbn [snd] in G1, G2. lia. }
  destruct (followBreaks_spec (S (length (words ptf))) ans (length (words ptf)) 0 Hans
              ltac:(lia) ltac:(lia)) as (breaks & Ef & Hcov & Hends & Hnonempty).
  rewrite Ef. exists ptf, wwf, breaks. split; [reflexivity|].
  rewrite <- Hwf in *. specialize (Hnonempty Hpos).
  split; [exact Hokf|]. split; [exact Hcov|]. split; [exact Hnonempty|].
  split.
  { apply linesFit_of_table; [exact Hcov|rewrite Et; exact Hends|].
    intros k Hk. apply Hall. lia. }
  split; [exact Hsp|]. split; [exact Hca|].
  (* breaking the last line again *)
  cbv zeta.
  destruct (lastLine_ends ans (length wwf) 0 breaks Hcov Hends Hnonempty) as (_ & Hb & Hlast).
  set (b := lastLineStart 0 breaks) in *.
  unfold computeLineBreaks.
  rewrite (isEmpty_words_dropWords b ptf) by lia.
  rewrite prepass_unchanged.
  2:{ intros k Hk. apply settled_dropWords. apply Hall. rewrite length_skipn in Hk. lia. }
  2:{ unfold bufferFuel, dropWords. cbn [withWords words].
      rewrite !length_skipn. lia. }
  pose proof (dpFill_skipn pageWidth spaceWidth b 0 wwf) as E1.
  pose proof (dpFill_shift pageWidth spaceWidth b 0 (skipn b wwf)) as E2.
  rewrite Nat.add_0_r in E1. cbn [Nat.add] in E2. rewrite E1, Et in E2. cbn [fst snd] in E2.
  destruct (dpFill pageWidth spaceWidth 0 (skipn b wwf)) as [dps2 ans2] eqn:Et2.
  cbn [fst snd] in E2. injection E2 as _ E2.
  assert (Hn0 : nth 0 ans2 0%nat = (length wwf - 1 - b)%nat).
  { pose proof (f_equal (fun l => nth 0 l 0%nat) E2) as E3. cbv beta in E3.
    rewrite nth_skipn, Nat.add_0_r in E3.
    assert (Hl2 : (0 < length ans2)%nat).
    { pose proof (proj2 (dpFill_length pageWidth spaceWidth 0 (skipn b wwf))) as HL.
      rewrite Et2 in HL. cbn [snd] in HL. rewrite HL, length_skipn. lia. }
    destruct ans2 as [|a0 ans2']; [cbn in Hl2; lia|].
    cbn [map nth] in E3. cbn [nth]. lia. }
  assert (HN : length (words (dropWords b ptf)) = (length wwf - b)%nat).
  { unfold dropWords. cbn [withWords words]. rewrite length_skipn. lia. }
  rewrite HN.
  replace (S (length wwf - b)) with (S (S (length wwf - b - 1))) by lia.
  cbn [followBreaks].
  destruct (Nat.ltb_spec 0 (length wwf - b)) as [_|Hx]; [|lia].
  rewrite Hn0.
  destruct (Nat.leb_spec (length wwf - 1 - b + 1) 0) as [Hx|_]; [lia|].
  destruct (Nat.ltb_spec (length wwf - 1 - b + 1) (length wwf - b)) as [Hx|_]; [lia|].
  replace (length wwf - 1 - b + 1)%nat with (length wwf - b)%nat by lia. reflexivity.
Qed.

Lemma fillLine_more_fuel fuel fuel' lineStart cur lineWidth ww pt r :
  fill fuel pageWidth spaceWidth lineStart cur lineWidth ww pt = Some r ->
  (fuel <= fuel')%nat ->
  fill fuel' pageWidth spaceWidth lineStart cur lineWidth ww pt = Some r.
Proof.
  revert fuel' cur lineWidth.
  induction fuel as [|fuel IH]; intros fuel' cur lineWidth E Hle; [discriminate|].
  destruct fuel' as [|fuel']; [lia|]. cbn [fillLine] in *.
  destruct (cur <? length ww)%nat; [|exact E].
  destruct (body lineStart cur lineWidth ww pt) as [c l|p w c]; [|exact E].
  apply IH; [exact E|lia].
Qed.

(** A run of the inner loop that splits nothing does the same on the
    buffer without its first [b] words. *)
Lemma fillLine_dropWords fuel b lineStart cur lineWidth ww pt e :
  bufferOk pt ww ->
  fill fuel pageWidth spaceWidth (b + lineStart) (b + cur) lineWidth ww pt = Some (pt, ww, e) ->
  fill fuel pageWidth spaceWidth lineStart cur lineWidth (skipn b ww) (dropWords b pt)
  = Some (dropWords b pt, skipn b ww, (e - b)%nat).
Proof.
  intros Hok. revert cur lineWidth.
  induction fuel as [|fuel IH]; intros cur lineWidth E; [discriminate|].
  cbn [fillLine] in *. rewrite length_skipn.
  destruct (Nat.ltb_spec (b + cur) (length ww)) as [Hlt|Hge];
    destruct (Nat.ltb_spec cur (length ww - b)) as [Hlt'|Hge']; try lia.
  2:{ injection E as <-. do 2 f_equal. lia. }
  assert (Heq : (b + cur =? b + lineStart)%nat = (cur =? lineStart)%nat).
  { destruct (Nat.eqb_spec (b + cur) (b + lineStart)), (Nat.eqb_spec cur lineStart);
      try reflexivity; lia. }
  pose proof (lineBody_cases renderer fontId Hyphenator_breakOffsets pageWidth spaceWidth
                (b + lineStart) (b + cur) lineWidth ww pt) as Horig.
  pose proof (lineBody_cases renderer fontId Hyphenator_breakOffsets pageWidth spaceWidth
                lineStart cur lineWidth (skipn b ww) (dropWords b pt)) as Hdrop.
  cbv zeta in Horig, Hdrop. rewrite Heq in Horig. rewrite nth_skipn in Hdrop.
  destruct Horig as [[Hf Eb]|[(Hov & pt' & ww' & Eh & Eb)|(Hov & Eh & Eb)]];
    rewrite Eb in E.
  - destruct Hdrop as [[_ Ed]|[(Hov' & _)|(Hov' & _)]]; try lia.
    rewrite Ed. apply IH. replace (b + S cur)%nat with (S (b + cur)) by lia. exact E.
  - injection E as -> -> _.
    pose proof (hyphenate_true_aligned renderer fontId Hyphenator_breakOffsets
                  _ _ _ _ _ _ _ (proj1 Hok) (proj2 Hok) Eh) as (_ & Hx & Hy).
    destruct Hok as [_ Hl]. lia.
  - injection E as <-.
    destruct Hdrop as [[Hf' _]|[(_ & pt' & ww' & Eh' & _)|(_ & _ & Ed)]]; try lia.
    + pose proof (hyphenate_dropWords b cur
                    (pageWidth - lineWidth - (if (cur =? lineStart)%nat then 0 else spaceWidth))
                    ww (cur =? lineStart)%nat pt) as Hloc.
      rewrite Eh', Eh in Hloc. discriminate.
    + rewrite Ed. do 2 f_equal. destruct (cur =? lineStart)%nat; lia.
Qed.

Lemma computeHyphenatedLineBreaks_spec pt ww :
  bufferOk pt ww -> words pt <> [] ->
  exists ptf wwf breaks,
    greedyBreaks pageWidth spaceWidth ww pt = Some (ptf, wwf, breaks)
    /\ breakPost greedyBreaks pt ww ptf wwf breaks.
Proof.
  intros Hok Hne. unfold computeHyphenatedLineBreaks at 1.
  assert (Hw0 : length ww = length (words pt)) by apply Hok.
  assert (Hpos : (0 < length ww)%nat)
    by (destruct (words pt); [congruence|cbn [length] in Hw0; lia]).
  destruct (hyphenatedLines_spec renderer fontId Hyphenator_breakOffsets pageWidth spaceWidth
              (bufferFuel pt) 0 ww pt Hok ltac:(lia))
    as (ptf & wwf & breaks & El & Hokf & Hcov & Hfits & Hsp & _ & _ & _ & Hca & Hrep & Hnon).
  { unfold bufferFuel, scanMeasure. cbn [skipn]. lia. }
  exists ptf, wwf, breaks. split; [exact El|].
  specialize (Hnon Hpos). specialize (Hrep Hnon).
  split; [exact Hokf|]. split; [exact Hcov|]. split; [exact Hnon|].
  split; [exact Hfits|]. split; [exact Hsp|]. split; [exact Hca|].
  cbv zeta.
  destruct (lastLineStart_cover (length wwf) 0 breaks Hcov Hnon) as (_ & Hb).
  set (b := lastLineStart 0 breaks) in *.
  assert (Hwf : length wwf = length (words ptf)) by apply Hokf.
  (* the inner loop on the words of the last line *)
  pose proof (bufferOk_dropWords b ptf wwf Hokf) as Hokd.
  assert (Ed : fill (S (length (skipn b wwf))) pageWidth spaceWidth 0 0 0
                    (skipn b wwf) (dropWords b ptf)
               = Some (dropWords b ptf, skipn b wwf, (length wwf - b)%nat)).
  { destruct (fillLine_spec renderer fontId Hyphenator_breakOffsets pageWidth spaceWidth
                (S (length (skipn b wwf))) 0 0 0 (skipn b wwf) (dropWords b ptf) Hokd
                (le_n _) ltac:(lia) ltac:(lia))
      as (p1 & w1 & c1 & E1 & _).
    { rewrite slice_empty. reflexivity. }
    { lia. }
    rewrite E1. rewrite <- (Nat.add_0_r b) in Hrep at 1 2.
    apply (fillLine_dropWords _ b 0 0 0 wwf ptf _ Hokf) in Hrep.
    apply (fillLine_more_fuel _ (S (length wwf))) in E1;
      [|rewrite length_skipn; lia].
    rewrite Hrep in E1. symmetry. exact E1. }
  unfold computeHyphenatedLineBreaks, bufferFuel.
  assert (Hfuel : exists f, (length (words (dropWords b ptf))
                             + length (concat (words (dropWords b ptf))))%nat = S f).
  { unfold dropWords. cbn [withWords words]. rewrite length_skipn.
    exists (length (words ptf) - b - 1
            + length (concat (skipn b (words ptf))))%nat. lia. }
  destruct Hfuel as (f & ->).
  cbn [hyphenatedLines]. rewrite length_skipn.
  destruct (Nat.ltb_spec 0 (length wwf - b)) as [_|Hx]; [|lia].
  rewrite length_skipn in Ed. rewrite Ed.
  cbn [hyphenatedLines]. rewrite length_skipn.
  destruct (Nat.ltb_spec (length wwf - b) (length wwf - b)) as [Hx|_]; [lia|].
  reflexivity.
Qed.

Lemma splits_flags n s s' :
  splits n s s' ->
  style (fst s') = style (fst s)
  /\ extraParagraphSpacing (fst s') = extraParagraphSpacing (fst s)
  /\ hyphenationEnabled (fst s') = hyphenationEnabled (fst s).
Proof.
  induction 1 as [s|n s s1 s2 Hstep Hrest IH]; [repeat split|].
  destruct IH as (I1 & I2 & I3). inversion Hstep; subst. cbn [fst] in *.
  repeat split; congruence.
Qed.

Lemma breakLines_spec pt ww :
  bufferOk pt ww -> words pt <> [] ->
  exists ptf wwf breaks,
    breaker pageWidth spaceWidth ww pt = Some (ptf, wwf, breaks)
    /\ breakPost breaker pt ww ptf wwf breaks.
Proof.
  intros Hok Hne. unfold breakLines at 1.
  destruct (hyphenationEnabled pt) eqn:Eh.
  - destruct (computeHyphenatedLineBreaks_spec pt ww Hok Hne)
      as (ptf & wwf & breaks & E & H1 & H2 & H3 & H4 & (n & H5) & H6 & H7).
    exists ptf, wwf, breaks. split; [exact E|].
    repeat (split; [first [assumption | exists n; exact H5]|]).
    cbv zeta in *. unfold breakLines.
    destruct (splits_flags _ _ _ H5) as (_ & _ & Hf). cbn [fst] in Hf.
    unfold dropWords at 1. cbn [withWords hyphenationEnabled]. rewrite Hf, Eh. exact H7.
  - destruct (computeLineBreaks_spec pt ww Hok Hne)
      as (ptf & wwf & breaks & E & H1 & H2 & H3 & H4 & (n & H5) & H6 & H7).
    exists ptf, wwf, breaks. split; [exact E|].
    repeat (split; [first [assumption | exists n; exact H5]|]).
    cbv zeta in *. unfold breakLines.
    destruct (splits_flags _ _ _ H5) as (_ & _ & Hf). cbn [fst] in Hf.
    unfold dropWords at 1. cbn [withWords hyphenationEnabled]. rewrite Hf, Eh. exact H7.
Qed.

Lemma breakLines_nonempty pt ww ptf wwf breaks :
  bufferOk pt ww -> words pt <> [] ->
  breaker pageWidth spaceWidth ww pt = Some (ptf, wwf, breaks) -> breaks <> [].
Proof.
  intros Hok Hne E.
  destruct (breakLines_spec pt ww Hok Hne) as (p & w & b & E' & _ & _ & Hnon & _).
  rewrite E' in E. injection E as _ _ <-. exact Hnon.
Qed.

End BreakerFacts.

(** * Line extraction and the layout as a whole *)

Lemma dropWords_dropWords a b pt :
  dropWords a (dropWords b pt) = dropWords (a + b) pt.
Proof.
  unfold dropWords. cbn [withWords words wordStyles style extraParagraphSpacing
                         hyphenationEnabled].
  rewrite !skipn_skipn. reflexivity.
Qed.

Lemma dropWords_0 pt : dropWords 0 pt = pt.
Proof. destruct pt. reflexivity. Qed.

Lemma slice_skipn {A} (b first last : nat) (l : list A) :
  slice first last (skipn b l) = slice (b + first) (b + last) l.
Proof.
  unfold slice. rewrite skipn_skipn.
  replace (b + last - (b + first))%nat with (last - first)%nat by lia.
  replace (first + b)%nat with (b + first)%nat by lia. reflexivity.
Qed.

Lemma extractLine_eq breakIndex pageWidth spaceWidth ww breaks pt :
  let lineBreak := nth breakIndex breaks 0%nat in
  let lastBreakAt := if (0 <? breakIndex)%nat then nth (breakIndex - 1) breaks 0%nat else 0%nat in
  extractLine breakIndex pageWidth spaceWidth ww breaks pt
  = (dropWords (lineBreak - lastBreakAt) pt,
     makeBlock (style pt) (breakIndex =? length breaks - 1)%nat (lineBreak - lastBreakAt)
               pageWidth spaceWidth (slice lastBreakAt lineBreak ww)
               (firstn (lineBreak - lastBreakAt) (words pt))
               (firstn (lineBreak - lastBreakAt) (wordStyles pt))).
Proof. reflexivity. Qed.

(** Extracting [count] lines in a row, the buffer standing at [start]. *)
Lemma extractLines_blocks pageWidth spaceWidth ww ptb total count :
  forall done todo start pt,
    coverFrom start todo total ->
    (count <= length todo)%nat ->
    (forall d, last (0%nat :: done) d = start) ->
    pt = dropWords start ptb ->
    extractLines count (length done) pageWidth spaceWidth ww (done ++ todo) pt
    = (dropWords (reached count start todo) ptb,
       blocksOf (style ptb) pageWidth spaceWidth ww (words ptb) (wordStyles ptb)
                count start todo).
Proof.
  induction count as [|count IH]; intros done todo start pt Hcov Hcount Hlast Hpt.
  - cbn [extractLines reached blocksOf]. rewrite Hpt. reflexivity.
  - destruct todo as [|e rest]; [cbn [length] in Hcount; lia|].
    cbn [extractLines]. rewrite extractLine_eq. cbv zeta.
    cbn [coverFrom] in Hcov. destruct Hcov as (H1 & H2 & Hcov).
    assert (Hlb : nth (length done) (done ++ e :: rest) 0%nat = e) by apply nth_middle'.
    assert (Hprev : (if (0 <? length done)%nat
                     then nth (length done - 1) (done ++ e :: rest) 0%nat else 0%nat) = start).
    { clear Hlb IH. induction done as [|d0 done' _] using rev_ind.
      - cbn. exact (Hlast 0%nat).
      - rewrite length_app. cbn [length].
        destruct (Nat.ltb_spec 0 (length done' + 1)) as [_|Hx]; [|lia].
        replace (length done' + 1 - 1)%nat with (length done') by lia.
        rewrite <- app_assoc. cbn [app]. rewrite nth_middle'.
        specialize (Hlast 0%nat). rewrite app_comm_cons, last_last in Hlast. exact Hlast. }
    rewrite Hlb, Hprev.
    assert (Hisl : (length done =? length (done ++ e :: rest) - 1)%nat = isEmpty rest).
    { rewrite length_app. cbn [length]. destruct rest; cbn [isEmpty length].
      - apply Nat.eqb_eq. lia.
      - apply Nat.eqb_neq. lia. }
    rewrite Hisl.
    specialize (IH (done ++ [e]) rest e (dropWords (e - start) pt) Hcov).
    rewrite length_app in IH. cbn [length] in IH.
    replace (length done + 1)%nat with (S (length done)) in IH by lia.
    rewrite <- app_assoc in IH. cbn [app] in IH.
    rewrite IH.
    + cbn [reached blocksOf]. rewrite Hpt. reflexivity.
    + cbn [length] in Hcount. lia.
    + intros d. rewrite app_comm_cons, last_last. reflexivity.
    + rewrite Hpt, dropWords_dropWords. f_equal. lia.
Qed.

Lemma reached_all start breaks total :
  coverFrom start breaks total -> reached (length breaks) start breaks = total.
Proof.
  revert start. induction breaks as [|e rest IH]; intros start Hcov; cbn [coverFrom] in Hcov.
  - exact Hcov.
  - cbn [length reached]. apply IH. apply Hcov.
Qed.

Lemma reached_butlast start breaks :
  reached (length breaks - 1) start breaks = lastLineStart start breaks.
Proof.
  revert start. induction breaks as [|e rest IH]; intros start; [reflexivity|].
  cbn [length lastLineStart]. destruct rest as [|e2 rest']; [reflexivity|].
  specialize (IH e). cbn [length] in *.
  replace (S (S (length rest')) - 1)%nat with (S (S (length rest') - 1)) by lia.
  cbn [reached]. exact IH.
Qed.

(** All the blocks are the blocks but the last, and the last one. *)
Lemma blocksOf_last st pageWidth spaceWidth ww ws sts start breaks total :
  coverFrom start breaks total -> breaks <> [] ->
  blocksOf st pageWidth spaceWidth ww ws sts (length breaks) start breaks
  = blocksOf st pageWidth spaceWidth ww ws sts (length breaks - 1) start breaks
    ++ [makeBlock st true (total - lastLineStart start breaks) pageWidth spaceWidth
                  (slice (lastLineStart start breaks) total ww)
                  (slice (lastLineStart start breaks) total ws)
                  (slice (lastLineStart start breaks) total sts)].
Proof.
  revert start. induction breaks as [|e rest IH]; intros start Hcov Hne; [congruence|].
  cbn [coverFrom] in Hcov. destruct Hcov as (H1 & H2 & Hcov).
  destruct rest as [|e2 rest'].
  - cbn [coverFrom] in Hcov. subst e. reflexivity.
  - specialize (IH e Hcov ltac:(congruence)).
    change (lastLineStart start (e :: e2 :: rest')) with (lastLineStart e (e2 :: rest')).
    cbn [length] in *.
    replace (S (S (length rest')) - 1)%nat with (S (S (length rest') - 1)) by lia.
    cbn [blocksOf] in *. cbn [app]. f_equal. exact IH.
Qed.

Lemma applyParagraphIndent_shape pt :
  aligned (applyParagraphIndent pt) <-> aligned pt.
Proof.
  destruct pt as [ws sts st eps hy]. unfold applyParagraphIndent, aligned.
  cbn [words wordStyles style extraParagraphSpacing].
  destruct (eps || isEmpty ws); [reflexivity|].
  destruct (BlockStyle_eqb st JUSTIFIED || BlockStyle_eqb st LEFT_ALIGN); [|reflexivity].
  destruct ws; cbn; reflexivity.
Qed.

Lemma applyParagraphIndent_length pt :
  length (words (applyParagraphIndent pt)) = length (words pt)
  /\ wordStyles (applyParagraphIndent pt) = wordStyles pt
  /\ style (applyParagraphIndent pt) = style pt
  /\ hyphenationEnabled (applyParagraphIndent pt) = hyphenationEnabled pt
  /\ extraParagraphSpacing (applyParagraphIndent pt) = extraParagraphSpacing pt.
Proof.
  destruct pt as [ws sts st eps hy]. unfold applyParagraphIndent.
  cbn [words wordStyles style extraParagraphSpacing].
  destruct (eps || isEmpty ws); [repeat split|].
  destruct (BlockStyle_eqb st JUSTIFIED || BlockStyle_eqb st LEFT_ALIGN); [|repeat split].
  destruct ws; cbn; repeat split.
Qed.

Lemma feed_words pt inputs :
  words (feed pt inputs) = words pt ++ map fst (filter nonEmptyInput inputs)
  /\ wordStyles (feed pt inputs) = wordStyles pt ++ map snd (filter nonEmptyInput inputs)
  /\ style (feed pt inputs) = style pt
  /\ extraParagraphSpacing (feed pt inputs) = extraParagraphSpacing pt
  /\ hyphenationEnabled (feed pt inputs) = hyphenationEnabled pt.
Proof.
  revert pt. induction inputs as [|[w s] inputs IH]; intros pt.
  - cbn. rewrite !app_nil_r. repeat split.
  - change (feed pt ((w, s) :: inputs)) with (feed (addWord pt w s) inputs).
    destruct (IH (addWord pt w s)) as (I1 & I2 & I3 & I4 & I5).
    rewrite I1, I2, I3, I4, I5. unfold addWord, nonEmptyInput. cbn [filter fst snd].
    destruct w as [|b w']; cbn [isEmpty negb withWords words wordStyles style
                                extraParagraphSpacing hyphenationEnabled map].
    + repeat split.
    + rewrite <- !app_assoc. repeat split.
Qed.

Section LayoutFacts.

Variable renderer : GfxRenderer.
Variable fontId : Z.
Variable Hyphenator_breakOffsets : bytes -> bool -> list BreakInfo.

Local Abbreviation cached := (cached renderer fontId).
Local Abbreviation splits := (splits renderer fontId Hyphenator_breakOffsets).
Local Abbreviation breaker := (breakLines renderer fontId Hyphenator_breakOffsets).
Local Abbreviation layout := (layoutAndExtractLines renderer fontId Hyphenator_breakOffsets).
Local Abbreviation widths := (calculateWordWidths renderer fontId).
Local Abbreviation spaceOf := (getSpaceWidth renderer fontId).
Local Abbreviation breakPost := (breakPost renderer fontId Hyphenator_breakOffsets).

Lemma calculateWordWidths_ok pt :
  aligned pt -> bufferOk pt (widths pt) /\ cached pt (widths pt).
Proof.
  intros Hal. split; [split; [exact Hal|]|reflexivity].
  unfold calculateWordWidths. apply widthsOf_length.
Qed.

(** The layout in one piece: the indent, the measured widths, the breaks
    and the blocks made from them. *)
Lemma layout_plan pt viewportWidth :
  aligned pt -> words pt <> [] ->
  let pt1 := applyParagraphIndent pt in
  exists ptb wwb breaks,
    breaker viewportWidth spaceOf (widths pt1) pt1 = Some (ptb, wwb, breaks)
    /\ breakPost viewportWidth spaceOf breaker pt1 (widths pt1) ptb wwb breaks
    /\ cached ptb wwb
    /\ forall includeLastLine,
         layout pt viewportWidth includeLastLine
         = Some (dropWords (if includeLastLine then length wwb
                            else lastLineStart 0 breaks) ptb,
                 blocksOf (style ptb) viewportWidth spaceOf wwb (words ptb) (wordStyles ptb)
                          (if includeLastLine then length breaks
                           else (length breaks - 1)%nat) 0 breaks).
Proof.
  intros Hal Hne pt1.
  assert (Hal1 : aligned pt1) by (apply applyParagraphIndent_shape; exact Hal).
  assert (Hne1 : words pt1 <> []).
  { pose proof (applyParagraphIndent_length pt) as (HL & _). fold pt1 in HL.
    destruct (words pt1); [destruct (words pt); [congruence|discriminate]|congruence]. }
  destruct (calculateWordWidths_ok pt1 Hal1) as [Hok1 Hca1].
  destruct (breakLines_spec renderer fontId Hyphenator_breakOffsets viewportWidth spaceOf
              pt1 (widths pt1) Hok1 Hne1) as (ptb & wwb & breaks & Eb & Hpost).
  exists ptb, wwb, breaks. split; [exact Eb|]. split; [exact Hpost|].
  destruct Hpost as (Hokb & Hcov & Hnon & Hfits & Hsp & Hca & Hrep).
  split; [exact (Hca Hca1)|].
  intros includeLastLine. unfold layoutAndExtractLines.
  destruct (words pt) as [|w0 wr] eqn:Ew; [congruence|]. cbn [isEmpty].
  fold pt1. rewrite Eb.
  pose proof (extractLines_blocks viewportWidth spaceOf wwb ptb (length wwb)
                (if includeLastLine then length breaks else (length breaks - 1)%nat)
                [] breaks 0%nat ptb Hcov) as Hx.
  cbn [app length] in Hx. rewrite Hx.
  - destruct includeLastLine.
    + rewrite (reached_all 0 breaks (length wwb) Hcov). reflexivity.
    + rewrite reached_butlast. reflexivity.
  - destruct includeLastLine; lia.
  - intros d. reflexivity.
  - symmetry. apply dropWords_0.
Qed.

End LayoutFacts.

Lemma firstn_plus {A} (n k : nat) (l : list A) :
  firstn (n + k) l = firstn n l ++ firstn k (skipn n l).
Proof.
  revert l. induction n as [|n IH]; intros l; [reflexivity|].
  destruct l as [|x l]; [cbn; now rewrite firstn_nil|].
  cbn [Nat.add firstn skipn app]. f_equal. apply IH.
Qed.

Lemma slice_app {A} (a b c : nat) (l : list A) :
  (a <= b)%nat -> (b <= c)%nat -> slice a b l ++ slice b c l = slice a c l.
Proof.
  intros Hab Hbc. unfold slice.
  replace (c - a)%nat with ((b - a) + (c - b))%nat by lia.
  rewrite firstn_plus, skipn_skipn. replace (b - a + a)%nat with b by lia. reflexivity.
Qed.

Lemma slice_from_0 {A} (n : nat) (l : list A) : slice 0 n l = firstn n l.
Proof. unfold slice. rewrite Nat.sub_0_r. reflexivity. Qed.

Lemma reached_bounds count start breaks total :
  coverFrom start breaks total ->
  (start <= reached count start breaks)%nat /\ (reached count start breaks <= total)%nat.
Proof.
  revert start breaks. induction count as [|count IH]; intros start breaks Hcov.
  - cbn [reached]. pose proof (coverFrom_le _ _ _ Hcov). lia.
  - destruct breaks as [|e rest]; cbn [reached].
    + pose proof (coverFrom_le _ _ _ Hcov). lia.
    + cbn [coverFrom] in Hcov. destruct Hcov as (H1 & H2 & Hcov).
      destruct (IH e rest Hcov). lia.
Qed.

(** The words and styles of the blocks are the buffer, in order. *)
Lemma blocksOf_content st pageWidth spaceWidth ww ws sts count start breaks total :
  coverFrom start breaks total ->
  concat (map tb_words (blocksOf st pageWidth spaceWidth ww ws sts count start breaks))
  = map stripIfSoftHyphen (slice start (reached count start breaks) ws)
  /\ concat (map tb_wordStyles (blocksOf st pageWidth spaceWidth ww ws sts count start breaks))
     = slice start (reached count start breaks) sts.
Proof.
  revert start breaks. induction count as [|count IH]; intros start breaks Hcov.
  - cbn [blocksOf reached map concat]. rewrite !slice_empty. split; reflexivity.
  - destruct breaks as [|e rest].
    + cbn [blocksOf reached map concat]. rewrite !slice_empty. split; reflexivity.
    + cbn [coverFrom] in Hcov. destruct Hcov as (H1 & H2 & Hcov).
      cbn [blocksOf reached map concat]. destruct (IH e rest Hcov) as [I1 I2].
      rewrite I1, I2. unfold makeBlock. cbn [tb_words tb_wordStyles].
      pose proof (reached_bounds count e rest total Hcov) as [Hr1 Hr2].
      rewrite <- map_app, !slice_app by lia. split; reflexivity.
Qed.

Section LayoutTheorems.

Variable renderer : GfxRenderer.
Variable fontId : Z.
Variable Hyphenator_breakOffsets : bytes -> bool -> list BreakInfo.

Local Abbreviation cached := (cached renderer fontId).
Local Abbreviation splits := (splits renderer fontId Hyphenator_breakOffsets).
Local Abbreviation breaker := (breakLines renderer fontId Hyphenator_breakOffsets).
Local Abbreviation layout := (layoutAndExtractLines renderer fontId Hyphenator_breakOffsets).
Local Abbreviation widths := (calculateWordWidths renderer fontId).
Local Abbreviation spaceOf := (getSpaceWidth renderer fontId).
Local Abbreviation unsplittable := (unsplittable renderer fontId Hyphenator_breakOffsets).
Local Abbreviation lineFits := (lineFits renderer fontId Hyphenator_breakOffsets).
Local Abbreviation linesFit := (linesFit renderer fontId Hyphenator_breakOffsets).

(** C3.  Whatever words are fed with [addWord], the layout returns; the
    buffer it breaks is the fed non-empty words (the first one indented)
    after [n] realized splits, each of which replaces one word, where it
    stands, by its two parts; the emitted words and styles are the first
    [k] words and styles of that buffer, in order, and the buffer that is
    left holds the others.  With [includeLastLine = true] all of them are
    emitted: their number is the number of non-empty words fed plus [n]. *)
Theorem word_count_conservation
    (inputs : list (bytes * FontStyle)) (st : BlockStyle) (spacing hyphenation : bool)
    (viewportWidth : Z) (includeLastLine : bool) :
  let pt0 := feed (emptyParagraph st spacing hyphenation) inputs in
  let pt1 := applyParagraphIndent pt0 in
  exists ptf blocks n ptb wwb k,
    layout pt0 viewportWidth includeLastLine = Some (ptf, blocks)
    /\ words pt0 = map fst (filter nonEmptyInput inputs)
    /\ length (words pt1) = length (words pt0)
    /\ splits n (pt1, widths pt1) (ptb, wwb)
    /\ length (words ptb) = (length (filter nonEmptyInput inputs) + n)%nat
    /\ concat (map tb_words blocks) = map stripIfSoftHyphen (firstn k (words ptb))
    /\ concat (map tb_wordStyles blocks) = firstn k (wordStyles ptb)
    /\ words ptf = skipn k (words ptb)
    /\ wordStyles ptf = skipn k (wordStyles ptb)
    /\ (includeLastLine = true ->
        k = length (words ptb) /\ words ptf = [] /\ wordStyles ptf = []
        /\ length (concat (map tb_words blocks))
           = (length (filter nonEmptyInput inputs) + n)%nat).
Proof.
  intros pt0 pt1.
  destruct (feed_words (emptyParagraph st spacing hyphenation) inputs)
    as (Hw & Hs & _). fold pt0 in Hw, Hs. cbn [emptyParagraph words wordStyles app] in Hw, Hs.
  assert (Hal : aligned pt0) by (unfold aligned; rewrite Hw, Hs, !length_map; reflexivity).
  pose proof (applyParagraphIndent_length pt0) as (HL & _). fold pt1 in HL.
  destruct (words pt0) as [|w0 wr] eqn:Ew.
  - (* nothing was fed *)
    exists pt0, [], 0%nat, pt1, (widths pt1), 0%nat.
    assert (E1 : pt1 = pt0).
    { unfold pt1, applyParagraphIndent. rewrite Ew. cbn [isEmpty]. rewrite orb_true_r.
      reflexivity. }
    assert (Hf : length (filter nonEmptyInput inputs) = 0%nat).
    { pose proof (f_equal (@length bytes) Hw) as Hx. rewrite length_map in Hx.
      cbn [length] in Hx. lia. }
    assert (Hs0 : wordStyles pt0 = []).
    { unfold aligned in Hal. rewrite Ew in Hal. cbn [length] in Hal.
      destruct (wordStyles pt0); [reflexivity|discriminate]. }
    split; [unfold layoutAndExtractLines; rewrite Ew; reflexivity|].
    split; [exact Hw|]. split; [exact HL|]. split; [constructor|].
    rewrite E1, Ew, Hs0, Hf. cbn [length firstn skipn map concat Nat.add].
    do 5 (split; [reflexivity|]). intros _. repeat split.
  - assert (Hne : words pt0 <> []) by (rewrite Ew; congruence).
    destruct (layout_plan renderer fontId Hyphenator_breakOffsets pt0 viewportWidth Hal Hne)
      as (ptb & wwb & breaks & Eb & Hpost & Hcab & Hlay).
    fold pt1 in Eb, Hpost.
    destruct Hpost as (Hokb & Hcov & Hnon & Hfits & (n & Hsp) & _ & _).
    assert (Hok1 : bufferOk pt1 (widths pt1)).
    { apply calculateWordWidths_ok. apply applyParagraphIndent_shape. exact Hal. }
    destruct (splits_grow renderer fontId Hyphenator_breakOffsets _ _ _ Hsp Hok1)
      as (_ & Hgrow). cbn [fst] in Hgrow.
    assert (Hwb : length wwb = length (words ptb)) by apply Hokb.
    assert (Hsb : length (wordStyles ptb) = length (words ptb)) by apply Hokb.
    set (count := if includeLastLine then length breaks else (length breaks - 1)%nat).
    exists (dropWords (if includeLastLine then length wwb else lastLineStart 0 breaks) ptb),
      (blocksOf (style ptb) viewportWidth spaceOf wwb (words ptb) (wordStyles ptb)
                count 0 breaks),
      n, ptb, wwb, (reached count 0 breaks).
    assert (Hreach : reached count 0 breaks
                     = if includeLastLine then length wwb else lastLineStart 0 breaks).
    { unfold count. destruct includeLastLine;
        [apply reached_all; exact Hcov|apply reached_butlast]. }
    destruct (blocksOf_content (style ptb) viewportWidth spaceOf wwb (words ptb)
                (wordStyles ptb) count 0 breaks (length wwb) Hcov) as [Hc1 Hc2].
    rewrite slice_from_0 in Hc1. rewrite slice_from_0 in Hc2.
    split; [apply Hlay|]. split; [exact Hw|]. split; [exact HL|].
    split; [exact Hsp|].
    assert (Hcount : length (words ptb) = (length (filter nonEmptyInput inputs) + n)%nat).
    { rewrite Hgrow, HL, Hw, length_map. reflexivity. }
    split; [exact Hcount|]. split; [exact Hc1|]. split; [exact Hc2|].
    rewrite <- Hreach. split; [reflexivity|]. split; [reflexivity|].
    intros ->. rewrite Hreach in *. split; [exact Hwb|].
    cbn [dropWords withWords words wordStyles].
    split; [apply skipn_all2; lia|]. split; [apply skipn_all2; lia|].
    rewrite Hc1, length_map, firstn_all2 by lia. exact Hcount.
Qed.

Lemma linesFit_nth pageWidth spaceWidth ww pt start breaks i :
  linesFit pageWidth spaceWidth ww pt start breaks ->
  (i < length breaks)%nat ->
  lineFits pageWidth spaceWidth ww pt
           (nth i (start :: breaks) 0%nat) (nth i breaks 0%nat).
Proof.
  revert start i. induction breaks as [|e rest IH]; intros start i Hfit Hi;
    [cbn [length] in Hi; lia|].
  cbn [Voc.linesFit] in Hfit. destruct Hfit as [H1 H2].
  destruct i as [|i]; [exact H1|].
  cbn [nth]. apply (IH e i H2). cbn [length] in Hi. lia.
Qed.

(** C4.  With either breaker, the layout returns and every line it cuts
    (the line of index [i] holds the words [first .. last-1] of the buffer
    after the splits, and the [i]-th emitted block is made of them) has a
    content width (cached word widths plus one space between neighbours)
    of at most the viewport width, unless it holds a single word that
    [hyphenateWordAtIndex] cannot split to fit the viewport even with
    fallback breaks. *)
Theorem line_fit_bound (pt : ParsedText) (viewportWidth : Z) (includeLastLine : bool) :
  aligned pt -> words pt <> [] ->
  exists ptf ptb wwb breaks,
    layout pt viewportWidth includeLastLine
    = Some (ptf, blocksOf (style ptb) viewportWidth spaceOf wwb (words ptb) (wordStyles ptb)
                          (if includeLastLine then length breaks
                           else (length breaks - 1)%nat) 0 breaks)
    /\ breaker viewportWidth spaceOf (widths (applyParagraphIndent pt))
               (applyParagraphIndent pt) = Some (ptb, wwb, breaks)
    /\ coverFrom 0 breaks (length (words ptb))
    /\ cached ptb wwb
    /\ forall i, (i < length breaks)%nat ->
         let first := nth i (0%nat :: breaks) 0%nat in
         let last := nth i breaks 0%nat in
         lineWidthOf spaceOf (slice first last wwb) <= viewportWidth
         \/ (last = S first /\ unsplittable viewportWidth wwb ptb first).
Proof.
  intros Hal Hne.
  destruct (layout_plan renderer fontId Hyphenator_breakOffsets pt viewportWidth Hal Hne)
    as (ptb & wwb & breaks & Eb & Hpost & Hcab & Hlay).
  destruct Hpost as (Hokb & Hcov & Hnon & Hfits & _).
  eexists. exists ptb, wwb, breaks.
  split; [apply Hlay|]. split; [exact Eb|].
  split; [rewrite <- (proj2 Hokb); exact Hcov|]. split; [exact Hcab|].
  intros i Hi. exact (linesFit_nth _ _ _ _ _ _ i Hfits Hi).
Qed.

Lemma applyParagraphIndent_none pt :
  extraParagraphSpacing pt = true
  \/ (style pt <> JUSTIFIED /\ style pt <> LEFT_ALIGN) ->
  applyParagraphIndent pt = pt.
Proof.
  unfold applyParagraphIndent. intros [->|[H1 H2]]; [reflexivity|].
  destruct (extraParagraphSpacing pt || isEmpty (words pt)); [reflexivity|].
  destruct (style pt); try congruence; reflexivity.
Qed.

(** X22.  When the paragraph indent does not apply (extra paragraph
    spacing is configured, or the paragraph is right-aligned or centred),
    a layout without the last line followed by a layout of the buffer
    that is left emits, together, exactly the lines of one full layout;
    the second call emits one block, equal to the last block of the full
    layout in its words, x offsets, styles and alignment. *)
Theorem round_trip_without_indent (pt : ParsedText) (viewportWidth : Z) :
  aligned pt -> words pt <> [] ->
  extraParagraphSpacing pt = true \/ (style pt <> JUSTIFIED /\ style pt <> LEFT_ALIGN) ->
  exists pt1 earlier pt2 final,
    layout pt viewportWidth false = Some (pt1, earlier)
    /\ layout pt1 viewportWidth true = Some (pt2, [final])
    /\ layout pt viewportWidth true = Some (pt2, earlier ++ [final])
    /\ words pt2 = [].
Proof.
  intros Hal Hne Hnoindent.
  destruct (layout_plan renderer fontId Hyphenator_breakOffsets pt viewportWidth Hal Hne)
    as (ptb & wwb & breaks & Eb & Hpost & Hcab & Hlay).
  rewrite (applyParagraphIndent_none pt Hnoindent) in Eb, Hpost.
  destruct Hpost as (Hokb & Hcov & Hnon & Hfits & (n & Hsp) & _ & Hrep).
  cbv zeta in Hrep.
  destruct (lastLineStart_cover (length wwb) 0 breaks Hcov Hnon) as (_ & Hb).
  set (b := lastLineStart 0 breaks) in *.
  assert (Hwb : length wwb = length (words ptb)) by apply Hokb.
  assert (Hsb : length (wordStyles ptb) = length (words ptb)) by apply Hokb.
  destruct (splits_flags renderer fontId Hyphenator_breakOffsets _ _ _ Hsp)
    as (Hst & Heps & _). cbn [fst] in Hst, Heps.
  set (final := makeBlock (style ptb) true (length wwb - b) viewportWidth spaceOf
                          (slice b (length wwb) wwb) (slice b (length wwb) (words ptb))
                          (slice b (length wwb) (wordStyles ptb))).
  exists (dropWords b ptb),
    (blocksOf (style ptb) viewportWidth spaceOf wwb (words ptb) (wordStyles ptb)
              (length breaks - 1) 0 breaks),
    (dropWords (length wwb) ptb), final.
  split; [exact (Hlay false)|]. split; [|split].
  - (* the second call, on the words of the last line *)
    unfold layoutAndExtractLines.
    rewrite (isEmpty_words_dropWords b ptb) by lia.
    rewrite applyParagraphIndent_none.
    2:{ unfold dropWords. cbn [withWords extraParagraphSpacing style].
        rewrite Hst, Heps. exact Hnoindent. }
    assert (Hw : widths (dropWords b ptb) = skipn b wwb).
    { symmetry. exact (cached_dropWords renderer fontId b ptb wwb Hcab). }
    rewrite Hw, Hrep. cbn [length extractLines]. rewrite extractLine_eq. cbv zeta.
    cbn [Nat.ltb Nat.leb nth length Nat.sub Nat.eqb].
    rewrite Nat.sub_0_r, dropWords_dropWords.
    replace (length wwb - b + b)%nat with (length wwb) by lia.
    f_equal. f_equal. f_equal. unfold final, slice, dropWords.
    cbn [withWords words wordStyles style skipn]. rewrite Nat.sub_0_r. reflexivity.
  - rewrite (Hlay true). f_equal. f_equal.
    exact (blocksOf_last _ _ _ _ _ _ 0 breaks (length wwb) Hcov Hnon).
  - unfold dropWords. cbn [withWords words]. apply skipn_all2. lia.
Qed.

End LayoutTheorems.

(** * Spacing of the words of a line *)

Lemma sumZ_repeat (x : Z) (n : nat) : sumZ (repeat x n) = Z.of_nat n * x.
Proof.
  induction n as [|n IH]; [reflexivity|].
  cbn [repeat]. rewrite sumZ_cons, IH. lia.
Qed.

Lemma sumZ_nonneg (l : list Z) : Forall (fun w => 0 <= w) l -> 0 <= sumZ l.
Proof.
  induction 1 as [|x l Hx Hl IH]; [change (sumZ []) with 0; lia|].
  rewrite sumZ_cons. lia.
Qed.

Lemma gapsOf_cons2 (w w2 x x2 : Z) (l xs : list Z) :
  gapsOf (w :: w2 :: l) (x :: x2 :: xs) = (x2 - x - w) :: gapsOf (w2 :: l) (x2 :: xs).
Proof. reflexivity. Qed.

Lemma lineXPositions_cons (spacing xpos w : Z) (l : list Z) :
  lineXPositions spacing xpos (w :: l)
  = xpos :: lineXPositions spacing (to_uint16 (xpos + (w + spacing))) l.
Proof. reflexivity. Qed.

(** As long as the line stays below 65536 pixels the x offsets do not wrap
    and every gap is the spacing. *)
Lemma lineXPositions_gaps (spacing : Z) (l : list Z) (xpos : Z) :
  Forall (fun w => 0 <= w) l -> 0 <= spacing -> 0 <= xpos ->
  xpos + sumZ l + (Z.of_nat (length l) - 1) * spacing < 65536 ->
  gapsOf l (lineXPositions spacing xpos l) = repeat spacing (length l - 1).
Proof.
  intros Hl Hs. revert xpos. induction Hl as [|w l Hw Hl IH]; intros xpos Hx Hb; [reflexivity|].
  destruct l as [|w2 l']; [reflexivity|].
  pose proof (sumZ_nonneg (w2 :: l') Hl) as Hsum.
  rewrite sumZ_cons in Hb. cbn [length] in Hb.
  assert (Hnext : to_uint16 (xpos + (w + spacing)) = xpos + (w + spacing)).
  { apply to_uint16_small. nia. }
  rewrite lineXPositions_cons, Hnext.
  rewrite (lineXPositions_cons spacing (xpos + (w + spacing)) w2 l'), gapsOf_cons2.
  rewrite <- lineXPositions_cons.
  rewrite IH; [|lia|cbn [length]; nia].
  cbn [length]. replace (S (S (length l')) - 1)%nat with (S (S (length l') - 1)) by lia.
  cbn [repeat]. f_equal. lia.
Qed.

Lemma to_size_t_small (z : Z) : 0 <= z < 4294967296 -> to_size_t z = z.
Proof. intros H. unfold to_size_t. apply Z.mod_small. exact H. Qed.

Lemma BlockStyle_eqb_eq a b : BlockStyle_eqb a b = true <-> a = b.
Proof. destruct a, b; cbn; split; congruence. Qed.

Section SpacingFacts.

Variable renderer : GfxRenderer.
Variable fontId : Z.

Local Abbreviation widthsOf := (calculateWordWidthsFrom renderer fontId).
Local Abbreviation drawnFrom := (drawnWidthsFrom renderer fontId).
Local Abbreviation drawn := (drawnWidths renderer fontId).

Lemma drawnWidths_stripped ws sts :
  drawnFrom (map stripIfSoftHyphen ws) sts = widthsOf ws sts.
Proof.
  revert sts. induction ws as [|w ws IH]; intros sts; [reflexivity|].
  cbn [map drawnWidthsFrom calculateWordWidthsFrom]. rewrite IH. f_equal.
  rewrite measureWordWidth_stripped, app_nil_r, stripIfSoftHyphen_strip. reflexivity.
Qed.

Lemma widthsOf_nonneg ws sts : Forall (fun w => 0 <= w) (widthsOf ws sts).
Proof.
  revert sts. induction ws as [|w ws IH]; intros sts; cbn [calculateWordWidthsFrom];
    constructor; [apply measureWordWidth_range|apply IH].
Qed.

Lemma widthsOf_firstn n ws sts :
  widthsOf (firstn n ws) (firstn n sts) = firstn n (widthsOf ws sts).
Proof.
  revert ws sts. induction n as [|n IH]; intros ws sts; [reflexivity|].
  destruct ws as [|w ws]; [reflexivity|].
  destruct sts as [|s sts]; cbn [firstn calculateWordWidthsFrom hd tl].
  - f_equal. rewrite <- IH. destruct n; reflexivity.
  - f_equal. apply IH.
Qed.

Lemma widthsOf_slice a b ws sts :
  widthsOf (slice a b ws) (slice a b sts) = slice a b (widthsOf ws sts).
Proof. unfold slice. rewrite widthsOf_firstn, widthsOf_skipn. reflexivity. Qed.

(** The spacing of one block, from the widths of its line. *)
Lemma makeBlock_gaps st isLastLine pageWidth spaceWidth ws sts :
  0 <= pageWidth <= 65535 -> 0 < spaceWidth ->
  let l := widthsOf ws sts in
  let block := makeBlock st isLastLine (length ws) pageWidth spaceWidth l ws sts in
  (lineWidthOf spaceWidth l <= pageWidth \/ length ws = 1%nat) ->
  drawn block = l
  /\ (if BlockStyle_eqb st JUSTIFIED && negb isLastLine && (2 <=? length ws)%nat
      then justifiedGaps renderer fontId pageWidth block
      else plainGaps renderer fontId spaceWidth block).
Proof.
  intros Hpw Hsw l block Hfit.
  assert (Hd : drawn block = l) by apply drawnWidths_stripped.
  split; [exact Hd|].
  pose proof (widthsOf_nonneg ws sts) as Hnn. fold l in Hnn.
  pose proof (widthsOf_length renderer fontId ws sts) as Hlen. fold l in Hlen.
  pose proof (sumZ_nonneg l Hnn) as Hsum.
  assert (Hxs : tb_wordXpos block
                = lineXPositions
                    (lineSpacing st isLastLine (length ws) (pageWidth - sumZ l) spaceWidth)
                    (lineStartX st (length ws) (pageWidth - sumZ l) spaceWidth) l)
    by reflexivity.
  destruct (Nat.leb_spec 2 (length ws)) as [H2|H1].
  2:{ (* at most one word: no gap at all *)
      rewrite andb_false_r. unfold Voc.plainGaps. rewrite Hd, Hxs.
      destruct l as [|w [|w2 l']]; cbn [length] in Hlen; try lia; reflexivity. }
  destruct Hfit as [Hfit|Hone]; [|lia].
  assert (Hlw : sumZ l + (Z.of_nat (length l) - 1) * spaceWidth <= pageWidth).
  { unfold lineWidthOf in Hfit. destruct l; [cbn [length] in Hlen; lia|exact Hfit]. }
  rewrite andb_true_r.
  destruct (BlockStyle_eqb st JUSTIFIED && negb isLastLine) eqn:Ej.
  - (* justified, not the last line *)
    apply andb_true_iff in Ej. destruct Ej as [Ej El].
    apply BlockStyle_eqb_eq in Ej. subst st.
    apply negb_true_iff in El. subst isLastLine.
    unfold Voc.justifiedGaps. rewrite Hd, Hxs. cbv zeta.
    set (gapCount := Z.of_nat (length l) - 1).
    set (leftover := pageWidth - sumZ l).
    assert (Hgc : 0 < gapCount) by (unfold gapCount; lia).
    assert (Hlo : 0 <= leftover) by (unfold leftover, gapCount in *; nia).
    assert (Hsp : lineSpacing JUSTIFIED false (length ws) leftover spaceWidth
                  = leftover / gapCount).
    { unfold lineSpacing. cbn [BlockStyle_eqb negb andb].
      destruct (Nat.leb_spec 2 (length ws)) as [_|Hx]; [|lia].
      rewrite (to_size_t_small leftover) by (unfold leftover; lia).
      rewrite <- Hlen. fold gapCount.
      rewrite (to_size_t_small gapCount) by (unfold gapCount in *; nia).
      apply to_int_small.
      pose proof (Z.div_pos leftover gapCount Hlo Hgc).
      pose proof (Z.div_le_upper_bound leftover gapCount leftover Hgc ltac:(nia)).
      unfold leftover in *. lia. }
    rewrite Hsp. cbn [lineStartX].
    pose proof (Z.div_mod leftover gapCount ltac:(lia)) as Hdm.
    pose proof (Z.mod_pos_bound leftover gapCount Hgc) as Hmod.
    pose proof (Z.div_pos leftover gapCount Hlo Hgc) as Hq.
    assert (Hg : gapsOf l (lineXPositions (leftover / gapCount) 0 l)
                 = repeat (leftover / gapCount) (length l - 1)).
    { apply lineXPositions_gaps; [exact Hnn|exact Hq|lia|].
      fold gapCount. unfold leftover in *. nia. }
    rewrite Hg, sumZ_repeat.
    split; [reflexivity|]. split; [|exact Hmod].
    replace (Z.of_nat (length l - 1)) with gapCount by (unfold gapCount; lia).
    unfold leftover in *. nia.
  - (* any other line: the base space width *)
    unfold Voc.plainGaps. rewrite Hd, Hxs.
    assert (Hsp : lineSpacing st isLastLine (length ws) (pageWidth - sumZ l) spaceWidth
                  = spaceWidth).
    { unfold lineSpacing. rewrite Ej. reflexivity. }
    rewrite Hsp.
    set (reserved := pageWidth - sumZ l - (Z.of_nat (length l) - 1) * spaceWidth).
    assert (Hres : 0 <= reserved <= 65535) by (unfold reserved; nia).
    assert (Hrs : to_size_t (pageWidth - sumZ l
                             - to_size_t (Z.of_nat (length ws) - 1) * spaceWidth)
                  = reserved).
    { unfold to_size_t. rewrite <- Hlen.
      rewrite Zminus_mod, Zmult_mod_idemp_l, <- Zminus_mod.
      apply Z.mod_small. unfold reserved in *. lia. }
    apply lineXPositions_gaps; [exact Hnn|lia| |].
    + unfold lineStartX. rewrite Hrs.
      destruct st; try lia; [|apply to_uint16_range].
      apply to_uint16_range.
    + unfold lineStartX. rewrite Hrs.
      assert (Hhalf : 0 <= reserved / 2 <= reserved).
      { split; [apply Z.div_pos; lia|].
        apply Z.div_le_upper_bound; lia. }
      destruct st; rewrite ?to_uint16_small by lia; unfold reserved in *; lia.
Qed.

End SpacingFacts.

Section SpacingTheorem.

Variable renderer : GfxRenderer.
Variable fontId : Z.
Variable Hyphenator_breakOffsets : bytes -> bool -> list BreakInfo.

Local Abbreviation cached := (cached renderer fontId).
Local Abbreviation layout := (layoutAndExtractLines renderer fontId Hyphenator_breakOffsets).
Local Abbreviation spaceOf := (getSpaceWidth renderer fontId).
Local Abbreviation lineFits := (lineFits renderer fontId Hyphenator_breakOffsets).
Local Abbreviation linesFit := (linesFit renderer fontId Hyphenator_breakOffsets).
Local Abbreviation widthsOf := (calculateWordWidthsFrom renderer fontId).

(** The block of a line that fits, cut out of a buffer with cached widths. *)
Lemma line_block_gaps pt ww pageWidth spaceWidth first last isLastLine :
  bufferOk pt ww -> cached pt ww ->
  0 <= pageWidth <= 65535 -> 0 < spaceWidth ->
  (first < last)%nat -> (last <= length ww)%nat ->
  lineFits pageWidth spaceWidth ww pt first last ->
  let block := makeBlock (style pt) isLastLine (last - first) pageWidth spaceWidth
                         (slice first last ww) (slice first last (words pt))
                         (slice first last (wordStyles pt)) in
  if isLastLine then plainGaps renderer fontId spaceWidth block
  else nonFinalGaps renderer fontId pageWidth spaceWidth block.
Proof.
  intros [Hal Hlen] Hca Hpw Hsw Hfl Hl Hfit block.
  set (wsl := slice first last (words pt)).
  set (stsl := slice first last (wordStyles pt)).
  assert (Hwl : length wsl = (last - first)%nat)
    by (apply slice_length_lt; lia).
  assert (Hsl : slice first last ww = widthsOf wsl stsl).
  { unfold wsl, stsl. rewrite widthsOf_slice. unfold Voc.cached in Hca. rewrite <- Hca.
    reflexivity. }
  pose proof (makeBlock_gaps renderer fontId (style pt) isLastLine pageWidth spaceWidth
                wsl stsl Hpw Hsw) as Hg.
  cbv zeta in Hg. rewrite <- Hsl, Hwl in Hg. fold block in Hg.
  destruct Hg as [_ Hg].
  { destruct Hfit as [Hf|[He _]]; [left; exact Hf|right; lia]. }
  unfold Voc.nonFinalGaps.
  replace (length (tb_words block)) with (last - first)%nat
    by (unfold block, makeBlock; cbn [tb_words]; rewrite length_map; fold wsl; lia).
  change (tb_style block) with (style pt).
  destruct isLastLine.
  - rewrite andb_false_r in Hg. exact Hg.
  - rewrite andb_true_r in Hg. exact Hg.
Qed.

Lemma blocksOf_nonfinal pt ww pageWidth spaceWidth count start breaks :
  bufferOk pt ww -> cached pt ww ->
  0 <= pageWidth <= 65535 -> 0 < spaceWidth ->
  coverFrom start breaks (length ww) ->
  linesFit pageWidth spaceWidth ww pt start breaks ->
  (count < length breaks)%nat ->
  Forall (nonFinalGaps renderer fontId pageWidth spaceWidth)
         (blocksOf (style pt) pageWidth spaceWidth ww (words pt) (wordStyles pt)
                   count start breaks).
Proof.
  intros Hok Hca Hpw Hsw. revert start breaks.
  induction count as [|count IH]; intros start breaks Hcov Hfits Hc; [constructor|].
  destruct breaks as [|e rest]; [constructor|].
  cbn [coverFrom Voc.linesFit length] in *.
  destruct Hcov as (H1 & H2 & Hcov). destruct Hfits as [Hf Hfits].
  cbn [blocksOf]. constructor; [|apply IH; [assumption|assumption|lia]].
  destruct rest as [|e2 rest']; [cbn [length] in Hc; lia|]. cbn [isEmpty].
  exact (line_block_gaps pt ww pageWidth spaceWidth start e false Hok Hca Hpw Hsw H1 H2 Hf).
Qed.

Lemma linesFit_last pageWidth spaceWidth ww pt start breaks total :
  coverFrom start breaks total -> breaks <> [] ->
  linesFit pageWidth spaceWidth ww pt start breaks ->
  lineFits pageWidth spaceWidth ww pt (lastLineStart start breaks) total.
Proof.
  revert start. induction breaks as [|e rest IH]; intros start Hcov Hne Hfits; [congruence|].
  cbn [coverFrom Voc.linesFit] in *.
  destruct Hcov as (H1 & H2 & Hcov). destruct Hfits as [Hf Hfits].
  destruct rest as [|e2 rest'].
  - cbn [coverFrom] in Hcov. subst e. exact Hf.
  - change (lastLineStart start (e :: e2 :: rest')) with (lastLineStart e (e2 :: rest')).
    apply IH; [exact Hcov|congruence|exact Hfits].
Qed.

(** C2, as it holds.  In a viewport of at most 65535 pixels and with a
    positive space width, every emitted line that is not the last one of
    the paragraph and is justified with at least two words has equal gaps
    of [leftover / (words - 1)] pixels, so that its words and gaps add up to
    the viewport width minus [leftover mod (words - 1)]; every other line
    that is not the last, and the last line, have gaps of the base space
    width. *)
Theorem justification_gaps (pt : ParsedText) (viewportWidth : Z) :
  aligned pt -> words pt <> [] ->
  0 <= viewportWidth <= 65535 -> 0 < spaceOf ->
  exists ptf ptf' earlier final,
    layout pt viewportWidth true = Some (ptf, earlier ++ [final])
    /\ layout pt viewportWidth false = Some (ptf', earlier)
    /\ Forall (nonFinalGaps renderer fontId viewportWidth spaceOf) earlier
    /\ plainGaps renderer fontId spaceOf final.
Proof.
  intros Hal Hne Hvw Hsw.
  destruct (layout_plan renderer fontId Hyphenator_breakOffsets pt viewportWidth Hal Hne)
    as (ptb & wwb & breaks & Eb & Hpost & Hcab & Hlay).
  destruct Hpost as (Hokb & Hcov & Hnon & Hfits & _).
  destruct (lastLineStart_cover (length wwb) 0 breaks Hcov Hnon) as (_ & Hb).
  eexists. eexists. eexists. eexists.
  split; [|split; [|split]].
  - rewrite (Hlay true).
    rewrite (blocksOf_last _ _ _ _ _ _ 0 breaks (length wwb) Hcov Hnon). reflexivity.
  - exact (Hlay false).
  - apply blocksOf_nonfinal; try assumption.
    destruct breaks; [congruence|cbn [length]; lia].
  - exact (line_block_gaps ptb wwb viewportWidth spaceOf (lastLineStart 0 breaks)
             (length wwb) true Hokb Hcab Hvw Hsw Hb (le_n _)
             (linesFit_last _ _ _ _ _ _ _ Hcov Hnon Hfits)).
Qed.

End SpacingTheorem.

(** * Soft hyphens never reach an emitted line *)

Lemma containsSoftHyphen_cons2 (a b : byte) (t : bytes) :
  containsSoftHyphen (a :: b :: t) = isSoftHyphenPair a b || containsSoftHyphen (b :: t).
Proof. reflexivity. Qed.

Lemma hasDoubleLead_cons2 (a b : byte) (t : bytes) :
  hasDoubleLead (a :: b :: t)
  = (Byte.eqb a xc2 && Byte.eqb b xc2) || hasDoubleLead (b :: t).
Proof. reflexivity. Qed.

Lemma hasDoubleLead_tail (a : byte) (t : bytes) :
  hasDoubleLead (a :: t) = false -> hasDoubleLead t = false.
Proof.
  destruct t as [|b t]; [reflexivity|]. rewrite hasDoubleLead_cons2.
  intros H. apply orb_false_iff in H. apply H.
Qed.

Lemma strip_head (b : byte) (t : bytes) :
  Byte.eqb b xc2 = false ->
  stripSoftHyphensInPlace (b :: t) = b :: stripSoftHyphensInPlace t.
Proof.
  intros Hb. destruct t as [|c t]; [reflexivity|].
  rewrite strip_cons2. unfold isSoftHyphenPair. rewrite Hb. reflexivity.
Qed.

Lemma strip_clean (word : bytes) :
  hasDoubleLead word = false ->
  containsSoftHyphen (stripSoftHyphensInPlace word) = false.
Proof.
  assert (G : forall n (w : bytes), (length w <= n)%nat -> hasDoubleLead w = false ->
              containsSoftHyphen (stripSoftHyphensInPlace w) = false).
  { induction n as [|n IH]; intros w Hn Hw.
    - destruct w; [reflexivity|cbn [length] in Hn; lia].
    - destruct w as [|a [|b t]]; [reflexivity|reflexivity|].
      rewrite hasDoubleLead_cons2 in Hw. apply orb_false_iff in Hw. destruct Hw as [Hab Hbt].
      cbn [length] in Hn. rewrite strip_cons2.
      destruct (isSoftHyphenPair a b) eqn:Ep.
      + apply IH; [lia|]. apply hasDoubleLead_tail with (a := b). exact Hbt.
      + pose proof (IH (b :: t) ltac:(cbn [length]; lia) Hbt) as Hr.
        destruct (Byte.eqb a xc2) eqn:Ea.
        * (* after a kept 0xC2 comes a byte that is neither 0xC2 nor 0xAD *)
          cbn [andb] in Hab. unfold isSoftHyphenPair in Ep. rewrite Ea in Ep. cbn [andb] in Ep.
          rewrite strip_head in * by exact Hab.
          rewrite containsSoftHyphen_cons2, Hr. unfold isSoftHyphenPair.
          rewrite Ea, Ep. reflexivity.
        * destruct (stripSoftHyphensInPlace (b :: t)) as [|c r]; [reflexivity|].
          rewrite containsSoftHyphen_cons2, Hr. unfold isSoftHyphenPair.
          rewrite Ea. reflexivity. }
  apply (G (length word)). lia.
Qed.

Lemma hasDoubleLead_skipn (n : nat) (word : bytes) :
  hasDoubleLead word = false -> hasDoubleLead (skipn n word) = false.
Proof.
  revert word. induction n as [|n IH]; intros word H; [exact H|].
  destruct word as [|a t]; [reflexivity|]. cbn [skipn]. apply IH.
  apply hasDoubleLead_tail with (a := a). exact H.
Qed.

Lemma hasDoubleLead_firstn (n : nat) (word : bytes) :
  hasDoubleLead word = false -> hasDoubleLead (firstn n word) = false.
Proof.
  revert word. induction n as [|n IH]; intros word H; [reflexivity|].
  destruct word as [|a [|b t]]; [reflexivity|destruct n; reflexivity|].
  rewrite hasDoubleLead_cons2 in H. apply orb_false_iff in H. destruct H as [Hab Hbt].
  specialize (IH (b :: t) Hbt).
  destruct n as [|n]; [reflexivity|].
  change (firstn (S (S n)) (a :: b :: t)) with (a :: b :: firstn n t).
  change (firstn (S n) (b :: t)) with (b :: firstn n t) in IH.
  rewrite hasDoubleLead_cons2, Hab, IH. reflexivity.
Qed.

Lemma hasDoubleLead_app_hyphen (word : bytes) :
  hasDoubleLead word = false -> hasDoubleLead (word ++ [hyphenChar]) = false.
Proof.
  induction word as [|a t IH]; intros H; [reflexivity|].
  destruct t as [|b t'].
  - cbn [app]. rewrite hasDoubleLead_cons2. rewrite andb_comm. reflexivity.
  - rewrite hasDoubleLead_cons2 in H. apply orb_false_iff in H. destruct H as [Hab Hbt].
    change ((a :: b :: t') ++ [hyphenChar]) with (a :: b :: (t' ++ [hyphenChar])).
    rewrite hasDoubleLead_cons2, Hab.
    change (b :: t' ++ [hyphenChar]) with ((b :: t') ++ [hyphenChar]).
    rewrite IH by exact Hbt. reflexivity.
Qed.

Lemma hasDoubleLead_emSpace (word : bytes) :
  hasDoubleLead word = false -> hasDoubleLead (emSpace ++ word) = false.
Proof.
  intros H. unfold emSpace. cbn [app]. rewrite !hasDoubleLead_cons2.
  cbn [Byte.eqb andb orb]. destruct word as [|a t]; [reflexivity|].
  rewrite hasDoubleLead_cons2. cbn [Byte.eqb andb orb]. exact H.
Qed.

Lemma In_firstn {A} (x : A) (n : nat) (l : list A) : In x (firstn n l) -> In x l.
Proof. intros H. rewrite <- (firstn_skipn n l). apply in_or_app. now left. Qed.

Lemma In_skipn {A} (x : A) (n : nat) (l : list A) : In x (skipn n l) -> In x l.
Proof. intros H. rewrite <- (firstn_skipn n l). apply in_or_app. now right. Qed.

Lemma applyParagraphIndent_clean pt :
  cleanWords (words pt) -> cleanWords (words (applyParagraphIndent pt)).
Proof.
  destruct pt as [ws sts st eps hy]. unfold applyParagraphIndent, cleanWords.
  cbn [words wordStyles style extraParagraphSpacing].
  destruct (eps || isEmpty ws); [auto|].
  destruct (BlockStyle_eqb st JUSTIFIED || BlockStyle_eqb st LEFT_ALIGN); [|auto].
  destruct ws as [|w ws]; [auto|]. cbn [withWords words]. intros H.
  inversion H; subst. constructor; [apply hasDoubleLead_emSpace|]; assumption.
Qed.

Section CleanFacts.

Variable renderer : GfxRenderer.
Variable fontId : Z.
Variable Hyphenator_breakOffsets : bytes -> bool -> list BreakInfo.

Local Abbreviation splits := (splits renderer fontId Hyphenator_breakOffsets).
Local Abbreviation layout := (layoutAndExtractLines renderer fontId Hyphenator_breakOffsets).

Lemma splits_clean n s s' :
  splits n s s' -> cleanWords (words (fst s)) -> cleanWords (words (fst s')).
Proof.
  induction 1 as [s|n s s1 s2 Hstep Hrest IH]; [auto|].
  intros Hc. apply IH. inversion Hstep; subst. cbn [fst] in *.
  unfold cleanWords in *.
  match goal with
  | Hw : words pt = _, Hw' : words pt' = _ |- _ => rewrite Hw' ; rewrite Hw in Hc
  end.
  apply Forall_app in Hc. destruct Hc as [Hb Hc]. inversion Hc; subst.
  apply Forall_app. split; [assumption|].
  constructor; [|constructor; [apply hasDoubleLead_skipn|]; assumption].
  match goal with
  | |- hasDoubleLead (_ ++ (if ?b then _ else _)) = false => destruct b
  end.
  - apply hasDoubleLead_app_hyphen, hasDoubleLead_firstn. assumption.
  - rewrite app_nil_r. apply hasDoubleLead_firstn. assumption.
Qed.

(** No emitted word holds the bytes of a soft hyphen, as long as no word
    of the buffer holds two [0xC2] bytes in a row. *)
Lemma emitted_words_clean pt viewportWidth includeLastLine ptf blocks :
  aligned pt -> cleanWords (words pt) ->
  layout pt viewportWidth includeLastLine = Some (ptf, blocks) ->
  forall block word, In block blocks -> In word (tb_words block) ->
                     containsSoftHyphen word = false.
Proof.
  intros Hal Hclean El block word Hb Hw.
  destruct (words pt) as [|w0 wr] eqn:Ew.
  { unfold layoutAndExtractLines in El. rewrite Ew in El. cbn [isEmpty] in El.
    injection El as _ <-. destruct Hb. }
  assert (Hne : words pt <> []) by (rewrite Ew; congruence).
  destruct (layout_plan renderer fontId Hyphenator_breakOffsets pt viewportWidth Hal Hne)
    as (ptb & wwb & breaks & Eb & Hpost & Hcab & Hlay).
  rewrite (Hlay includeLastLine) in El. injection El as _ <-.
  destruct Hpost as (Hokb & Hcov & Hnon & Hfits & (n & Hsp) & _).
  pose proof (splits_clean _ _ _ Hsp) as Hc. cbn [fst] in Hc.
  rewrite <- Ew in Hclean. specialize (Hc (applyParagraphIndent_clean pt Hclean)).
  set (count := if includeLastLine then length breaks else (length breaks - 1)%nat) in *.
  destruct (blocksOf_content (style ptb) viewportWidth (getSpaceWidth renderer fontId)
              wwb (words ptb) (wordStyles ptb) count 0 breaks (length wwb) Hcov) as [Hc1 _].
  assert (Hin : In word (concat (map tb_words
                  (blocksOf (style ptb) viewportWidth (getSpaceWidth renderer fontId) wwb
                            (words ptb) (wordStyles ptb) count 0 breaks)))).
  { apply in_concat. exists (tb_words block). split; [apply in_map; exact Hb|exact Hw]. }
  rewrite Hc1 in Hin. apply in_map_iff in Hin. destruct Hin as (w & <- & Hin).
  rewrite stripIfSoftHyphen_strip. apply strip_clean.
  unfold cleanWords in Hc. rewrite Forall_forall in Hc. apply Hc.
  unfold slice in Hin. apply In_firstn in Hin. apply In_skipn in Hin. exact Hin.
Qed.

End CleanFacts.

(** * The layout with the hyphenation facade plugged in *)

Section EngineTheorems.

Variable renderer : GfxRenderer.
Variable fontId : Z.
Variable collectCodepoints : bytes -> list CodepointInfo.
Variable trimSurroundingPunctuationAndFootnote : list CodepointInfo -> list CodepointInfo.
Variables isExplicitHyphen isSoftHyphen isAlphabetic : Z -> bool.
Variables kDefaultMinPrefix kDefaultMinSuffix : nat.
Variable cachedHyphenator_ : option LanguageHyphenator.

Local Abbreviation facade :=
  (breakOffsets collectCodepoints trimSurroundingPunctuationAndFootnote
                isExplicitHyphen isSoftHyphen isAlphabetic
                kDefaultMinPrefix kDefaultMinSuffix cachedHyphenator_).
Local Abbreviation trimmed word :=
  (trimSurroundingPunctuationAndFootnote (collectCodepoints word)).
Local Abbreviation markerBreaks := (explicitMarkerBreaks isExplicitHyphen isSoftHyphen isAlphabetic).
Local Abbreviation isMarker := (markerAt isExplicitHyphen isAlphabetic).
Local Abbreviation languageBreaks := (languageBreaks cachedHyphenator_).
Local Abbreviation hyphenate := (hyphenateWordAtIndex renderer fontId facade).
Local Abbreviation pwidth := (prefixWidthOf renderer fontId).
Local Abbreviation fitting := (fittingBreak renderer fontId).
Local Abbreviation splitAt := (splitWordAt renderer fontId).
Local Abbreviation layout := (layoutAndExtractLines renderer fontId facade).

(** Without fallback the facade only returns marker breaks or breaks
    of the active language. *)
Lemma breakOffsets_without_fallback word info :
  In info (facade word false) ->
  In info (markerBreaks (trimmed word))
  \/ exists idx, In idx (languageBreaks (trimmed word))
                 /\ info = mkBreakInfo (byteOffsetForIndex (trimmed word) idx) true.
Proof.
  unfold breakOffsets. destruct word as [|b0 w]; [intros []|]. cbn [isEmpty].
  rewrite buildExplicitBreakInfos_markers.
  destruct (isEmpty (markerBreaks (trimmed (b0 :: w)))); cbn [negb andb].
  - destruct (isEmpty (languageBreaks (trimmed (b0 :: w)))); [intros []|].
    intros Hin. right. apply in_map_iff in Hin. destruct Hin as (idx & <- & Hin).
    exists idx. split; [exact Hin|reflexivity].
  - intros Hin. left. exact Hin.
Qed.

(** C6.  When the word at [cur] overflows the line: a word that is not
    the first of its line only gets marker breaks or breaks of the active
    language as candidates (never fallback breaks); if some candidate fits
    the available width the word is split at the one of greatest prefix
    width and the prefix closes the line; if none fits, a later word is
    left for the next line (the line closes at [cur], buffer unchanged) and
    a first word is put on the line alone, unsplit (the line closes at
    [cur + 1], buffer unchanged). *)
Theorem greedy_split_policy
    (pageWidth spaceWidth : Z) (lineStart cur : nat) (lineWidth : Z)
    (ww : list Z) (pt : ParsedText) :
  let word := nth cur (words pt) [] in
  let st := nth cur (wordStyles pt) REGULAR in
  let isFirstWord := (cur =? lineStart)%nat in
  let spacing := if isFirstWord then 0 else spaceWidth in
  let avail := pageWidth - lineWidth - spacing in
  let candidates := facade word isFirstWord in
  let outcome := lineBody renderer fontId facade pageWidth spaceWidth
                          lineStart cur lineWidth ww pt in
  (cur < length (words pt))%nat ->
  pageWidth < lineWidth + (spacing + nth cur ww 0) ->
  (isFirstWord = false ->
   forall info, In info candidates ->
     In info (markerBreaks (trimmed word))
     \/ exists idx, In idx (languageBreaks (trimmed word))
                    /\ info = mkBreakInfo (byteOffsetForIndex (trimmed word) idx) true)
  /\ ((exists info,
         In info candidates /\ fitting word st avail info
         /\ (forall info', In info' candidates -> fitting word st avail info' ->
                           pwidth word st info' <= pwidth word st info)
         /\ outcome = CloseLine (fst (splitAt cur info ww pt))
                                (snd (splitAt cur info ww pt)) (S cur))
      \/ ((avail <= 0 \/ forall info, In info candidates -> ~ fitting word st avail info)
          /\ outcome = CloseLine pt ww (if isFirstWord then S cur else cur))).
Proof.
  intros word st isFirstWord spacing avail candidates outcome Hcur Hov.
  split.
  { intros Hf info Hin. unfold candidates in Hin. rewrite Hf in Hin.
    apply breakOffsets_without_fallback. exact Hin. }
  pose proof (lineBody_cases renderer fontId facade pageWidth spaceWidth
                lineStart cur lineWidth ww pt) as Hcases.
  cbv zeta in Hcases. fold isFirstWord spacing avail outcome in Hcases.
  pose proof (hyphenateWordAtIndex_spec renderer fontId facade cur avail ww isFirstWord pt)
    as Hspec.
  cbv zeta in Hspec. fold word st candidates in Hspec.
  destruct Hcases as [[Hfit _]|[(_ & pt' & ww' & Eh & Eb)|(_ & Eh & Eb)]]; [lia| |].
  - left. destruct Hspec as [[E _]|(info & E & _ & _ & Hin & Hf & Hbest)];
      rewrite E in Eh; [discriminate|].
    injection Eh as <- <-. exists info. repeat (split; [assumption|]). exact Eb.
  - right. destruct Hspec as [[E Hwhy]|(info & E & _)]; rewrite E in Eh; [|discriminate].
    split; [|exact Eb].
    destruct Hwhy as [H|[H|H]]; [left; exact H|lia|right; exact H].
Qed.

(** C8, as it holds.  A word whose trimmed codepoints hold a soft hyphen
    between two letters is only ever split at an explicit marker that sits
    between two letters (that soft hyphen, another one, or a literal
    hyphen): the word is replaced, where it stands, by the bytes before
    the codepoint that follows the marker (and a literal hyphen after them
    when the marker is a soft hyphen) and by the unmodified rest, both with
    the style of the word.  And as long as no word of the buffer holds two
    [0xC2] bytes in a row (well-formed UTF-8 never does), no word of an
    emitted block holds the bytes [0xC2 0xAD]. *)
Theorem soft_hyphen_realization :
  (forall pt ww wordIndex avail allowFallback pt' ww' k,
      let word := nth wordIndex (words pt) [] in
      let cps := trimmed word in
      aligned pt -> length ww = length (words pt) ->
      (1 <= k)%nat -> (k + 1 < length cps)%nat -> isMarker cps k = true ->
      isSoftHyphen (value (nth k cps cpDefault)) = true ->
      hyphenate wordIndex avail ww allowFallback pt = (true, pt', ww') ->
      exists m before after,
        (1 <= m)%nat /\ (m + 1 < length cps)%nat /\ isMarker cps m = true
        /\ words pt = before ++ word :: after /\ length before = wordIndex
        /\ (let offset := byteOffset (nth (m + 1) cps cpDefault) in
            let softMarker := isSoftHyphen (value (nth m cps cpDefault)) in
            let prefix := firstn offset word ++ (if softMarker then [hyphenChar] else []) in
            words pt' = before ++ prefix :: skipn offset word :: after
            /\ (softMarker = true -> last prefix x00 = hyphenChar))
        /\ nth wordIndex (wordStyles pt') REGULAR = nth wordIndex (wordStyles pt) REGULAR
        /\ nth (S wordIndex) (wordStyles pt') REGULAR = nth wordIndex (wordStyles pt) REGULAR)
  /\ (forall pt viewportWidth includeLastLine ptf blocks,
        aligned pt -> cleanWords (words pt) ->
        layout pt viewportWidth includeLastLine = Some (ptf, blocks) ->
        forall block word, In block blocks -> In word (tb_words block) ->
                           containsSoftHyphen word = false).
Proof.
  split.
  - intros pt ww wordIndex avail allowFallback pt' ww' k word cps Hal Hlen Hk1 Hk2 Hmk Hsoft Eh.
    destruct (hyphenate_true_shape renderer fontId facade _ _ _ _ _ _ _ Hal Hlen Eh)
      as (before & word' & after & sb & st & sa & wb & x & wa & info
          & Hw & Hs & Hx & L1 & L2 & L3 & Hin & Hf & Hbest & Ha & Hpt & Hww).
    assert (Eword : word' = word).
    { unfold word. rewrite Hw, <- L1. symmetry. apply nth_middle'. }
    subst word'.
    assert (Hne : word <> []).
    { intros E. rewrite E in Hin. destruct Hin. }
    pose proof (markerBreaks_nonempty isExplicitHyphen isSoftHyphen isAlphabetic
                  cps k Hk1 Hk2 Hmk) as Hsome.
    rewrite (breakOffsets_explicit collectCodepoints
               trimSurroundingPunctuationAndFootnote isExplicitHyphen isSoftHyphen
               isAlphabetic kDefaultMinPrefix kDefaultMinSuffix cachedHyphenator_
               word allowFallback Hne Hsome) in Hin.
    apply In_markerBreaks in Hin. destruct Hin as (m & Hm1 & Hm2 & Hmm & Hoff & Hneeds).
    exists m, before, after. repeat (split; [assumption|]).
    fold cps in Hoff, Hneeds. cbv zeta. rewrite <- Hoff, <- Hneeds.
    split; [split|split].
    + rewrite Hpt. reflexivity.
    + intros ->. apply last_last.
    + rewrite Hpt. cbn [withWords wordStyles]. rewrite Hs, <- L2, !nth_middle'. reflexivity.
    + rewrite Hpt. cbn [withWords wordStyles]. rewrite Hs, <- L2, nth_middle'.
      change (sb ++ st :: st :: sa) with (sb ++ [st] ++ st :: sa).
      rewrite app_assoc.
      replace (S (length sb)) with (length (sb ++ [st]))
        by (rewrite length_app; cbn [length]; lia).
      apply nth_middle'.
  - intros pt viewportWidth includeLastLine ptf blocks Hal Hclean El.
    exact (emitted_words_clean renderer fontId facade pt viewportWidth includeLastLine
             ptf blocks Hal Hclean El).
Qed.

End EngineTheorems.

(** * The statements on a concrete paragraph *)

Lemma word_count_conservation_witness :
  exists ptf blocks n,
    Run.layout (feed (emptyParagraph LEFT_ALIGN true true)
                     [([x61; x62; x63], REGULAR); ([], BOLD); (Run.mixedWord, ITALIC)])
               100 true
    = Some (ptf, blocks)
    /\ length (concat (map tb_words blocks)) = (2 + n)%nat.
Proof.
  pose proof (word_count_conservation Sample.renderer 0 Run.facade
                [([x61; x62; x63], REGULAR); ([], BOLD); (Run.mixedWord, ITALIC)]
                LEFT_ALIGN true true 100 true) as H.
  cbv zeta in H.
  destruct H as (ptf & blocks & n & ptb & wwb & k & H1 & _ & _ & _ & _ & _ & _ & _ & _ & Hlast).
  exists ptf, blocks, n. split; [exact H1|].
  exact (proj2 (proj2 (proj2 (Hlast eq_refl)))).
Defined.

Lemma round_trip_without_indent_witness :
  aligned Run.rightAligned /\ words Run.rightAligned <> []
  /\ exists pt1 earlier pt2 final,
       Run.layout Run.rightAligned 100 false = Some (pt1, earlier)
       /\ Run.layout pt1 100 true = Some (pt2, [final])
       /\ Run.layout Run.rightAligned 100 true = Some (pt2, earlier ++ [final])
       /\ words pt2 = [].
Proof.
  split; [reflexivity|]. split; [discriminate|].
  apply (round_trip_without_indent Sample.renderer 0 Run.facade Run.rightAligned 100).
  - reflexivity.
  - discriminate.
  - left. reflexivity.
Defined.

(** C1.  The round trip fails on a paragraph that gets the indent: the
    second call indents again, so the first word of the line that the first
    call withheld comes out with an em-space in front, and the line the
    second call emits is not the last line of a single full layout. *)
Lemma round_trip_reindents_last_line :
  exists pt1 earlier pt2 final pt3 blocks,
    Run.layout Run.justifiedIndented 100 false = Some (pt1, earlier)
    /\ Run.layout pt1 100 true = Some (pt2, [final])
    /\ Run.layout Run.justifiedIndented 100 true = Some (pt3, blocks)
    /\ tb_words final = [emSpace ++ [x6a; x6b; x6c]; [x61]]
    /\ tb_words (last blocks final) = [[x6a; x6b; x6c]; [x61]]
    /\ last blocks final <> final.
Proof.
  do 6 eexists.
  split; [vm_compute; reflexivity|].
  split; [vm_compute; reflexivity|].
  split; [vm_compute; reflexivity|].
  split; [reflexivity|]. split; [reflexivity|]. discriminate.
Qed.

Lemma justification_gaps_witness :
  aligned Run.justified /\ words Run.justified <> []
  /\ 0 <= 101 <= 65535 /\ 0 < getSpaceWidth Sample.renderer 0
  /\ exists ptf ptf' earlier final,
       Run.layout Run.justified 101 true = Some (ptf, earlier ++ [final])
       /\ Run.layout Run.justified 101 false = Some (ptf', earlier)
       /\ Forall (nonFinalGaps Sample.renderer 0 101 (getSpaceWidth Sample.renderer 0)) earlier
       /\ plainGaps Sample.renderer 0 (getSpaceWidth Sample.renderer 0) final.
Proof.
  split; [reflexivity|]. split; [discriminate|]. split; [lia|]. split; [reflexivity|].
  apply (justification_gaps Sample.renderer 0 Run.facade Run.justified 101).
  - reflexivity.
  - discriminate.
  - lia.
  - reflexivity.
Defined.

(** C2 fails as stated: a justified line of three words that is not the
    last one, in a viewport of 101 pixels, has words and gaps adding up to
    100 pixels only (the leftover 11 is divided by 2 gaps, 1 pixel is lost). *)
Lemma justified_line_falls_short :
  exists ptf first rest,
    Run.layout Run.justified 101 true = Some (ptf, first :: rest)
    /\ rest <> []
    /\ tb_style first = JUSTIFIED
    /\ length (tb_words first) = 3%nat
    /\ drawnWidths Sample.renderer 0 first = [30; 40; 20]
    /\ gapsOf (drawnWidths Sample.renderer 0 first) (tb_wordXpos first) = [5; 5]
    /\ sumZ (drawnWidths Sample.renderer 0 first)
       + sumZ (gapsOf (drawnWidths Sample.renderer 0 first) (tb_wordXpos first)) <> 101.
Proof.
  do 3 eexists.
  split; [vm_compute; reflexivity|].
  split; [discriminate|]. split; [reflexivity|]. split; [reflexivity|].
  split; [reflexivity|]. split; [reflexivity|]. vm_compute. discriminate.
Qed.

Lemma line_fit_bound_witness :
  aligned Run.justified /\ words Run.justified <> []
  /\ exists ptf ptb wwb breaks,
       Run.layout Run.justified 100 true
       = Some (ptf, blocksOf (style ptb) 100 (getSpaceWidth Sample.renderer 0) wwb (words ptb)
                             (wordStyles ptb) (length breaks) 0 breaks)
       /\ breakLines Sample.renderer 0 Run.facade 100 (getSpaceWidth Sample.renderer 0)
                     (calculateWordWidths Sample.renderer 0 (applyParagraphIndent Run.justified))
                     (applyParagraphIndent Run.justified) = Some (ptb, wwb, breaks)
       /\ coverFrom 0 breaks (length (words ptb))
       /\ cached Sample.renderer 0 ptb wwb
       /\ forall i, (i < length breaks)%nat ->
            let first := nth i (0%nat :: breaks) 0%nat in
            let last := nth i breaks 0%nat in
            lineWidthOf (getSpaceWidth Sample.renderer 0) (slice first last wwb) <= 100
            \/ (last = S first
                /\ unsplittable Sample.renderer 0 Run.facade 100 wwb ptb first).
Proof.
  split; [reflexivity|]. split; [discriminate|].
  apply (line_fit_bound Sample.renderer 0 Run.facade Run.justified 100 true).
  - reflexivity.
  - discriminate.
Defined.

Lemma split_failure_is_atomic_witness :
  let pt := Sample.paragraph LEFT_ALIGN true true [[x61; x62; x63; x64; x65; x66]] in
  let r := hyphenateWordAtIndex Sample.renderer 0 Run.facade 0 15 [60] true pt in
  fst (fst r) = false
  /\ words (snd (fst r)) = words pt /\ wordStyles (snd (fst r)) = wordStyles pt
  /\ snd (fst r) = pt /\ snd r = [60].
Proof.
  intros pt r. split; [reflexivity|].
  apply (proj1 (proj2 (split_failure_is_atomic Sample.renderer 0 Run.facade
                         0%nat 15 [60] true pt))).
  reflexivity.
Defined.

Lemma greedy_split_policy_witness :
  (1 < length (words Run.twoWords))%nat /\ 100 < 30 + (5 + nth 1 [30; 90] 0)
  /\ ((exists info,
         In info (Run.facade Run.mixedWord false)
         /\ fittingBreak Sample.renderer 0 Run.mixedWord REGULAR 65 info
         /\ (forall info', In info' (Run.facade Run.mixedWord false) ->
                fittingBreak Sample.renderer 0 Run.mixedWord REGULAR 65 info' ->
                prefixWidthOf Sample.renderer 0 Run.mixedWord REGULAR info'
                <= prefixWidthOf Sample.renderer 0 Run.mixedWord REGULAR info)
         /\ lineBody Sample.renderer 0 Run.facade 100 5 0 1 30 [30; 90] Run.twoWords
            = CloseLine (fst (splitWordAt Sample.renderer 0 1 info [30; 90] Run.twoWords))
                        (snd (splitWordAt Sample.renderer 0 1 info [30; 90] Run.twoWords)) 2)
      \/ ((65 <= 0 \/ forall info, In info (Run.facade Run.mixedWord false) ->
                         ~ fittingBreak Sample.renderer 0 Run.mixedWord REGULAR 65 info)
          /\ lineBody Sample.renderer 0 Run.facade 100 5 0 1 30 [30; 90] Run.twoWords
             = CloseLine Run.twoWords [30; 90] 1)).
Proof.
  split; [cbn; lia|]. split; [cbn; lia|].
  apply (proj2 (greedy_split_policy Sample.renderer 0 Sample.collectCodepoints
                  Sample.trimSurroundingPunctuationAndFootnote Sample.isExplicitHyphen
                  Sample.isSoftHyphen Sample.isAlphabetic Sample.kDefaultMinPrefix
                  Sample.kDefaultMinSuffix None 100 5 0%nat 1%nat 30 [30; 90] Run.twoWords
                  ltac:(cbn; lia) ltac:(cbn; lia))).
Defined.

Lemma soft_hyphen_realization_witness :
  (exists m before after,
      (1 <= m)%nat
      /\ words Run.oneMixedWord = before ++ Run.mixedWord :: after /\ length before = 0%nat
      /\ words (snd (fst (hyphenateWordAtIndex Sample.renderer 0 Run.facade 0 65 [80] false
                                                Run.oneMixedWord)))
         = before
           ++ (firstn (byteOffset (nth (m + 1) (Sample.collectCodepoints Run.mixedWord) cpDefault))
                      Run.mixedWord
               ++ (if Sample.isSoftHyphen
                        (value (nth m (Sample.collectCodepoints Run.mixedWord) cpDefault))
                   then [hyphenChar] else []))
           :: skipn (byteOffset (nth (m + 1) (Sample.collectCodepoints Run.mixedWord) cpDefault))
                    Run.mixedWord
           :: after)
  /\ (forall ptf blocks,
        Run.layout Run.oneMixedWord 65 true = Some (ptf, blocks) ->
        forall block word, In block blocks -> In word (tb_words block) ->
                           containsSoftHyphen word = false).
Proof.
  pose proof (soft_hyphen_realization Sample.renderer 0 Sample.collectCodepoints
                Sample.trimSurroundingPunctuationAndFootnote Sample.isExplicitHyphen
                Sample.isSoftHyphen Sample.isAlphabetic Sample.kDefaultMinPrefix
                Sample.kDefaultMinSuffix None) as [HA HB].
  split.
  - destruct (HA Run.oneMixedWord [80] 0%nat 65 false
                 (snd (fst (hyphenateWordAtIndex Sample.renderer 0 Run.facade 0 65 [80] false
                                                 Run.oneMixedWord)))
                 (snd (hyphenateWordAtIndex Sample.renderer 0 Run.facade 0 65 [80] false
                                            Run.oneMixedWord))
                 5%nat)
      as (m & before & after & Hm1 & _ & _ & Hw & Hl & (Hw' & _) & _).
    + reflexivity.
    + reflexivity.
    + lia.
    + vm_compute. lia.
    + reflexivity.
    + reflexivity.
    + reflexivity.
    + exists m, before, after. repeat (split; [assumption|]). exact Hw'.
  - intros ptf blocks El.
    apply (HB Run.oneMixedWord 65 true ptf blocks); [reflexivity| |exact El].
    repeat constructor.
Defined.

(** C8 fails as stated on two counts.  A word with a literal hyphen and a
    soft hyphen, 35 pixels being available, is split after the literal
    hyphen (byte 3), not at the soft hyphen (whose break is at byte 7).  And
    from the malformed word [C2 C2 AD AD] the single pass of the stripping
    loop leaves [C2 AD] in the emitted block. *)
Lemma soft_hyphen_word_split_elsewhere :
  (Sample.breakOffsetsNoLanguage Run.mixedWord false = [mkBreakInfo 3 false; mkBreakInfo 7 true]
   /\ hyphenateWordAtIndex Sample.renderer 0 Run.facade 0 35 [80] false Run.oneMixedWord
      = (true,
         withWords Run.oneMixedWord
                   [[x61; x62; x2d]; [x63; x64; xc2; xad; x65; x66]] [REGULAR; REGULAR],
         [30; 40])
   /\ firstn 3 Run.mixedWord <> firstn 7 Run.mixedWord)
  /\ (exists ptf block,
        Run.layout Run.malformed 100 true = Some (ptf, [block])
        /\ tb_words block = [[xc2; xad]]
        /\ containsSoftHyphen [xc2; xad] = true).
Proof.
  split.
  - split; [reflexivity|]. split; [reflexivity|discriminate].
  - do 2 eexists. split; [vm_compute; reflexivity|]. split; reflexivity.
Qed.

(** * The DP breaker minimises the badness *)

Section OptimalFacts.

Variables pageWidth spaceWidth : Z.

Local Abbreviation inner := (dpInner pageWidth spaceWidth).
Local Abbreviation table := (dpFill pageWidth spaceWidth).
Local Abbreviation costAt := (costAt pageWidth spaceWidth).
Local Abbreviation fitsAt ws currlen m :=
  (currlen + sumZ (firstn (S m) ws) + Z.of_nat (S m) * spaceWidth <= pageWidth).

Lemma costAt_tail w ws dps currlen m :
  costAt (w :: ws) dps currlen (S m) = costAt ws (tl dps) (currlen + (w + spaceWidth)) m.
Proof.
  unfold Voc.costAt.
  replace (skipn (S m) dps) with (skipn m (tl dps)) by (destruct dps; [destruct m|]; reflexivity).
  destruct (skipn m (tl dps)); [reflexivity|].
  f_equal. change (firstn (S (S m)) (w :: ws)) with (w :: firstn (S m) ws).
  rewrite sumZ_cons. lia.
Qed.

Lemma costAt_head w ws dps currlen :
  costAt (w :: ws) dps currlen 0
  = match dps with
    | [] => 0
    | dpNext :: _ => lineCost (pageWidth - (currlen + (w + spaceWidth))) dpNext
    end.
Proof.
  unfold Voc.costAt. cbn [skipn]. destruct dps; [reflexivity|].
  f_equal. cbn [firstn]. rewrite sumZ_cons. change (sumZ []) with 0. lia.
Qed.

Lemma fitsAt_tail w ws currlen m :
  fitsAt (w :: ws) currlen (S m) <-> fitsAt ws (currlen + (w + spaceWidth)) m.
Proof.
  change (firstn (S (S m)) (w :: ws)) with (w :: firstn (S m) ws).
  rewrite sumZ_cons. lia.
Qed.

(** The inner loop never keeps a cost above that of a line that fits. *)
Lemma dpInner_le ws dps j currlen dpi ansi :
  Forall (fun w => 0 <= w) ws -> 0 <= spaceWidth ->
  fst (inner ws dps j currlen dpi ansi) <= dpi
  /\ forall m, (m < length ws)%nat -> fitsAt ws currlen m ->
               fst (inner ws dps j currlen dpi ansi) <= costAt ws dps currlen m.
Proof.
  intros Hws Hsw. revert dps j currlen dpi ansi.
  induction Hws as [|w ws Hw Hws IH]; intros dps j currlen dpi ansi.
  - cbn [dpInner fst length]. split; [lia|]. intros m Hm. lia.
  - cbn [dpInner].
    destruct (Z.gtb_spec (currlen + (w + spaceWidth)) pageWidth) as [Hover|Hfit].
    + cbn [fst]. split; [lia|]. intros m Hm Hf.
      assert (0 <= sumZ (firstn (S m) (w :: ws)) - w).
      { change (firstn (S m) (w :: ws)) with (w :: firstn m ws). rewrite sumZ_cons.
        assert (0 <= sumZ (firstn m ws)); [|lia].
        apply sumZ_nonneg. apply Forall_forall. intros x Hx.
        apply In_firstn in Hx. rewrite Forall_forall in Hws. auto. }
      nia.
    + rewrite <- (costAt_head w ws dps currlen).
      set (cost := costAt (w :: ws) dps currlen 0).
      destruct (Z.ltb_spec cost dpi) as [Hlt|Hge].
      * destruct (IH (tl dps) (S j) (currlen + (w + spaceWidth)) cost j) as [I1 I2].
        split; [lia|]. intros m Hm Hf. destruct m as [|m]; [exact I1|].
        rewrite costAt_tail. apply I2; [cbn [length] in Hm; lia|].
        apply fitsAt_tail. exact Hf.
      * destruct (IH (tl dps) (S j) (currlen + (w + spaceWidth)) dpi ansi) as [I1 I2].
        split; [lia|]. intros m Hm Hf. destruct m as [|m]; [fold cost; lia|].
        rewrite costAt_tail. apply I2; [cbn [length] in Hm; lia|].
        apply fitsAt_tail. exact Hf.
Qed.

(** What the inner loop keeps is the cost of a line that fits. *)
Lemma dpInner_attained ws dps j currlen dpi ansi :
  (fst (inner ws dps j currlen dpi ansi) = dpi /\ snd (inner ws dps j currlen dpi ansi) = ansi)
  \/ (fst (inner ws dps j currlen dpi ansi) < dpi
      /\ exists m, (m < length ws)%nat
                   /\ snd (inner ws dps j currlen dpi ansi) = (j + m)%nat
                   /\ fitsAt ws currlen m
                   /\ fst (inner ws dps j currlen dpi ansi) = costAt ws dps currlen m).
Proof.
  revert dps j currlen dpi ansi.
  induction ws as [|w ws IH]; intros dps j currlen dpi ansi.
  - left. split; reflexivity.
  - cbn [dpInner].
    destruct (Z.gtb_spec (currlen + (w + spaceWidth)) pageWidth) as [Hover|Hfit];
      [left; split; reflexivity|].
    rewrite <- (costAt_head w ws dps currlen).
    set (cost := costAt (w :: ws) dps currlen 0).
    destruct (Z.ltb_spec cost dpi) as [Hlt|Hge].
    + right.
      destruct (IH (tl dps) (S j) (currlen + (w + spaceWidth)) cost j)
        as [[E1 E2]|(Hl & m & Hm & E2 & Hf & E1)].
      * split; [lia|]. exists 0%nat. split; [cbn [length]; lia|].
        split; [rewrite E2; lia|]. split; [|exact E1].
        cbn [firstn]. rewrite sumZ_cons. change (sumZ []) with 0. lia.
      * split; [lia|]. exists (S m). split; [cbn [length]; lia|].
        split; [rewrite E2; lia|]. split; [apply fitsAt_tail; exact Hf|].
        rewrite costAt_tail. exact E1.
    + destruct (IH (tl dps) (S j) (currlen + (w + spaceWidth)) dpi ansi)
        as [[E1 E2]|(Hl & m & Hm & E2 & Hf & E1)].
      * left. split; assumption.
      * right. split; [exact Hl|]. exists (S m). split; [cbn [length]; lia|].
        split; [rewrite E2; lia|]. split; [apply fitsAt_tail; exact Hf|].
        rewrite costAt_tail. exact E1.
Qed.

(** The entries of the table at index [k], read off the loop body. *)
Lemma dpFill_last ww k :
  S k = length ww ->
  nth k (fst (table 0 ww)) 0 = 0 /\ nth k (snd (table 0 ww)) 0%nat = k.
Proof.
  intros Hk.
  pose proof (dpFill_skipn pageWidth spaceWidth k 0 ww) as E.
  rewrite Nat.add_0_r in E.
  assert (Hs : exists w, skipn k ww = [w]).
  { destruct (skipn k ww) as [|w [|w2 r]] eqn:Es;
      pose proof (f_equal (@length Z) Es) as HL; rewrite length_skipn in HL;
      cbn [length] in HL; [lia|exists w; reflexivity|lia]. }
  destruct Hs as [w Hs]. rewrite Hs in E. cbn [dpFill] in E.
  injection E as E1 E2.
  pose proof (f_equal (fun l => nth 0 l 0) E1) as F1.
  pose proof (f_equal (fun l => nth 0 l 0%nat) E2) as F2.
  cbv beta in F1, F2. rewrite nth_skipn, Nat.add_0_r in F1, F2.
  cbn [nth] in F1, F2. split; congruence.
Qed.

Lemma dpFill_at ww k :
  (S k < length ww)%nat ->
  let dps := fst (table 0 ww) in
  let r := inner (skipn k ww) (skipn (S k) dps) k (- spaceWidth) MAX_COST 0%nat in
  nth k dps 0 = (if fst r =? MAX_COST then nth (S k) dps 0 else fst r)
  /\ nth k (snd (table 0 ww)) 0%nat = (if fst r =? MAX_COST then k else snd r).
Proof.
  intros Hk dps r.
  pose proof (dpFill_skipn pageWidth spaceWidth k 0 ww) as E.
  pose proof (dpFill_skipn pageWidth spaceWidth (S k) 0 ww) as E'.
  rewrite Nat.add_0_r in E, E'.
  assert (Hs : exists w w2 rest, skipn k ww = w :: w2 :: rest).
  { destruct (skipn k ww) as [|w [|w2 rest]] eqn:Es;
      pose proof (f_equal (@length Z) Es) as HL; rewrite length_skipn in HL;
      cbn [length] in HL; [lia|lia|exists w, w2, rest; reflexivity]. }
  destruct Hs as (w & w2 & rest & Hs).
  assert (Hs' : skipn (S k) ww = w2 :: rest).
  { replace (S k) with (1 + k)%nat by lia. rewrite <- skipn_skipn, Hs. reflexivity. }
  rewrite Hs' in E'. rewrite Hs, dpFill_unfold, E' in E.
  cbv beta iota in E. fold dps in E. unfold r. rewrite Hs.
  destruct (inner (w :: w2 :: rest) (skipn (S k) dps) k (- spaceWidth) MAX_COST 0%nat)
    as [dpi ansi].
  cbn [fst snd].
  assert (Hhd : hd 0 (skipn (S k) dps) = nth (S k) dps 0).
  { rewrite <- (Nat.add_0_r (S k)) at 2. rewrite <- nth_skipn.
    destruct (skipn (S k) dps); reflexivity. }
  rewrite Hhd in E.
  remember (skipn (S k) dps) as tailD eqn:HtD.
  remember (skipn (S k) (snd (table 0 ww))) as tailA eqn:HtA.
  destruct (dpi =? MAX_COST); injection E as E1 E2;
    pose proof (f_equal (fun l => nth 0 l 0) E1) as F1;
    pose proof (f_equal (fun l => nth 0 l 0%nat) E2) as F2;
    cbv beta in F1, F2; rewrite nth_skipn, Nat.add_0_r in F1, F2;
    cbn [nth] in F1, F2; split; congruence.
Qed.

Lemma lineWidthOf_nonneg (l : list Z) :
  Forall (fun w => 0 <= w) l -> 0 <= spaceWidth -> 0 <= lineWidthOf spaceWidth l.
Proof.
  intros Hl Hsw. destruct l as [|x l]; [cbn; lia|].
  unfold lineWidthOf. pose proof (sumZ_nonneg _ Hl). cbn [length]. nia.
Qed.

Lemma Forall_slice {A} (P : A -> Prop) (a b : nat) (l : list A) :
  Forall P l -> Forall P (slice a b l).
Proof.
  intros H. apply Forall_forall. intros x Hx. unfold slice in Hx.
  apply In_firstn, In_skipn in Hx. rewrite Forall_forall in H. auto.
Qed.

(** The length the inner loop has reached after the words [k .. k+m]. *)
Lemma currlen_lineWidth ww k m :
  (k + m < length ww)%nat ->
  - spaceWidth + sumZ (firstn (S m) (skipn k ww)) + Z.of_nat (S m) * spaceWidth
  = lineWidthOf spaceWidth (slice k (S (k + m)) ww).
Proof.
  intros Hk. unfold slice. replace (S (k + m) - k)%nat with (S m) by lia.
  assert (HL : length (firstn (S m) (skipn k ww)) = S m).
  { rewrite length_firstn, length_skipn. lia. }
  unfold lineWidthOf. destruct (firstn (S m) (skipn k ww)) as [|x l] eqn:E;
    [cbn [length] in HL; lia|].
  rewrite HL. lia.
Qed.

Lemma costAt_table ww k m :
  (k + m < length ww)%nat ->
  let dps := fst (table 0 ww) in
  costAt (skipn k ww) (skipn (S k) dps) (- spaceWidth) m
  = if (S (k + m) =? length ww)%nat then 0
    else lineCost (pageWidth - lineWidthOf spaceWidth (slice k (S (k + m)) ww))
                  (nth (S (k + m)) dps 0).
Proof.
  intros Hk dps. unfold Voc.costAt. rewrite skipn_skipn.
  replace (m + S k)%nat with (S (k + m)) by lia.
  assert (HL : length dps = length ww) by apply dpFill_length.
  destruct (Nat.eqb_spec (S (k + m)) (length ww)) as [He|Hn].
  - rewrite skipn_all2 by lia. reflexivity.
  - destruct (skipn (S (k + m)) dps) as [|d rest] eqn:Es.
    + pose proof (f_equal (@length Z) Es) as HL2. rewrite length_skipn in HL2.
      cbn [length] in HL2. lia.
    + rewrite currlen_lineWidth by exact Hk. f_equal.
      rewrite <- (Nat.add_0_r (S (k + m))), <- nth_skipn, Es. reflexivity.
Qed.

Section SmallParagraph.

Variable ww : list Z.
Hypothesis Hpage : 0 <= pageWidth.
Hypothesis Hspace : 0 <= spaceWidth.
Hypothesis Hwidths : Forall (fun w => 0 <= w <= pageWidth) ww.
Hypothesis Hsmall : Z.of_nat (length ww) * (pageWidth * pageWidth) < MAX_COST.

Local Abbreviation dps := (fst (table 0 ww)).
Local Abbreviation anss := (snd (table 0 ww)).
Local Abbreviation loopAt k :=
  (inner (skipn k ww) (skipn (S k) dps) k (- spaceWidth) MAX_COST 0%nat).

Lemma widths_nonneg : Forall (fun w => 0 <= w) ww.
Proof. eapply Forall_impl; [|exact Hwidths]. cbv beta. intros; lia. Qed.

Lemma page_small : (0 < length ww)%nat -> pageWidth <= 65535.
Proof. intros Hn. unfold MAX_COST in Hsmall. nia. Qed.

Lemma dps_range k : (k < length ww)%nat -> 0 <= nth k dps 0 <= MAX_COST.
Proof.
  intros Hk.
  pose proof (dpFill_range pageWidth spaceWidth 0 ww (page_small ltac:(lia)) Hspace
                widths_nonneg) as HR.
  rewrite Forall_forall in HR. apply HR. apply nth_In.
  rewrite (proj1 (dpFill_length pageWidth spaceWidth 0 ww)). exact Hk.
Qed.

Lemma word_width k : (k < length ww)%nat -> 0 <= nth k ww 0 <= pageWidth.
Proof.
  intros Hk. rewrite Forall_forall in Hwidths. apply Hwidths. apply nth_In. exact Hk.
Qed.

(** The cost of a line that fits, as the loop computes it, is exact. *)
Lemma lineCost_fits k e :
  (k < e)%nat -> (e < length ww)%nat ->
  lineWidthOf spaceWidth (slice k e ww) <= pageWidth ->
  let slack := pageWidth - lineWidthOf spaceWidth (slice k e ww) in
  lineCost slack (nth e dps 0) = Z.min MAX_COST (slack * slack + nth e dps 0)
  /\ 0 <= slack <= pageWidth.
Proof.
  intros Hke He Hfit slack.
  pose proof (lineWidthOf_nonneg (slice k e ww)
                (Forall_slice _ k e ww widths_nonneg) Hspace) as H0.
  pose proof (page_small ltac:(lia)) as Hp.
  split; [|unfold slack; lia].
  apply lineCost_saturated; [unfold slack; lia|]. apply dps_range. lia.
Qed.

(** No entry of the table is saturated, and the forced single-word
    line is never needed. *)
Lemma table_not_saturated d :
  forall k, (k + S d = length ww)%nat ->
    nth k dps 0 <= Z.of_nat d * (pageWidth * pageWidth)
    /\ ((S k < length ww)%nat -> fst (loopAt k) < MAX_COST).
Proof.
  induction d as [|d IH]; intros k Hk.
  - split; [|lia]. rewrite (proj1 (dpFill_last ww k ltac:(lia))). lia.
  - destruct (IH (S k) ltac:(lia)) as [Hnext _].
    assert (Hloop : fst (loopAt k) <= Z.of_nat (S d) * (pageWidth * pageWidth)).
    { destruct (dpInner_le (skipn k ww) (skipn (S k) dps) k (- spaceWidth) MAX_COST 0%nat)
        as [_ Hle].
      { apply Forall_forall. intros x Hx. apply In_skipn in Hx.
        pose proof widths_nonneg as Hn. rewrite Forall_forall in Hn. auto. }
      { exact Hspace. }
      specialize (Hle 0%nat). rewrite costAt_table in Hle by lia.
      rewrite currlen_lineWidth in Hle by lia.
      rewrite Nat.add_0_r in Hle.
      rewrite (slice_single 0) in Hle by lia.
      destruct (Nat.eqb_spec (S k) (length ww)) as [Hx|_]; [lia|].
      pose proof (word_width k ltac:(lia)) as Hw.
      assert (Hlw : lineWidthOf spaceWidth [nth k ww 0] = nth k ww 0).
      { unfold lineWidthOf. cbn [length]. rewrite sumZ_cons. change (sumZ []) with 0. lia. }
      rewrite Hlw in Hle.
      pose proof (lineCost_fits k (S k) ltac:(lia) ltac:(lia)) as Hc.
      rewrite (slice_single 0), Hlw in Hc by lia.
      destruct (Hc ltac:(lia)) as [Ec Hs].
      specialize (Hle ltac:(rewrite length_skipn; lia) ltac:(lia)).
      rewrite Ec in Hle.
      pose proof (dps_range (S k) ltac:(lia)) as Hr. nia. }
    assert (Hlt : fst (loopAt k) < MAX_COST) by nia.
    split; [|intros _; exact Hlt].
    destruct (dpFill_at ww k ltac:(lia)) as [E _]. rewrite E.
    destruct (Z.eqb_spec (fst (loopAt k)) MAX_COST); [lia|exact Hloop].
Qed.

Lemma table_entry k :
  (S k < length ww)%nat ->
  fst (loopAt k) < MAX_COST
  /\ nth k dps 0 = fst (loopAt k) /\ nth k anss 0%nat = snd (loopAt k).
Proof.
  intros Hk.
  destruct (table_not_saturated (length ww - S k) k ltac:(lia)) as [_ Hlt].
  specialize (Hlt Hk). destruct (dpFill_at ww k Hk) as [E1 E2].
  rewrite E1, E2.
  destruct (Z.eqb_spec (fst (loopAt k)) MAX_COST); [lia|]. repeat split. exact Hlt.
Qed.

(** The entry at [k] is at most the badness of any breaking from [k]
    whose lines all fit. *)
Lemma table_below_any other :
  forall k, (k < length ww)%nat ->
    coverFrom k other (length ww) -> allFit pageWidth spaceWidth ww k other ->
    nth k dps 0 <= breaksCost pageWidth spaceWidth ww k other.
Proof.
  induction other as [|e rest IH]; intros k Hk Hcov Hfit.
  - cbn [coverFrom] in Hcov. lia.
  - cbn [coverFrom allFit] in Hcov, Hfit.
    destruct Hcov as (H1 & H2 & Hcov). destruct Hfit as [Hline Hfit].
    assert (Hle : (S k < length ww)%nat ->
                  fst (loopAt k)
                  <= costAt (skipn k ww) (skipn (S k) dps) (- spaceWidth) (e - 1 - k)).
    { intros HSk.
      destruct (dpInner_le (skipn k ww) (skipn (S k) dps) k (- spaceWidth) MAX_COST 0%nat)
        as [_ Hle].
      { apply Forall_forall. intros x Hx. apply In_skipn in Hx.
        pose proof widths_nonneg as Hn. rewrite Forall_forall in Hn. auto. }
      { exact Hspace. }
      apply Hle; [rewrite length_skipn; lia|].
      rewrite currlen_lineWidth by lia.
      replace (S (k + (e - 1 - k))) with e by lia. exact Hline. }
    destruct rest as [|e2 rest'].
    + cbn [coverFrom] in Hcov. subst e. cbn [breaksCost].
      destruct (Nat.eq_dec (S k) (length ww)) as [Hlast|Hmore].
      * rewrite (proj1 (dpFill_last ww k Hlast)). lia.
      * destruct (table_entry k ltac:(lia)) as (_ & E & _). rewrite E.
        specialize (Hle ltac:(lia)). rewrite costAt_table in Hle by lia.
        replace (S (k + (length ww - 1 - k))) with (length ww) in Hle by lia.
        rewrite Nat.eqb_refl in Hle. exact Hle.
    + assert (He : (e < length ww)%nat) by (cbn [coverFrom] in Hcov; lia).
      change (breaksCost pageWidth spaceWidth ww k (e :: e2 :: rest'))
        with (let slack := pageWidth - lineWidthOf spaceWidth (slice k e ww) in
              slack * slack + breaksCost pageWidth spaceWidth ww e (e2 :: rest')).
      cbv zeta.
      destruct (table_entry k ltac:(lia)) as (_ & E & _). rewrite E.
      specialize (Hle ltac:(lia)). rewrite costAt_table in Hle by lia.
      replace (S (k + (e - 1 - k))) with e in Hle by lia.
      destruct (Nat.eqb_spec e (length ww)) as [Hx|_]; [lia|].
      destruct (lineCost_fits k e H1 He Hline) as [Ec _]. rewrite Ec in Hle.
      specialize (IH e He Hcov Hfit). lia.
Qed.

(** The breaking that follows the table fits and has the badness the
    table announces. *)
Lemma table_attained breaks :
  forall k, (k < length ww)%nat ->
    coverFrom k breaks (length ww) -> endsAt anss k breaks ->
    allFit pageWidth spaceWidth ww k breaks
    /\ breaksCost pageWidth spaceWidth ww k breaks = nth k dps 0.
Proof.
  induction breaks as [|e rest IH]; intros k Hk Hcov Hends.
  - cbn [coverFrom] in Hcov. lia.
  - cbn [coverFrom endsAt] in Hcov, Hends.
    destruct Hcov as (H1 & H2 & Hcov). destruct Hends as [He Hends].
    destruct (Nat.eq_dec (S k) (length ww)) as [Hlast|Hmore].
    + (* the last word *)
      assert (Ee : e = length ww) by lia.
      destruct rest as [|e2 rest']; [|cbn [coverFrom] in Hcov; lia].
      cbn [allFit breaksCost]. rewrite (proj1 (dpFill_last ww k Hlast)).
      split; [|reflexivity]. split; [|exact I].
      rewrite Ee, <- Hlast, (slice_single 0) by lia.
      pose proof (word_width k Hk) as Hw.
      unfold lineWidthOf. cbn [length]. rewrite sumZ_cons. change (sumZ []) with 0. lia.
    + destruct (table_entry k ltac:(lia)) as (Hlt & E1 & E2).
      rewrite E2 in He.
      destruct (dpInner_attained (skipn k ww) (skipn (S k) dps) k
                  (- spaceWidth) MAX_COST 0%nat)
        as [[Ex _]|(_ & m & Hm & Es & Hf & Ec)]; [lia|].
      rewrite length_skipn in Hm.
      rewrite currlen_lineWidth in Hf by lia.
      rewrite costAt_table in Ec by lia.
      rewrite Es in He. rewrite <- He in Hf, Ec.
      destruct rest as [|e2 rest'].
      * cbn [coverFrom] in Hcov. cbn [allFit breaksCost].
        split; [split; [exact Hf|exact I]|].
        rewrite E1, Ec. destruct (Nat.eqb_spec e (length ww)); [reflexivity|lia].
      * assert (Hel : (e < length ww)%nat) by (cbn [coverFrom] in Hcov; lia).
        destruct (IH e Hel Hcov Hends) as [Ifit Icost].
        split; [cbn [allFit]; split; [exact Hf|exact Ifit]|].
        change (breaksCost pageWidth spaceWidth ww k (e :: e2 :: rest'))
          with (let slack := pageWidth - lineWidthOf spaceWidth (slice k e ww) in
                slack * slack + breaksCost pageWidth spaceWidth ww e (e2 :: rest')).
        cbv zeta. rewrite Icost, E1, Ec.
        destruct (Nat.eqb_spec e (length ww)) as [Hx|_]; [lia|].
        destruct (lineCost_fits k e H1 Hel Hf) as [Ecost _].
        rewrite Ecost in Ec |- *. rewrite Ec in Hlt. lia.
Qed.

End SmallParagraph.

End OptimalFacts.

Section OptimalTheorem.

Variable renderer : GfxRenderer.
Variable fontId : Z.
Variable Hyphenator_breakOffsets : bytes -> bool -> list BreakInfo.

Local Abbreviation dpBreaks := (computeLineBreaks renderer fontId Hyphenator_breakOffsets).

(** X1.  When every word fits the page and the paragraph is small enough
    for the badness not to reach [MAX_COST] (number of words times the
    squared page width below [MAX_COST]), the DP breaker splits no word and
    returns a breaking whose lines all fit and whose badness (the sum of
    the squared slack of all lines but the last) is minimal among all
    breakings whose lines fit. *)
Theorem dp_breaks_minimise_badness (pt : ParsedText) (ww : list Z) (pageWidth spaceWidth : Z) :
  bufferOk pt ww -> words pt <> [] ->
  0 <= pageWidth -> 0 <= spaceWidth ->
  Forall (fun w => 0 <= w <= pageWidth) ww ->
  Z.of_nat (length ww) * (pageWidth * pageWidth) < MAX_COST ->
  exists breaks,
    dpBreaks pageWidth spaceWidth ww pt = Some (pt, ww, breaks)
    /\ coverFrom 0 breaks (length ww)
    /\ allFit pageWidth spaceWidth ww 0 breaks
    /\ forall other,
         coverFrom 0 other (length ww) -> allFit pageWidth spaceWidth ww 0 other ->
         breaksCost pageWidth spaceWidth ww 0 breaks
         <= breaksCost pageWidth spaceWidth ww 0 other.
Proof.
  intros Hok Hne Hpage Hspace Hwidths Hsmall.
  assert (Hlen : length ww = length (words pt)) by apply Hok.
  assert (Hpos : (0 < length ww)%nat).
  { destruct (words pt); [congruence|cbn [length] in Hlen; lia]. }
  unfold computeLineBreaks.
  destruct (words pt) as [|w0 wsrest] eqn:Ew; [congruence|]. cbn [isEmpty].
  rewrite prepass_unchanged.
  2:{ intros k Hk. left. rewrite Forall_forall in Hwidths.
      apply Hwidths. apply nth_In. lia. }
  2:{ unfold bufferFuel. rewrite Ew, Hlen. cbn [length]. lia. }
  rewrite Ew, <- Hlen.
  destruct (dpFill pageWidth spaceWidth 0 ww) as [dps ans] eqn:Et.
  assert (Hans : forall c, (c < length ww)%nat -> (c <= nth c ans 0 < length ww)%nat).
  { intros c Hc.
    destruct (dpFill_ans pageWidth spaceWidth 0 ww c Hc) as (G1 & G2 & _).
    rewrite Et in G1, G2. cbn [snd] in G1, G2. lia. }
  destruct (followBreaks_spec (S (length ww)) ans (length ww) 0 Hans ltac:(lia) ltac:(lia))
    as (breaks & Ef & Hcov & Hends & _).
  rewrite Ef. exists breaks. split; [reflexivity|]. split; [exact Hcov|].
  replace ans with (snd (dpFill pageWidth spaceWidth 0 ww)) in Hends by (rewrite Et; reflexivity).
  destruct (table_attained pageWidth spaceWidth ww Hpage Hspace Hwidths Hsmall breaks 0%nat
              Hpos Hcov Hends) as [Hfit Hcost].
  split; [exact Hfit|]. intros other Hco Hfo. rewrite Hcost.
  exact (table_below_any pageWidth spaceWidth ww Hpage Hspace Hwidths Hsmall other 0%nat
           Hpos Hco Hfo).
Qed.

End OptimalTheorem.

(** * A paragraph that fits on one line *)

Lemma lineWidthOf_firstn (spaceWidth : Z) (a : nat) (l : list Z) :
  Forall (fun w => 0 <= w) l -> 0 <= spaceWidth ->
  (0 < a)%nat -> (a < length l)%nat ->
  lineWidthOf spaceWidth (firstn a l) + spaceWidth <= lineWidthOf spaceWidth l.
Proof.
  intros Hl Hsw Ha Hal.
  assert (HL : length (firstn a l) = a) by (rewrite length_firstn; lia).
  assert (Hs : 0 <= sumZ (skipn a l)).
  { apply sumZ_nonneg. apply Forall_forall. intros x Hx. apply In_skipn in Hx.
    rewrite Forall_forall in Hl. auto. }
  assert (Hsum : sumZ l = sumZ (firstn a l) + sumZ (skipn a l)).
  { rewrite <- sumZ_app, firstn_skipn. reflexivity. }
  unfold lineWidthOf.
  destruct (firstn a l) as [|x f] eqn:Ef; [cbn [length] in HL; lia|].
  destruct l as [|y l']; [cbn [length] in Hal; lia|].
  rewrite HL, Hsum. nia.
Qed.

Lemma lineWidthOf_firstn_le (spaceWidth : Z) (a : nat) (l : list Z) :
  Forall (fun w => 0 <= w) l -> 0 <= spaceWidth ->
  lineWidthOf spaceWidth (firstn a l) <= lineWidthOf spaceWidth l.
Proof.
  intros Hl Hsw.
  destruct (Nat.eq_dec a 0) as [->|Ha].
  - cbn [firstn lineWidthOf]. destruct l as [|x l]; [cbn; lia|].
    unfold lineWidthOf. pose proof (sumZ_nonneg _ Hl). cbn [length]. nia.
  - destruct (Nat.lt_ge_cases a (length l)) as [Hlt|Hge].
    + pose proof (lineWidthOf_firstn spaceWidth a l Hl Hsw ltac:(lia) Hlt). lia.
    + rewrite firstn_all2 by lia. lia.
Qed.

Section OneLineFacts.

Variable renderer : GfxRenderer.
Variable fontId : Z.
Variable Hyphenator_breakOffsets : bytes -> bool -> list BreakInfo.
Variables pageWidth spaceWidth : Z.

Local Abbreviation fill := (fillLine renderer fontId Hyphenator_breakOffsets).
Local Abbreviation greedyBreaks :=
  (computeHyphenatedLineBreaks renderer fontId Hyphenator_breakOffsets).
Local Abbreviation dpBreaks := (computeLineBreaks renderer fontId Hyphenator_breakOffsets).
Local Abbreviation breaker := (breakLines renderer fontId Hyphenator_breakOffsets).

Variable ww : list Z.
Hypothesis Hwidths : Forall (fun w => 0 <= w) ww.
Hypothesis Hwhole : lineWidthOf spaceWidth ww <= pageWidth.

(** The inner loop of the greedy breaker walks to the end of the buffer. *)
Lemma fillLine_whole pt fuel :
  0 <= spaceWidth ->
  forall cur lineWidth,
    (cur <= length ww)%nat -> (length ww - cur < fuel)%nat ->
    lineWidth = lineWidthOf spaceWidth (slice 0 cur ww) ->
    fill fuel pageWidth spaceWidth 0%nat cur lineWidth ww pt = Some (pt, ww, length ww).
Proof.
  intros Hsw. induction fuel as [|fuel IH]; intros cur lineWidth Hcur Hfuel Hlw; [lia|].
  cbn [fillLine].
  destruct (Nat.ltb_spec cur (length ww)) as [Hlt|Hge].
  2:{ replace cur with (length ww) by lia. reflexivity. }
  assert (Hsnoc : lineWidthOf spaceWidth (slice 0 (S cur) ww)
                  = lineWidth + ((if (cur =? 0)%nat then 0 else spaceWidth) + nth cur ww 0)).
  { rewrite (slice_snoc 0) by lia. rewrite lineWidthOf_snoc, <- Hlw.
    rewrite isEmpty_slice by lia. reflexivity. }
  pose proof (lineWidthOf_firstn_le spaceWidth (S cur) ww Hwidths Hsw) as Hle.
  rewrite <- slice_from_0, Hsnoc in Hle.
  unfold lineBody.
  destruct (Z.leb_spec (lineWidth + ((if (cur =? 0)%nat then 0 else spaceWidth)
                                     + nth cur ww 0)) pageWidth) as [_|Hov]; [|lia].
  apply IH; [lia|lia|]. symmetry. exact Hsnoc.
Qed.

Lemma greedy_one_line pt :
  0 <= spaceWidth -> bufferOk pt ww -> words pt <> [] ->
  greedyBreaks pageWidth spaceWidth ww pt = Some (pt, ww, [length ww]).
Proof.
  intros Hsw Hok Hne.
  assert (Hlen : length ww = length (words pt)) by apply Hok.
  assert (Hpos : (0 < length ww)%nat).
  { destruct (words pt); [congruence|cbn [length] in Hlen; lia]. }
  unfold computeHyphenatedLineBreaks, bufferFuel.
  cbn [hyphenatedLines].
  destruct (Nat.ltb_spec 0 (length ww)) as [_|Hx]; [|lia].
  rewrite (fillLine_whole pt (S (length ww)) Hsw 0%nat 0) by
    (try lia; rewrite slice_empty; reflexivity).
  destruct (length (words pt) + length (concat (words pt)))%nat as [|fuel] eqn:Ef; [lia|].
  cbn [hyphenatedLines]. rewrite Nat.ltb_irrefl. reflexivity.
Qed.

Lemma dp_one_line pt :
  0 < spaceWidth -> pageWidth <= 65535 -> bufferOk pt ww -> words pt <> [] ->
  dpBreaks pageWidth spaceWidth ww pt = Some (pt, ww, [length ww]).
Proof.
  intros Hsw Hpw Hok Hne.
  assert (Hlen : length ww = length (words pt)) by apply Hok.
  assert (Hpos : (0 < length ww)%nat).
  { destruct (words pt); [congruence|cbn [length] in Hlen; lia]. }
  assert (Hword : forall k, (k < length ww)%nat -> nth k ww 0 <= pageWidth).
  { intros k Hk.
    pose proof (lineWidthOf_firstn_le spaceWidth (S k) ww Hwidths ltac:(lia)) as H1.
    rewrite <- slice_from_0, (slice_snoc 0), lineWidthOf_snoc in H1 by lia.
    pose proof (lineWidthOf_nonneg spaceWidth (slice 0 k ww)
                  (Forall_slice _ 0 k ww Hwidths) ltac:(lia)) as H2.
    destruct (isEmpty (slice 0 k ww)); lia. }
  unfold computeLineBreaks.
  destruct (words pt) as [|w0 wsrest] eqn:Ew; [congruence|]. cbn [isEmpty].
  rewrite prepass_unchanged.
  2:{ intros k Hk. left. apply Hword. lia. }
  2:{ unfold bufferFuel. rewrite Ew, Hlen. cbn [length]. lia. }
  rewrite Ew, <- Hlen.
  destruct (dpFill pageWidth spaceWidth 0 ww) as [dps ans] eqn:Et.
  assert (Hans : forall c, (c < length ww)%nat -> (c <= nth c ans 0 < length ww)%nat).
  { intros c Hc.
    destruct (dpFill_ans pageWidth spaceWidth 0 ww c Hc) as (G1 & G2 & _).
    rewrite Et in G1, G2. cbn [snd] in G1, G2. lia. }
  destruct (followBreaks_spec (S (length ww)) ans (length ww) 0 Hans ltac:(lia) ltac:(lia))
    as (breaks & Ef & Hcov & Hends & _).
  rewrite Ef. do 2 f_equal.
  (* the first line ends at the last word *)
  assert (Hfirst : nth 0 ans 0%nat = (length ww - 1)%nat).
  { replace ans with (snd (dpFill pageWidth spaceWidth 0 ww)) by (rewrite Et; reflexivity).
    destruct (Nat.eq_dec 1 (length ww)) as [H1|Hmore].
    { rewrite (proj2 (dpFill_last pageWidth spaceWidth ww 0 H1)). lia. }
    destruct (dpFill_at pageWidth spaceWidth ww 0 ltac:(lia)) as [_ E]. cbv zeta in E.
    rewrite E. clear E.
    set (d := fst (dpFill pageWidth spaceWidth 0 ww)).
    set (r := dpInner pageWidth spaceWidth (skipn 0 ww) (skipn 1 d) 0 (- spaceWidth) MAX_COST 0).
    destruct (dpInner_le pageWidth spaceWidth (skipn 0 ww) (skipn 1 d) 0 (- spaceWidth)
                MAX_COST 0%nat Hwidths ltac:(lia)) as [_ Hle].
    specialize (Hle (length ww - 1)%nat). fold r in Hle.
    rewrite costAt_table, currlen_lineWidth in Hle by lia.
    replace (S (0 + (length ww - 1))) with (length ww) in Hle by lia.
    rewrite Nat.eqb_refl, slice_from_0, firstn_all in Hle.
    specialize (Hle ltac:(cbn [skipn]; lia) Hwhole).
    pose proof (dpInner_attained pageWidth spaceWidth (skipn 0 ww) (skipn 1 d) 0
                  (- spaceWidth) MAX_COST 0%nat) as Hatt.
    fold r in Hatt.
    destruct Hatt as [[Ex _]|(_ & m & Hm & Es & Hf & Ec)]; [unfold MAX_COST in Ex; lia|].
    cbn [skipn length] in Hm.
    rewrite costAt_table in Ec by lia. rewrite currlen_lineWidth in Hf by lia.
    cbn [Nat.add] in Ec, Hf, Es. fold d in Ec.
    destruct (Z.eqb_spec (fst r) MAX_COST) as [Hx|_]; [unfold MAX_COST in Hx; lia|].
    rewrite Es.
    destruct (Nat.eqb_spec (S m) (length ww)) as [Hl|Hn]; [lia|].
    exfalso.
    pose proof (lineWidthOf_firstn spaceWidth (S m) ww Hwidths ltac:(lia) ltac:(lia)
                  ltac:(lia)) as Hgap.
    rewrite <- slice_from_0 in Hgap.
    pose proof (lineWidthOf_nonneg spaceWidth (slice 0 (S m) ww)
                  (Forall_slice _ 0 (S m) ww Hwidths) ltac:(lia)) as H0.
    assert (Hd : 0 <= nth (S m) d 0 <= MAX_COST).
    { pose proof (dpFill_range pageWidth spaceWidth 0 ww Hpw ltac:(lia) Hwidths) as HR.
      rewrite Forall_forall in HR. apply HR. apply nth_In.
      unfold d. rewrite (proj1 (dpFill_length pageWidth spaceWidth 0 ww)). lia. }
    destruct (lineCost_saturated (pageWidth - lineWidthOf spaceWidth (slice 0 (S m) ww))
                (nth (S m) d 0) ltac:(lia) Hd) as [Ecost _].
    rewrite Ecost in Ec. unfold MAX_COST in *. nia. }
  destruct breaks as [|e rest]; [cbn [coverFrom] in Hcov; lia|].
  cbn [coverFrom endsAt] in Hcov, Hends.
  destruct Hends as [He _]. rewrite Hfirst in He.
  assert (Ee : e = length ww) by lia. clear He. subst e.
  destruct rest as [|e2 rest']; [reflexivity|].
  destruct Hcov as (_ & _ & Hcov). cbn [coverFrom] in Hcov. lia.
Qed.

End OneLineFacts.

Section OneLineTheorem.

Variable renderer : GfxRenderer.
Variable fontId : Z.
Variable Hyphenator_breakOffsets : bytes -> bool -> list BreakInfo.

Local Abbreviation breaker := (breakLines renderer fontId Hyphenator_breakOffsets).
Local Abbreviation layout := (layoutAndExtractLines renderer fontId Hyphenator_breakOffsets).
Local Abbreviation widths := (calculateWordWidths renderer fontId).
Local Abbreviation spaceOf := (getSpaceWidth renderer fontId).

(** X2.  When the words of the paragraph (the first one indented) and the
    spaces between them fit the viewport, both breakers put the whole
    paragraph on one line and split nothing: a layout with the last line
    emits that single line and empties the buffer; a layout without the
    last line emits nothing and keeps every word in the buffer. *)
Theorem paragraph_on_one_line (pt : ParsedText) (viewportWidth : Z) :
  aligned pt -> words pt <> [] ->
  viewportWidth <= 65535 -> 0 < spaceOf ->
  lineWidthOf spaceOf (widths (applyParagraphIndent pt)) <= viewportWidth ->
  exists ptf block,
    layoutAndExtractLines renderer fontId Hyphenator_breakOffsets pt viewportWidth true
    = Some (ptf, [block])
    /\ words ptf = [] /\ wordStyles ptf = []
    /\ tb_words block = map stripIfSoftHyphen (words (applyParagraphIndent pt))
    /\ tb_wordStyles block = wordStyles pt
    /\ layoutAndExtractLines renderer fontId Hyphenator_breakOffsets pt viewportWidth false
       = Some (applyParagraphIndent pt, []).
Proof.
  intros Hal Hne Hvw Hsw Hwhole.
  set (pt1 := applyParagraphIndent pt) in *.
  destruct (layout_plan renderer fontId Hyphenator_breakOffsets pt viewportWidth Hal Hne)
    as (ptb & wwb & breaks & Eb & _ & _ & Hlay).
  fold pt1 in Eb.
  assert (Hal1 : aligned pt1) by (apply applyParagraphIndent_shape; exact Hal).
  destruct (calculateWordWidths_ok renderer fontId pt1 Hal1) as [Hok1 _].
  assert (Hne1 : words pt1 <> []).
  { pose proof (proj1 (applyParagraphIndent_length pt)) as HL. fold pt1 in HL.
    destruct (words pt1); [|congruence].
    destruct (words pt); [congruence|discriminate]. }
  assert (Hnn : Forall (fun w => 0 <= w) (widths pt1)) by apply widthsOf_nonneg.
  assert (Eone : breaker viewportWidth spaceOf (widths pt1) pt1
                 = Some (pt1, widths pt1, [length (widths pt1)])).
  { unfold breakLines. destruct (hyphenationEnabled pt1).
    - apply greedy_one_line; try assumption. lia.
    - apply dp_one_line; assumption. }
  rewrite Eone in Eb. injection Eb as <- <- <-.
  assert (Hlen : length (widths pt1) = length (words pt1)) by apply Hok1.
  exists (dropWords (length (widths pt1)) pt1).
  eexists. split; [rewrite (Hlay true); cbn [length blocksOf]; reflexivity|].
  cbn [dropWords withWords words wordStyles makeBlock tb_words tb_wordStyles].
  split; [apply skipn_all2; lia|].
  split; [apply skipn_all2; unfold aligned in Hal1; lia|].
  split; [rewrite slice_from_0, firstn_all2 by lia; reflexivity|].
  split.
  - rewrite slice_from_0, firstn_all2 by (unfold aligned in Hal1; lia).
    apply applyParagraphIndent_length.
  - rewrite (Hlay false). cbn [length Nat.sub blocksOf lastLineStart].
    unfold dropWords. cbn [skipn]. destruct pt1; reflexivity.
Qed.

End OneLineTheorem.

(** * Where the words of a line are drawn *)

Lemma lineXPositions_length (spacing xpos : Z) (l : list Z) :
  length (lineXPositions spacing xpos l) = length l.
Proof.
  revert xpos. induction l as [|w l IH]; intros xpos; [reflexivity|].
  cbn [lineXPositions length]. rewrite IH. reflexivity.
Qed.

(** As long as the line stays below 65536 pixels, the x offset of a word
    is the start of the line plus the widths and gaps before the word. *)
Lemma lineXPositions_nth (spacing : Z) (l : list Z) (xpos : Z) (i : nat) :
  Forall (fun w => 0 <= w) l -> 0 <= spacing -> 0 <= xpos ->
  xpos + sumZ l + (Z.of_nat (length l) - 1) * spacing < 65536 ->
  (i < length l)%nat ->
  nth i (lineXPositions spacing xpos l) 0
  = xpos + sumZ (firstn i l) + Z.of_nat i * spacing.
Proof.
  intros Hl Hs. revert xpos i.
  induction Hl as [|w l Hw Hl IH]; intros xpos i Hx Hb Hi; [cbn [length] in Hi; lia|].
  rewrite lineXPositions_cons.
  destruct i as [|i]; [cbn [nth firstn]; change (sumZ []) with 0; lia|].
  cbn [nth firstn length] in *. rewrite sumZ_cons in Hb |- *.
  pose proof (sumZ_nonneg l Hl) as Hsum.
  assert (Hnext : to_uint16 (xpos + (w + spacing)) = xpos + (w + spacing)).
  { apply to_uint16_small. nia. }
  rewrite Hnext, IH; [lia|lia|nia|lia].
Qed.

Lemma sumZ_firstn_le (l : list Z) (i : nat) :
  Forall (fun w => 0 <= w) l -> sumZ (firstn i l) <= sumZ l.
Proof.
  intros Hl. rewrite <- (firstn_skipn i l) at 2. rewrite sumZ_app.
  assert (0 <= sumZ (skipn i l)); [|lia].
  apply sumZ_nonneg. apply Forall_forall. intros x Hx. apply In_skipn in Hx.
  rewrite Forall_forall in Hl. auto.
Qed.

Section GeometryFacts.

Variable renderer : GfxRenderer.
Variable fontId : Z.

Local Abbreviation widthsOf := (calculateWordWidthsFrom renderer fontId).
Local Abbreviation drawn := (drawnWidths renderer fontId).

(** The start and the spacing of a line that fits. *)
Lemma makeBlock_layout st isLastLine pageWidth spaceWidth ws sts :
  0 <= pageWidth <= 65535 -> 0 < spaceWidth -> ws <> [] ->
  let l := widthsOf ws sts in
  let block := makeBlock st isLastLine (length ws) pageWidth spaceWidth l ws sts in
  lineWidthOf spaceWidth l <= pageWidth ->
  exists x0 spacing,
    tb_wordXpos block = lineXPositions spacing x0 l
    /\ 0 <= x0 /\ spaceWidth <= spacing
    /\ x0 + sumZ l + (Z.of_nat (length l) - 1) * spacing <= pageWidth
    /\ x0 = match st with
            | RIGHT_ALIGN => pageWidth - lineWidthOf spaceWidth l
            | CENTER_ALIGN => (pageWidth - lineWidthOf spaceWidth l) / 2
            | _ => 0
            end
    /\ (st = RIGHT_ALIGN \/ st = CENTER_ALIGN -> spacing = spaceWidth).
Proof.
  intros Hpw Hsw Hne l block Hfit.
  pose proof (widthsOf_nonneg renderer fontId ws sts) as Hnn. fold l in Hnn.
  pose proof (widthsOf_length renderer fontId ws sts) as Hlen. fold l in Hlen.
  pose proof (sumZ_nonneg l Hnn) as Hsum.
  assert (Hpos : (0 < length ws)%nat) by (destruct ws; [congruence|cbn [length]; lia]).
  assert (Hlw : lineWidthOf spaceWidth l
                = sumZ l + (Z.of_nat (length l) - 1) * spaceWidth).
  { unfold lineWidthOf. destruct l; [cbn [length] in Hlen; lia|reflexivity]. }
  rewrite Hlw in Hfit.
  exists (lineStartX st (length ws) (pageWidth - sumZ l) spaceWidth),
         (lineSpacing st isLastLine (length ws) (pageWidth - sumZ l) spaceWidth).
  split; [reflexivity|].
  set (reserved := pageWidth - sumZ l - (Z.of_nat (length l) - 1) * spaceWidth).
  assert (Hres : 0 <= reserved <= 65535) by (unfold reserved; nia).
  assert (Hrs : to_size_t (pageWidth - sumZ l
                           - to_size_t (Z.of_nat (length ws) - 1) * spaceWidth)
                = reserved).
  { unfold to_size_t. rewrite <- Hlen.
    rewrite Zminus_mod, Zmult_mod_idemp_l, <- Zminus_mod.
    apply Z.mod_small. unfold reserved in *. lia. }
  assert (Hx0 : lineStartX st (length ws) (pageWidth - sumZ l) spaceWidth
                = match st with
                  | RIGHT_ALIGN => reserved
                  | CENTER_ALIGN => reserved / 2
                  | _ => 0
                  end).
  { unfold lineStartX. rewrite Hrs.
    destruct st; try reflexivity; apply to_uint16_small.
    - pose proof (Z.div_pos reserved 2 ltac:(lia) ltac:(lia)).
      pose proof (Z.div_le_upper_bound reserved 2 reserved ltac:(lia) ltac:(lia)). lia.
    - lia. }
  assert (Hhalf : 0 <= reserved / 2 <= reserved).
  { pose proof (Z.div_pos reserved 2 ltac:(lia) ltac:(lia)).
    pose proof (Z.div_le_upper_bound reserved 2 reserved ltac:(lia) ltac:(lia)). lia. }
  destruct (BlockStyle_eqb st JUSTIFIED && negb isLastLine && (2 <=? length ws)%nat) eqn:Ej.
  - (* justified, not the last line, two words or more *)
    apply andb_true_iff in Ej. destruct Ej as [Ej E2].
    apply andb_true_iff in Ej. destruct Ej as [Ej El].
    apply BlockStyle_eqb_eq in Ej. subst st.
    apply Nat.leb_le in E2.
    set (gapCount := Z.of_nat (length l) - 1) in *.
    set (leftover := pageWidth - sumZ l) in *.
    assert (Hgc : 0 < gapCount) by (unfold gapCount; lia).
    assert (Hlo : gapCount * spaceWidth <= leftover) by (unfold reserved in Hres; lia).
    assert (Hsp : lineSpacing JUSTIFIED isLastLine (length ws) leftover spaceWidth
                  = leftover / gapCount).
    { unfold lineSpacing. rewrite El. cbn [BlockStyle_eqb andb].
      destruct (Nat.leb_spec 2 (length ws)) as [_|Hx]; [|lia].
      rewrite (to_size_t_small leftover) by (unfold leftover; nia).
      rewrite <- Hlen. fold gapCount.
      rewrite (to_size_t_small gapCount) by (unfold gapCount, leftover in *; nia).
      apply to_int_small.
      pose proof (Z.div_pos leftover gapCount ltac:(nia) Hgc).
      pose proof (Z.div_le_upper_bound leftover gapCount leftover Hgc ltac:(nia)).
      unfold leftover in *. lia. }
    rewrite Hsp, Hx0.
    pose proof (Z.div_mod leftover gapCount ltac:(lia)) as Hdm.
    pose proof (Z.mod_pos_bound leftover gapCount Hgc) as Hmod.
    assert (Hq : spaceWidth <= leftover / gapCount).
    { apply Z.div_le_lower_bound; lia. }
    split; [lia|]. split; [exact Hq|]. split; [fold gapCount; unfold leftover in *; nia|].
    split; [reflexivity|]. intros [Hx|Hx]; discriminate.
  - assert (Hsp : lineSpacing st isLastLine (length ws) (pageWidth - sumZ l) spaceWidth
                  = spaceWidth).
    { unfold lineSpacing. rewrite Ej. reflexivity. }
    rewrite Hsp, Hx0, Hlw.
    replace (pageWidth - (sumZ l + (Z.of_nat (length l) - 1) * spaceWidth))
      with reserved by (unfold reserved; lia).
    split; [destruct st; lia|]. split; [lia|].
    split; [destruct st; unfold reserved in *; lia|].
    split; [reflexivity|]. intros _. reflexivity.
Qed.

Lemma last_as_nth {A} (l : list A) (d : A) : last l d = nth (length l - 1) l d.
Proof.
  induction l as [|x l IH]; [reflexivity|].
  destruct l as [|y l']; [reflexivity|].
  change (last (x :: y :: l') d) with (last (y :: l') d). rewrite IH.
  cbn [length]. replace (S (S (length l')) - 1)%nat with (S (S (length l') - 1)) by lia.
  reflexivity.
Qed.

(** A line that fits is drawn inside the viewport, where its alignment
    wants it. *)
Lemma makeBlock_inside st isLastLine pageWidth spaceWidth ws sts :
  0 <= pageWidth <= 65535 -> 0 < spaceWidth -> ws <> [] ->
  let l := widthsOf ws sts in
  let block := makeBlock st isLastLine (length ws) pageWidth spaceWidth l ws sts in
  lineWidthOf spaceWidth l <= pageWidth ->
  insideViewport renderer fontId pageWidth block
  /\ anchored renderer fontId pageWidth block.
Proof.
  intros Hpw Hsw Hne l block Hfit.
  destruct (makeBlock_layout st isLastLine pageWidth spaceWidth ws sts Hpw Hsw Hne Hfit)
    as (x0 & spacing & Exs & Hx0 & Hwide & Hend & Estart & Eplain).
  assert (Hsp : 0 < spacing) by lia.
  fold l in Exs, Hend, Estart. fold block in Exs.
  pose proof (widthsOf_nonneg renderer fontId ws sts) as Hnn. fold l in Hnn.
  pose proof (widthsOf_length renderer fontId ws sts) as Hlen. fold l in Hlen.
  assert (Hd : drawn block = l) by apply drawnWidths_stripped.
  assert (Hw : length (tb_words block) = length l).
  { unfold block, makeBlock. cbn [tb_words]. rewrite length_map. lia. }
  assert (Hpos : (0 < length l)%nat).
  { rewrite Hlen. destruct ws; [congruence|cbn [length]; lia]. }
  assert (Hnth : forall i, (i < length l)%nat ->
            nth i (tb_wordXpos block) 0 = x0 + sumZ (firstn i l) + Z.of_nat i * spacing).
  { intros i Hi. rewrite Exs. apply lineXPositions_nth; try assumption; lia. }
  assert (Hedge : forall i, (i < length l)%nat ->
            nth i (tb_wordXpos block) 0 + nth i l 0
            = x0 + sumZ (firstn (S i) l) + Z.of_nat i * spacing).
  { intros i Hi. rewrite (Hnth i Hi), (firstn_succ_nth 0 i l Hi), sumZ_app, sumZ_cons.
    change (sumZ []) with 0. lia. }
  split.
  - intros i Hi. rewrite Hw in Hi. rewrite Hd. split.
    + rewrite (Hnth i Hi).
      assert (0 <= sumZ (firstn i l)); [|nia].
      apply sumZ_nonneg. apply Forall_forall. intros x Hx. apply In_firstn in Hx.
      rewrite Forall_forall in Hnn. auto.
    + rewrite (Hedge i Hi).
      pose proof (sumZ_firstn_le l (S i) Hnn). nia.
  - assert (Hhd : hd 0 (tb_wordXpos block) = x0).
    { rewrite Exs. destruct l; [cbn [length] in Hpos; lia|reflexivity]. }
    assert (Hre : rightEdge renderer fontId block
                  = x0 + sumZ l + (Z.of_nat (length l) - 1) * spacing).
    { unfold rightEdge. rewrite Hd, !last_as_nth.
      rewrite Exs at 1. rewrite lineXPositions_length.
      rewrite (Hedge (length l - 1)%nat ltac:(lia)).
      replace (S (length l - 1)) with (length l) by lia. rewrite firstn_all.
      replace (Z.of_nat (length l - 1)) with (Z.of_nat (length l) - 1) by lia.
      reflexivity. }
    assert (Hlw : lineWidthOf spaceWidth l
                  = sumZ l + (Z.of_nat (length l) - 1) * spaceWidth).
    { unfold lineWidthOf. destruct l; [cbn [length] in Hpos; lia|reflexivity]. }
    unfold anchored. change (tb_style block) with st.
    rewrite Hhd, Hre.
    destruct st; try (rewrite Estart; reflexivity).
    + rewrite (Eplain ltac:(now right)).
      pose proof (Z.div_mod (pageWidth - lineWidthOf spaceWidth l) 2 ltac:(lia)) as Hdm.
      pose proof (Z.mod_pos_bound (pageWidth - lineWidthOf spaceWidth l) 2 ltac:(lia)).
      lia.
    + rewrite (Eplain ltac:(now left)). lia.
Qed.

(** The gaps of a line that fits are never narrower than a space. *)
Lemma makeBlock_gaps_wide st isLastLine pageWidth spaceWidth ws sts :
  0 <= pageWidth <= 65535 -> 0 < spaceWidth -> ws <> [] ->
  let l := widthsOf ws sts in
  let block := makeBlock st isLastLine (length ws) pageWidth spaceWidth l ws sts in
  lineWidthOf spaceWidth l <= pageWidth ->
  Forall (fun gap => spaceWidth <= gap) (gapsOf (drawn block) (tb_wordXpos block)).
Proof.
  intros Hpw Hsw Hne l block Hfit.
  destruct (makeBlock_layout st isLastLine pageWidth spaceWidth ws sts Hpw Hsw Hne Hfit)
    as (x0 & spacing & Exs & Hx0 & Hsp & Hend & _).
  fold l in Exs, Hend. fold block in Exs.
  pose proof (widthsOf_nonneg renderer fontId ws sts) as Hnn. fold l in Hnn.
  assert (Hd : drawn block = l) by apply drawnWidths_stripped.
  rewrite Hd, Exs, lineXPositions_gaps by (try assumption; lia).
  apply Forall_forall. intros g Hg. apply repeat_spec in Hg. lia.
Qed.

(** Every block of [blocksOf] is the block of one line of the breaks. *)
Lemma In_blocksOf st pageWidth spaceWidth ww ws sts count start breaks total block :
  coverFrom start breaks total ->
  In block (blocksOf st pageWidth spaceWidth ww ws sts count start breaks) ->
  exists first last isLastLine,
    (start <= first)%nat /\ (first < last)%nat /\ (last <= total)%nat
    /\ block = makeBlock st isLastLine (last - first) pageWidth spaceWidth
                         (slice first last ww) (slice first last ws) (slice first last sts).
Proof.
  revert start breaks. induction count as [|count IH]; intros start breaks Hcov Hin;
    [destruct Hin|].
  destruct breaks as [|e rest]; [destruct Hin|].
  cbn [coverFrom] in Hcov. destruct Hcov as (H1 & H2 & Hcov).
  cbn [blocksOf] in Hin. destruct Hin as [<-|Hin].
  - exists start, e, (isEmpty rest). repeat split; try lia.
  - destruct (IH e rest Hcov Hin) as (f & l & b & G1 & G2 & G3 & G4).
    exists f, l, b. repeat split; try lia. exact G4.
Qed.

End GeometryFacts.

Section GeometryTheorems.

Variable renderer : GfxRenderer.
Variable fontId : Z.
Variable Hyphenator_breakOffsets : bytes -> bool -> list BreakInfo.

Local Abbreviation layout := (layoutAndExtractLines renderer fontId Hyphenator_breakOffsets).
Local Abbreviation spaceOf := (getSpaceWidth renderer fontId).
Local Abbreviation widthsOf := (calculateWordWidthsFrom renderer fontId).

(** The blocks of a layout, one by one: each is the block of a non-empty
    run of words of the buffer, whose cached widths are the widths at
    which the words are drawn. *)
Lemma layout_blocks pt viewportWidth includeLastLine ptf blocks block :
  aligned pt -> words pt <> [] ->
  layout pt viewportWidth includeLastLine = Some (ptf, blocks) ->
  In block blocks ->
  exists isLastLine ws sts,
    ws <> [] /\ length sts = length ws
    /\ block = makeBlock (style pt) isLastLine (length ws) viewportWidth spaceOf
                         (widthsOf ws sts) ws sts.
Proof.
  intros Hal Hne El Hin.
  destruct (layout_plan renderer fontId Hyphenator_breakOffsets pt viewportWidth Hal Hne)
    as (ptb & wwb & breaks & Eb & Hpost & Hcab & Hlay).
  rewrite (Hlay includeLastLine) in El. injection El as _ <-.
  destruct Hpost as (Hokb & Hcov & _ & _ & (n & Hsp) & _).
  destruct (splits_flags renderer fontId Hyphenator_breakOffsets _ _ _ Hsp) as (Hst & _).
  cbn [fst] in Hst.
  rewrite (proj1 (proj2 (proj2 (applyParagraphIndent_length pt)))) in Hst.
  destruct (In_blocksOf _ _ _ _ _ _ _ _ _ _ _ Hcov Hin)
    as (first & last & isLastLine & H1 & H2 & H3 & ->).
  destruct Hokb as [Halb Hlenb].
  set (wsl := slice first last (words ptb)).
  set (stsl := slice first last (wordStyles ptb)).
  assert (Hwl : length wsl = (last - first)%nat) by (apply slice_length_lt; lia).
  assert (Hsl : length stsl = (last - first)%nat)
    by (apply slice_length_lt; unfold aligned in Halb; lia).
  exists isLastLine, wsl, stsl.
  split; [destruct wsl; [cbn [length] in Hwl; lia|congruence]|].
  split; [lia|].
  rewrite Hwl, Hst. f_equal.
  unfold wsl, stsl. rewrite widthsOf_slice. unfold cached in Hcab. rewrite <- Hcab.
  reflexivity.
Qed.

(** X3.  In a viewport of at most 65535 pixels and with a positive space
    width, every emitted line whose content (drawn word widths and one
    space between neighbours) fits the viewport has all its words drawn
    inside the viewport: no x offset wraps around and no word ends beyond
    the right edge. *)
Theorem fitting_lines_stay_inside_viewport
    (pt : ParsedText) (viewportWidth : Z) (includeLastLine : bool)
    (ptf : ParsedText) (blocks : list TextBlock) (block : TextBlock) :
  aligned pt -> words pt <> [] ->
  0 <= viewportWidth <= 65535 -> 0 < spaceOf ->
  layoutAndExtractLines renderer fontId Hyphenator_breakOffsets pt viewportWidth
                        includeLastLine = Some (ptf, blocks) ->
  In block blocks ->
  contentWidth renderer fontId spaceOf block <= viewportWidth ->
  insideViewport renderer fontId viewportWidth block.
Proof.
  intros Hal Hne Hvw Hsw El Hin Hfit.
  destruct (layout_blocks pt viewportWidth includeLastLine ptf blocks block Hal Hne El Hin)
    as (isLastLine & ws & sts & Hws & _ & ->).
  unfold contentWidth, drawnWidths, makeBlock in Hfit. cbn [tb_words tb_wordStyles] in Hfit.
  rewrite drawnWidths_stripped in Hfit.
  exact (proj1 (makeBlock_inside renderer fontId (style pt) isLastLine viewportWidth spaceOf
                  ws sts Hvw Hsw Hws Hfit)).
Qed.

(** X4.  A left-aligned or justified line always starts at x offset 0.
    In a viewport of at most 65535 pixels and with a positive space width,
    a right-aligned line whose content fits the viewport ends exactly at
    the right edge, and a centred one has a left margin that is the right
    margin or one pixel less. *)
Theorem lines_are_anchored
    (pt : ParsedText) (viewportWidth : Z) (includeLastLine : bool)
    (ptf : ParsedText) (blocks : list TextBlock) (block : TextBlock) :
  aligned pt -> words pt <> [] ->
  layoutAndExtractLines renderer fontId Hyphenator_breakOffsets pt viewportWidth
                        includeLastLine = Some (ptf, blocks) ->
  In block blocks ->
  tb_style block = style pt
  /\ (style pt = LEFT_ALIGN \/ style pt = JUSTIFIED -> hd 0 (tb_wordXpos block) = 0)
  /\ (0 <= viewportWidth <= 65535 -> 0 < spaceOf ->
      contentWidth renderer fontId spaceOf block <= viewportWidth ->
      anchored renderer fontId viewportWidth block).
Proof.
  intros Hal Hne El Hin.
  destruct (layout_blocks pt viewportWidth includeLastLine ptf blocks block Hal Hne El Hin)
    as (isLastLine & ws & sts & Hws & _ & ->).
  split; [reflexivity|]. split.
  - intros Hst. unfold makeBlock. cbn [tb_wordXpos].
    assert (E0 : lineStartX (style pt) (length ws)
                   (viewportWidth - sumZ (widthsOf ws sts)) spaceOf = 0).
    { unfold lineStartX. destruct Hst as [-> | ->]; reflexivity. }
    rewrite E0. destruct (widthsOf ws sts); reflexivity.
  - intros Hvw Hsw Hfit.
    unfold contentWidth, drawnWidths, makeBlock in Hfit. cbn [tb_words tb_wordStyles] in Hfit.
    rewrite drawnWidths_stripped in Hfit.
    exact (proj2 (makeBlock_inside renderer fontId (style pt) isLastLine viewportWidth
                    spaceOf ws sts Hvw Hsw Hws Hfit)).
Qed.

(** X5.  Every emitted block holds at least one word, as many x offsets
    and styles as words, and x offsets that are [uint16_t] values. *)
Theorem blocks_are_well_formed
    (pt : ParsedText) (viewportWidth : Z) (includeLastLine : bool)
    (ptf : ParsedText) (blocks : list TextBlock) (block : TextBlock) :
  aligned pt -> words pt <> [] ->
  layoutAndExtractLines renderer fontId Hyphenator_breakOffsets pt viewportWidth
                        includeLastLine = Some (ptf, blocks) ->
  In block blocks ->
  tb_words block <> []
  /\ length (tb_wordXpos block) = length (tb_words block)
  /\ length (tb_wordStyles block) = length (tb_words block)
  /\ Forall (fun x => 0 <= x <= 65535) (tb_wordXpos block).
Proof.
  intros Hal Hne El Hin.
  destruct (layout_blocks pt viewportWidth includeLastLine ptf blocks block Hal Hne El Hin)
    as (isLastLine & ws & sts & Hws & Hsts & ->).
  unfold makeBlock. cbn [tb_words tb_wordXpos tb_wordStyles].
  split; [destruct ws; [congruence|discriminate]|].
  split; [rewrite lineXPositions_length, length_map; apply widthsOf_length|].
  split; [rewrite length_map; exact Hsts|].
  generalize (lineSpacing (style pt) isLastLine (length ws)
                (viewportWidth - sumZ (widthsOf ws sts)) spaceOf).
  assert (Hx0 : 0 <= lineStartX (style pt) (length ws)
                       (viewportWidth - sumZ (widthsOf ws sts)) spaceOf <= 65535).
  { unfold lineStartX.
    destruct (style pt); try lia;
      match goal with |- 0 <= to_uint16 ?z <= _ => pose proof (to_uint16_range z); lia end. }
  revert Hx0.
  generalize (lineStartX (style pt) (length ws)
                (viewportWidth - sumZ (widthsOf ws sts)) spaceOf).
  generalize (widthsOf ws sts). clear.
  intros l. induction l as [|w l IH]; intros x0 Hx0 spacing; [constructor|].
  rewrite lineXPositions_cons. constructor; [exact Hx0|].
  apply IH. pose proof (to_uint16_range (x0 + (w + spacing))). lia.
Qed.

(** X17.  A line made of a single word that is wider than the viewport
    starts at x offset 0 when the paragraph is left-aligned or justified;
    when it is right-aligned or centred the negative start wraps around in
    the [uint16_t] offset: the word is placed at 65536 minus the overflow
    (right-aligned) or at 65536 minus half the overflow, rounded up
    (centred). *)
Theorem oversized_word_offset
    (pt : ParsedText) (viewportWidth : Z) (includeLastLine : bool)
    (ptf : ParsedText) (blocks : list TextBlock) (block : TextBlock) (word : bytes) :
  aligned pt -> words pt <> [] -> 0 <= viewportWidth ->
  layoutAndExtractLines renderer fontId Hyphenator_breakOffsets pt viewportWidth
                        includeLastLine = Some (ptf, blocks) ->
  In block blocks ->
  tb_words block = [word] ->
  viewportWidth < hd 0 (drawnWidths renderer fontId block) ->
  let overflow := hd 0 (drawnWidths renderer fontId block) - viewportWidth in
  tb_wordXpos block
  = [match style pt with
     | RIGHT_ALIGN => 65536 - overflow
     | CENTER_ALIGN => 65536 + (- overflow) / 2
     | _ => 0
     end].
Proof.
  intros Hal Hne Hvw El Hin Hone Hwide. cbv zeta.
  destruct (layout_blocks pt viewportWidth includeLastLine ptf blocks block Hal Hne El Hin)
    as (isLastLine & ws & sts & Hws & _ & ->).
  unfold drawnWidths in *. unfold makeBlock in *.
  cbn [tb_words tb_wordStyles tb_wordXpos] in *.
  rewrite drawnWidths_stripped in *.
  destruct ws as [|w0 [|w1 ws']]; [congruence| |discriminate]. clear Hone.
  cbn [calculateWordWidthsFrom hd length] in *.
  set (m := measureWordWidth renderer fontId w0 (hd REGULAR sts) false) in *.
  pose proof (measureWordWidth_range renderer fontId w0 (hd REGULAR sts) false) as Hm.
  fold m in Hm.
  set (overflow := m - viewportWidth).
  cbn [lineXPositions]. f_equal.
  unfold lineStartX. rewrite sumZ_cons. change (sumZ []) with 0.
  change (Z.of_nat 1 - 1) with 0. change (to_size_t 0) with 0.
  replace (viewportWidth - (m + 0) - 0 * spaceOf) with (- overflow)
    by (unfold overflow; lia).
  assert (Ho : 0 < overflow <= 65535) by (unfold overflow; lia).
  assert (Es : to_size_t (- overflow) = 4294967296 - overflow).
  { unfold to_size_t.
    rewrite <- (Z.mod_add (- overflow) 1 4294967296) by lia.
    rewrite Z.mod_small; lia. }
  rewrite Es.
  destruct (style pt); try reflexivity.
  - unfold to_uint16.
    replace ((4294967296 - overflow) / 2) with (32768 * 65536 + (- overflow) / 2).
    2:{ replace (4294967296 - overflow) with (- overflow + 2147483648 * 2) by lia.
        rewrite Z.div_add by lia. lia. }
    pose proof (Z.div_mod (- overflow) 2 ltac:(lia)) as Hdm.
    pose proof (Z.mod_pos_bound (- overflow) 2 ltac:(lia)) as Hmb.
    replace (32768 * 65536 + - overflow / 2)
      with (65536 + - overflow / 2 + 32767 * 65536) by lia.
    rewrite Z.mod_add by lia. apply Z.mod_small. lia.
  - unfold to_uint16.
    replace (4294967296 - overflow) with (65536 - overflow + 65535 * 65536) by lia.
    rewrite Z.mod_add by lia. apply Z.mod_small. lia.
Qed.

(** X18.  In a viewport of at most 65535 pixels and with a positive space
    width, the words of an emitted line whose content fits the viewport
    never touch or overlap: every gap between two neighbours is at least
    the base space width. *)
Theorem gaps_are_at_least_a_space
    (pt : ParsedText) (viewportWidth : Z) (includeLastLine : bool)
    (ptf : ParsedText) (blocks : list TextBlock) (block : TextBlock) :
  aligned pt -> words pt <> [] ->
  0 <= viewportWidth <= 65535 -> 0 < spaceOf ->
  layoutAndExtractLines renderer fontId Hyphenator_breakOffsets pt viewportWidth
                        includeLastLine = Some (ptf, blocks) ->
  In block blocks ->
  contentWidth renderer fontId spaceOf block <= viewportWidth ->
  Forall (fun gap => spaceOf <= gap)
         (gapsOf (drawnWidths renderer fontId block) (tb_wordXpos block)).
Proof.
  intros Hal Hne Hvw Hsw El Hin Hfit.
  destruct (layout_blocks pt viewportWidth includeLastLine ptf blocks block Hal Hne El Hin)
    as (isLastLine & ws & sts & Hws & _ & ->).
  unfold contentWidth, drawnWidths, makeBlock in Hfit. cbn [tb_words tb_wordStyles] in Hfit.
  rewrite drawnWidths_stripped in Hfit.
  exact (makeBlock_gaps_wide renderer fontId (style pt) isLastLine viewportWidth spaceOf
           ws sts Hvw Hsw Hws Hfit).
Qed.

End GeometryTheorems.

(** * The buffer between two layout calls *)

Lemma aligned_dropWords (b : nat) (pt : ParsedText) : aligned pt -> aligned (dropWords b pt).
Proof.
  unfold aligned, dropWords. cbn [withWords words wordStyles]. intros H.
  rewrite !length_skipn, H. reflexivity.
Qed.

Lemma aligned_addWord (pt : ParsedText) (word : bytes) (st : FontStyle) :
  aligned pt -> aligned (addWord pt word st).
Proof.
  unfold aligned, addWord. intros H. destruct (isEmpty word); [exact H|].
  cbn [withWords words wordStyles]. rewrite !length_app, H. reflexivity.
Qed.

Section BufferTheorems.

Variable renderer : GfxRenderer.
Variable fontId : Z.
Variable Hyphenator_breakOffsets : bytes -> bool -> list BreakInfo.

Local Abbreviation layout := (layoutAndExtractLines renderer fontId Hyphenator_breakOffsets).
Local Abbreviation spaceOf := (getSpaceWidth renderer fontId).

(** X6.  The pairing of words and styles is an invariant of the buffer:
    [addWord] keeps it, and so does a layout, which also leaves the
    alignment and the two flags of the paragraph untouched. *)
Theorem buffer_stays_aligned :
  (forall pt word st, aligned pt -> aligned (addWord pt word st))
  /\ (forall pt viewportWidth includeLastLine ptf blocks,
        aligned pt ->
        layoutAndExtractLines renderer fontId Hyphenator_breakOffsets pt viewportWidth
                              includeLastLine = Some (ptf, blocks) ->
        aligned ptf
        /\ style ptf = style pt
        /\ extraParagraphSpacing ptf = extraParagraphSpacing pt
        /\ hyphenationEnabled ptf = hyphenationEnabled pt).
Proof.
  split; [exact aligned_addWord|].
  intros pt viewportWidth includeLastLine ptf blocks Hal El.
  destruct (words pt) as [|w0 wr] eqn:Ew.
  - unfold layoutAndExtractLines in El. rewrite Ew in El. cbn [isEmpty] in El.
    injection El as <- _. repeat split. exact Hal.
  - assert (Hne : words pt <> []) by (rewrite Ew; congruence).
    destruct (layout_plan renderer fontId Hyphenator_breakOffsets pt viewportWidth Hal Hne)
      as (ptb & wwb & breaks & Eb & Hpost & Hcab & Hlay).
    rewrite (Hlay includeLastLine) in El. injection El as <- _.
    destruct Hpost as (Hokb & _ & _ & _ & (n & Hsp) & _).
    destruct (splits_flags renderer fontId Hyphenator_breakOffsets _ _ _ Hsp)
      as (H1 & H2 & H3). cbn [fst] in H1, H2, H3.
    destruct (applyParagraphIndent_length pt) as (_ & _ & G1 & G2 & G3).
    split; [apply aligned_dropWords; apply Hokb|].
    unfold dropWords. cbn [withWords style extraParagraphSpacing hyphenationEnabled].
    repeat split; congruence.
Qed.

(** X7.  A layout without the last line emits the lines of a full
    layout but the last, and keeps in the buffer exactly the words and
    styles of that last line (the words not yet stripped of their soft
    hyphens); the buffer it leaves is never empty. *)
Theorem withheld_line_stays_in_buffer (pt : ParsedText) (viewportWidth : Z) :
  aligned pt -> words pt <> [] ->
  exists ptAll ptRest earlier final,
    layoutAndExtractLines renderer fontId Hyphenator_breakOffsets pt viewportWidth true
    = Some (ptAll, earlier ++ [final])
    /\ layoutAndExtractLines renderer fontId Hyphenator_breakOffsets pt viewportWidth false
       = Some (ptRest, earlier)
    /\ words ptAll = []
    /\ words ptRest <> []
    /\ tb_words final = map stripIfSoftHyphen (words ptRest)
    /\ tb_wordStyles final = wordStyles ptRest.
Proof.
  intros Hal Hne.
  destruct (layout_plan renderer fontId Hyphenator_breakOffsets pt viewportWidth Hal Hne)
    as (ptb & wwb & breaks & Eb & Hpost & Hcab & Hlay).
  destruct Hpost as (Hokb & Hcov & Hnon & _).
  destruct (lastLineStart_cover (length wwb) 0 breaks Hcov Hnon) as (_ & Hb).
  destruct Hokb as [Halb Hlenb]. unfold aligned in Halb.
  set (b := lastLineStart 0 breaks) in *.
  do 4 eexists.
  split; [rewrite (Hlay true), (blocksOf_last _ _ _ _ _ _ 0 breaks (length wwb) Hcov Hnon);
          reflexivity|].
  split; [exact (Hlay false)|].
  fold b. unfold dropWords, makeBlock, slice.
  cbn [withWords words wordStyles tb_words tb_wordStyles].
  split; [apply skipn_all2; lia|].
  split.
  { intros E. pose proof (f_equal (@length bytes) E) as HL.
    rewrite length_skipn in HL. cbn [length] in HL. lia. }
  split; rewrite firstn_all2; try reflexivity; rewrite length_skipn; lia.
Qed.

End BufferTheorems.

(** * Stripping, measuring and splitting a word *)

Lemma strip_length (word : bytes) :
  (length (stripSoftHyphensInPlace word) <= length word)%nat
  /\ (containsSoftHyphen word = true ->
      (length (stripSoftHyphensInPlace word) < length word)%nat).
Proof.
  assert (G : forall n (w : bytes), (length w <= n)%nat ->
              (length (stripSoftHyphensInPlace w) <= length w)%nat
              /\ (containsSoftHyphen w = true ->
                  (length (stripSoftHyphensInPlace w) < length w)%nat)).
  { induction n as [|n IH]; intros w Hn.
    - destruct w; [split; [reflexivity|discriminate]|cbn [length] in Hn; lia].
    - destruct w as [|a [|b t]]; [split; [reflexivity|discriminate]
                                  |split; [reflexivity|discriminate]|].
      rewrite strip_cons2, containsSoftHyphen_cons2.
      cbn [length] in Hn.
      destruct (isSoftHyphenPair a b).
      + destruct (IH t ltac:(lia)) as [I1 _]. cbn [length]. split; [lia|intros _; lia].
      + destruct (IH (b :: t) ltac:(cbn [length]; lia)) as [I1 I2].
        cbn [length orb] in *. split; [lia|]. intros H. specialize (I2 H). lia. }
  exact (G (length word) word (le_n _)).
Qed.

Lemma strip_twice (word : bytes) :
  hasDoubleLead word = false ->
  containsSoftHyphen (stripSoftHyphensInPlace word) = false
  /\ stripSoftHyphensInPlace (stripSoftHyphensInPlace word) = stripSoftHyphensInPlace word.
Proof.
  intros Hclean. pose proof (strip_clean word Hclean) as Hc.
  split; [exact Hc|]. apply strip_without_soft_hyphen. exact Hc.
Qed.

(** X8.  Stripping leaves a word alone exactly when the word holds no
    soft hyphen; it never lengthens a word; and on a word without two
    [0xC2] bytes in a row (any well-formed UTF-8 text) the result holds no
    soft hyphen, so that stripping twice is stripping once. *)
Theorem strip_soft_hyphens_spec (word : bytes) :
  (stripSoftHyphensInPlace word = word <-> containsSoftHyphen word = false)
  /\ (length (stripSoftHyphensInPlace word) <= length word)%nat
  /\ (hasDoubleLead word = false ->
      containsSoftHyphen (stripSoftHyphensInPlace word) = false
      /\ stripSoftHyphensInPlace (stripSoftHyphensInPlace word)
         = stripSoftHyphensInPlace word).
Proof.
  destruct (strip_length word) as [Hle Hlt].
  split; [|split; [exact Hle|]].
  - split; [|apply strip_without_soft_hyphen].
    intros E. destruct (containsSoftHyphen word); [|reflexivity].
    specialize (Hlt eq_refl). rewrite E in Hlt. lia.
  - exact (strip_twice word).
Qed.

Section WordTheorems.

Variable renderer : GfxRenderer.
Variable fontId : Z.
Variable Hyphenator_breakOffsets : bytes -> bool -> list BreakInfo.

Local Abbreviation measure := (measureWordWidth renderer fontId).
Local Abbreviation hyphenate := (hyphenateWordAtIndex renderer fontId Hyphenator_breakOffsets).
Local Abbreviation cached := (cached renderer fontId).

(** X9.  A measured width is a [uint16_t]; measuring a word with
    [appendHyphen] is measuring the word followed by a hyphen; and the
    soft hyphens of a word add nothing to its width (on a word without
    two [0xC2] bytes in a row). *)
Theorem soft_hyphens_have_no_width (word : bytes) (st : FontStyle) (appendHyphen : bool) :
  0 <= measureWordWidth renderer fontId word st appendHyphen <= 65535
  /\ measureWordWidth renderer fontId word st true
     = measureWordWidth renderer fontId (word ++ [hyphenChar]) st false
  /\ (hasDoubleLead word = false ->
      measureWordWidth renderer fontId (stripSoftHyphensInPlace word) st appendHyphen
      = measureWordWidth renderer fontId word st appendHyphen).
Proof.
  split; [pose proof (measureWordWidth_range renderer fontId word st appendHyphen); lia|].
  split; [symmetry; exact (measureWordWidth_prefix renderer fontId word st true)|].
  intros Hclean. rewrite !measureWordWidth_stripped.
  destruct (strip_twice word Hclean) as [_ ->]. reflexivity.
Qed.

(** X10.  A successful split replaces the word, where it stands, by two
    non-empty parts that together hold the bytes of the word (the first
    one followed by a hyphen if the break asks for one); the width cached
    for the first part fits the available width; and the cached widths
    are still the measured widths of the words of the buffer. *)
Theorem split_keeps_bytes_and_cache
    (wordIndex : nat) (availableWidth : Z) (wordWidths : list Z) (allowFallback : bool)
    (pt pt' : ParsedText) (wordWidths' : list Z) :
  aligned pt -> cached pt wordWidths ->
  hyphenateWordAtIndex renderer fontId Hyphenator_breakOffsets wordIndex availableWidth
                       wordWidths allowFallback pt = (true, pt', wordWidths') ->
  exists before word after offset (needsHyphen : bool),
    words pt = before ++ word :: after /\ length before = wordIndex
    /\ (0 < offset < length word)%nat
    /\ words pt' = before
                   ++ (firstn offset word ++ (if needsHyphen then [hyphenChar] else []))
                   :: skipn offset word :: after
    /\ firstn offset word ++ skipn offset word = word
    /\ nth wordIndex wordWidths' 0 <= availableWidth
    /\ aligned pt' /\ cached pt' wordWidths'.
Proof.
  intros Hal Hca Eh.
  assert (Hlen : length wordWidths = length (words pt)).
  { unfold Voc.cached in Hca. rewrite Hca. apply widthsOf_length. }
  destruct (hyphenate_true_shape renderer fontId Hyphenator_breakOffsets _ _ _ _ _ _ _
              Hal Hlen Eh)
    as (before & word & after & sb & st & sa & wb & x & wa & info
        & Hw & Hs & Hx & L1 & L2 & L3 & Hin & Hf & Hbest & Ha & Hpt & Hww).
  destruct Hf as (Ho1 & Ho2 & Hfit).
  exists before, word, after, (bi_byteOffset info), (requiresInsertedHyphen info).
  split; [exact Hw|]. split; [exact L1|]. split; [lia|].
  split; [rewrite Hpt; reflexivity|]. split; [apply firstn_skipn|].
  split; [rewrite Hww, <- L3, nth_middle'; exact Hfit|].
  split.
  - exact (proj1 (hyphenate_true_aligned renderer fontId Hyphenator_breakOffsets
                    _ _ _ _ _ _ _ Hal Hlen Eh)).
  - exact (hyphenate_true_cached renderer fontId Hyphenator_breakOffsets
             _ _ _ _ _ _ _ Hal Hca Eh).
Qed.

End WordTheorems.

(** * More on the hyphenation facade *)

Section FacadeFacts.

Variable collectCodepoints : bytes -> list CodepointInfo.
Variable trimSurroundingPunctuationAndFootnote : list CodepointInfo -> list CodepointInfo.
Variables isExplicitHyphen isSoftHyphen isAlphabetic : Z -> bool.
Variables kDefaultMinPrefix kDefaultMinSuffix : nat.
Variable cachedHyphenator_ : option LanguageHyphenator.

Local Abbreviation buildExplicit :=
  (buildExplicitBreakInfos isExplicitHyphen isSoftHyphen isAlphabetic).
Local Abbreviation trimmed word :=
  (trimSurroundingPunctuationAndFootnote (collectCodepoints word)).

Lemma byteOffsetForIndex_in (cps : list CodepointInfo) (index : nat) :
  (exists cp, In cp cps /\ byteOffset cp = byteOffsetForIndex cps index)
  \/ (cps = [] /\ byteOffsetForIndex cps index = 0%nat).
Proof.
  unfold byteOffsetForIndex.
  destruct (Nat.ltb_spec index (length cps)) as [Hlt|Hge].
  - left. exists (nth index cps cpDefault). split; [apply nth_In; exact Hlt|reflexivity].
  - destruct cps as [|c cps']; [right; split; reflexivity|].
    left. exists (last (c :: cps') cpDefault). split; [|reflexivity].
    destruct (exists_last (l := c :: cps') ltac:(discriminate)) as (l' & x & E).
    rewrite E, last_last. apply in_or_app. right. now left.
Qed.

Lemma buildExplicitBreakInfos_in (cps : list CodepointInfo) (b : BreakInfo) :
  In b (buildExplicit cps) ->
  exists cp, In cp cps /\ byteOffset cp = bi_byteOffset b.
Proof.
  rewrite buildExplicitBreakInfos_markers. intros Hin.
  apply In_markerBreaks in Hin. destruct Hin as (k & _ & Hk & _ & Ho & _).
  exists (nth (k + 1) cps cpDefault). split; [apply nth_In; exact Hk|congruence].
Qed.

(** X11.  [includeFallback] only matters for a word that has neither an
    explicit marker break nor a break of the active language: with any of
    them the facade returns the same list for both values of the flag, and
    without them and without the flag it returns nothing. *)
Theorem fallback_only_without_other_breaks (word : bytes) :
  (buildExplicitBreakInfos isExplicitHyphen isSoftHyphen isAlphabetic (trimmed word) <> []
   \/ languageBreaks cachedHyphenator_ (trimmed word) <> [] ->
   breakOffsets collectCodepoints trimSurroundingPunctuationAndFootnote
                isExplicitHyphen isSoftHyphen isAlphabetic
                kDefaultMinPrefix kDefaultMinSuffix cachedHyphenator_ word true
   = breakOffsets collectCodepoints trimSurroundingPunctuationAndFootnote
                  isExplicitHyphen isSoftHyphen isAlphabetic
                  kDefaultMinPrefix kDefaultMinSuffix cachedHyphenator_ word false)
  /\ (buildExplicitBreakInfos isExplicitHyphen isSoftHyphen isAlphabetic (trimmed word) = [] ->
      languageBreaks cachedHyphenator_ (trimmed word) = [] ->
      breakOffsets collectCodepoints trimSurroundingPunctuationAndFootnote
                   isExplicitHyphen isSoftHyphen isAlphabetic
                   kDefaultMinPrefix kDefaultMinSuffix cachedHyphenator_ word false
      = []).
Proof.
  unfold breakOffsets. destruct word as [|b0 w]; [split; reflexivity|].
  cbn [isEmpty]. split.
  - intros [Hm|Hl].
    + apply isEmpty_false in Hm. rewrite Hm. reflexivity.
    + apply isEmpty_false in Hl. rewrite Hl. reflexivity.
  - intros -> ->. reflexivity.
Qed.

(** X12.  Every break that the facade returns points at the byte offset
    of one of the trimmed codepoints of the word (or at 0 when trimming
    left no codepoint), and every break that does not come from an
    explicit marker asks for an inserted hyphen. *)
Theorem breaks_point_at_codepoints (word : bytes) (includeFallback : bool) (b : BreakInfo) :
  In b (breakOffsets collectCodepoints trimSurroundingPunctuationAndFootnote
                     isExplicitHyphen isSoftHyphen isAlphabetic
                     kDefaultMinPrefix kDefaultMinSuffix cachedHyphenator_
                     word includeFallback) ->
  ((exists cp, In cp (trimmed word) /\ byteOffset cp = bi_byteOffset b)
   \/ (trimmed word = [] /\ bi_byteOffset b = 0%nat))
  /\ (buildExplicitBreakInfos isExplicitHyphen isSoftHyphen isAlphabetic (trimmed word) = [] ->
      requiresInsertedHyphen b = true).
Proof.
  unfold breakOffsets. destruct word as [|b0 w]; [intros []|]. cbn [isEmpty].
  destruct (isEmpty (buildExplicit (trimmed (b0 :: w)))) eqn:Ee; cbn [negb].
  - match goal with
    | |- In b (if isEmpty ?idx then _ else _) -> _ => set (indexes := idx)
    end.
    destruct (isEmpty indexes); [intros []|].
    intros Hin. apply in_map_iff in Hin. destruct Hin as (idx & <- & _).
    cbn [bi_byteOffset requiresInsertedHyphen]. split; [|reflexivity].
    destruct (byteOffsetForIndex_in (trimmed (b0 :: w)) idx) as [(cp & H1 & H2)|[H1 H2]].
    + left. exists cp. split; assumption.
    + right. split; assumption.
  - intros Hin. split.
    + left. apply buildExplicitBreakInfos_in. exact Hin.
    + intros E. rewrite E in Hin. destruct Hin.
Qed.

End FacadeFacts.

(** * Selecting the language *)

Lemma bytes_eqb_eq (a b : bytes) : bytes_eqb a b = true <-> a = b.
Proof.
  revert b. induction a as [|x a IH]; intros [|y b]; cbn [bytes_eqb];
    try (split; [discriminate|discriminate]); [split; reflexivity|].
  rewrite andb_true_iff, IH. split.
  - intros [H1 ->]. apply Byte.byte_dec_bl in H1. subst. reflexivity.
  - intros E. injection E as -> ->. split; [apply Byte.byte_dec_lb|]; reflexivity.
Qed.

(** Lowering a byte neither makes nor unmakes a separator, and lowering
    twice is lowering once. *)
Lemma toLowerAscii_facts (c : byte) :
  Byte.eqb (toLowerAscii c) x2d = Byte.eqb c x2d
  /\ Byte.eqb (toLowerAscii c) x5f = Byte.eqb c x5f
  /\ toLowerAscii (toLowerAscii c) = toLowerAscii c.
Proof. destruct c; vm_compute; repeat split. Qed.

Lemma primarySubtag_lower (tag : bytes) :
  primarySubtag (map toLowerAscii tag) = primarySubtag tag.
Proof.
  induction tag as [|c tag IH]; [reflexivity|].
  cbn [map primarySubtag].
  destruct (toLowerAscii_facts c) as (E1 & E2 & E3). rewrite E1, E2, E3, IH. reflexivity.
Qed.

Lemma primarySubtag_region (primary rest : bytes) (sep : byte) :
  sep = x2d \/ sep = x5f -> ~ In x2d primary -> ~ In x5f primary ->
  primarySubtag (primary ++ sep :: rest) = primarySubtag primary.
Proof.
  intros Hsep. induction primary as [|c p IH]; intros H1 H2.
  - cbn [app primarySubtag]. destruct Hsep as [-> | ->]; reflexivity.
  - cbn [app primarySubtag].
    destruct (Byte.eqb c x2d) eqn:E1.
    { apply Byte.byte_dec_bl in E1. subst c. exfalso. apply H1. now left. }
    destruct (Byte.eqb c x5f) eqn:E2.
    { apply Byte.byte_dec_bl in E2. subst c. exfalso. apply H2. now left. }
    cbn [orb]. rewrite IH; [reflexivity| |]; intros Hin; [apply H1|apply H2]; now right.
Qed.

Section LanguageFacts.

Variables englishHyphenator frenchHyphenator germanHyphenator russianHyphenator
  : LanguageHyphenator.

Local Abbreviation forLanguage :=
  (hyphenatorForLanguage englishHyphenator frenchHyphenator germanHyphenator
                         russianHyphenator).
Local Abbreviation forTag :=
  (getLanguageHyphenatorForPrimaryTag englishHyphenator frenchHyphenator germanHyphenator
                                      russianHyphenator).

Lemma hyphenatorForLanguage_primary (tag : bytes) :
  forLanguage tag
  = if isEmpty (primarySubtag tag) then None else forTag (primarySubtag tag).
Proof.
  unfold hyphenatorForLanguage. destruct tag as [|c tag]; reflexivity.
Qed.

(** X13.  The language is chosen by the primary subtag alone, whatever
    its case: a region subtag after ['-'] or ['_'] is ignored, and two
    tags that differ only in the case of their ASCII letters select the
    same hyphenator. *)
Theorem language_tag_is_normalised :
  (forall primary rest sep,
      sep = x2d \/ sep = x5f -> ~ In x2d primary -> ~ In x5f primary ->
      hyphenatorForLanguage englishHyphenator frenchHyphenator germanHyphenator
                            russianHyphenator (primary ++ sep :: rest)
      = hyphenatorForLanguage englishHyphenator frenchHyphenator germanHyphenator
                              russianHyphenator primary)
  /\ (forall tag tag',
        map toLowerAscii tag = map toLowerAscii tag' ->
        hyphenatorForLanguage englishHyphenator frenchHyphenator germanHyphenator
                              russianHyphenator tag
        = hyphenatorForLanguage englishHyphenator frenchHyphenator germanHyphenator
                                russianHyphenator tag').
Proof.
  split.
  - intros primary rest sep Hsep H1 H2.
    rewrite !hyphenatorForLanguage_primary, (primarySubtag_region _ _ _ Hsep H1 H2).
    reflexivity.
  - intros tag tag' E.
    rewrite !hyphenatorForLanguage_primary.
    rewrite <- (primarySubtag_lower tag), <- (primarySubtag_lower tag'), E. reflexivity.
Qed.

(** X14.  Exactly four languages are registered: a tag selects a
    hyphenator if and only if its primary subtag, in lower case, is "en",
    "fr", "de" or "ru", and it then selects the hyphenator of that
    language; the empty tag and every other tag select none. *)
Theorem registered_languages (tag : bytes) :
  let primary := primarySubtag tag in
  (hyphenatorForLanguage englishHyphenator frenchHyphenator germanHyphenator
                         russianHyphenator tag <> None
   <-> In primary [[x65; x6e]; [x66; x72]; [x64; x65]; [x72; x75]])
  /\ (primary = [x65; x6e] ->
      setPreferredLanguage englishHyphenator frenchHyphenator germanHyphenator
                           russianHyphenator tag = Some englishHyphenator)
  /\ (primary = [x66; x72] ->
      setPreferredLanguage englishHyphenator frenchHyphenator germanHyphenator
                           russianHyphenator tag = Some frenchHyphenator)
  /\ (primary = [x64; x65] ->
      setPreferredLanguage englishHyphenator frenchHyphenator germanHyphenator
                           russianHyphenator tag = Some germanHyphenator)
  /\ (primary = [x72; x75] ->
      setPreferredLanguage englishHyphenator frenchHyphenator germanHyphenator
                           russianHyphenator tag = Some russianHyphenator).
Proof.
  intros primary. unfold setPreferredLanguage.
  rewrite hyphenatorForLanguage_primary. fold primary.
  unfold getLanguageHyphenatorForPrimaryTag, entries. cbn [find primaryTag hyphenator].
  split.
  - destruct (bytes_eqb primary [x65; x6e]) eqn:E1.
    { apply bytes_eqb_eq in E1. rewrite E1. cbn. split; [auto|congruence]. }
    destruct (bytes_eqb primary [x66; x72]) eqn:E2.
    { apply bytes_eqb_eq in E2. rewrite E2. cbn. split; [auto|congruence]. }
    destruct (bytes_eqb primary [x64; x65]) eqn:E3.
    { apply bytes_eqb_eq in E3. rewrite E3. cbn. split; [auto|congruence]. }
    destruct (bytes_eqb primary [x72; x75]) eqn:E4.
    { apply bytes_eqb_eq in E4. rewrite E4. cbn. split; [auto 6|congruence]. }
    split.
    + destruct (isEmpty primary); congruence.
    + intros [H|[H|[H|[H|[]]]]]; subst primary; rewrite <- H in *;
        cbn in E1, E2, E3, E4; discriminate.
  - repeat split; intros ->; reflexivity.
Qed.

End LanguageFacts.

(** * The break indices *)

Lemma coverFrom_length start breaks total :
  coverFrom start breaks total -> (start + length breaks <= total)%nat.
Proof.
  revert start. induction breaks as [|e rest IH]; intros start Hcov.
  - cbn [coverFrom] in Hcov. cbn [length]. lia.
  - cbn [coverFrom] in Hcov. destruct Hcov as (H1 & H2 & Hcov).
    specialize (IH e Hcov). cbn [length]. lia.
Qed.

Section BreakTheorems.

Variable renderer : GfxRenderer.
Variable fontId : Z.
Variable Hyphenator_breakOffsets : bytes -> bool -> list BreakInfo.

Local Abbreviation breaker := (breakLines renderer fontId Hyphenator_breakOffsets).
Local Abbreviation dpBreaks := (computeLineBreaks renderer fontId Hyphenator_breakOffsets).

(** X15.  Both breakers return for every buffer.  The break indices they
    return increase strictly from above 0 and end at the number of words
    of the buffer as they leave it: the lines are non-empty, there are at
    most as many as words, and together they cover the buffer; splitting
    never removes a word.  An empty buffer gets no break. *)
Theorem break_indices_cut_the_buffer
    (pt : ParsedText) (wordWidths : list Z) (pageWidth spaceWidth : Z) :
  bufferOk pt wordWidths ->
  exists ptf wwf breaks,
    breakLines renderer fontId Hyphenator_breakOffsets pageWidth spaceWidth wordWidths pt
    = Some (ptf, wwf, breaks)
    /\ bufferOk ptf wwf
    /\ coverFrom 0 breaks (length (words ptf))
    /\ (length breaks <= length (words ptf))%nat
    /\ (length (words pt) <= length (words ptf))%nat
    /\ (words pt = [] <-> breaks = []).
Proof.
  intros Hok.
  destruct (words pt) as [|w0 wr] eqn:Ew.
  - assert (Hww : wordWidths = []).
    { destruct Hok as [_ Hl]. rewrite Ew in Hl. destruct wordWidths; [reflexivity|discriminate]. }
    exists pt, wordWidths, []. split.
    + unfold breakLines, computeHyphenatedLineBreaks, computeLineBreaks, bufferFuel.
      rewrite Ew, Hww. cbn. destruct (hyphenationEnabled pt); reflexivity.
    + rewrite Ew. cbn [coverFrom length]. repeat split; try lia; apply Hok.
  - assert (Hne : words pt <> []) by (rewrite Ew; congruence).
    destruct (breakLines_spec renderer fontId Hyphenator_breakOffsets pageWidth spaceWidth
                pt wordWidths Hok Hne)
      as (ptf & wwf & breaks & E & Hokf & Hcov & Hnon & _ & (n & Hsp) & _).
    destruct (splits_grow renderer fontId Hyphenator_breakOffsets _ _ _ Hsp Hok)
      as (_ & Hgrow). cbn [fst] in Hgrow.
    exists ptf, wwf, breaks. rewrite <- Ew.
    rewrite (proj2 Hokf) in Hcov.
    split; [exact E|]. split; [exact Hokf|]. split; [exact Hcov|].
    split; [pose proof (coverFrom_length _ _ _ Hcov); lia|].
    split; [lia|]. split; intros H; congruence.
Qed.

(** X16.  The DP breaker splits a word only if it is wider than the
    page: when every cached width fits the page, the buffer and the
    widths come back unchanged. *)
Theorem dp_breaker_keeps_fitting_words
    (pt : ParsedText) (wordWidths : list Z) (pageWidth spaceWidth : Z) :
  bufferOk pt wordWidths ->
  Forall (fun w => w <= pageWidth) wordWidths ->
  exists breaks,
    computeLineBreaks renderer fontId Hyphenator_breakOffsets pageWidth spaceWidth
                      wordWidths pt = Some (pt, wordWidths, breaks)
    /\ coverFrom 0 breaks (length (words pt)).
Proof.
  intros Hok Hfit.
  assert (Hlen : length wordWidths = length (words pt)) by apply Hok.
  unfold computeLineBreaks.
  destruct (words pt) as [|w0 wr] eqn:Ew; cbn [isEmpty].
  { exists []. split; reflexivity. }
  rewrite prepass_unchanged.
  2:{ intros k Hk. left. rewrite Forall_forall in Hfit. apply Hfit. apply nth_In. lia. }
  2:{ unfold bufferFuel. rewrite Ew, Hlen. cbn [length]. lia. }
  rewrite Ew, <- Hlen.
  destruct (dpFill pageWidth spaceWidth 0 wordWidths) as [dps ans] eqn:Et.
  assert (Hans : forall c, (c < length wordWidths)%nat ->
                           (c <= nth c ans 0 < length wordWidths)%nat).
  { intros c Hc.
    destruct (dpFill_ans pageWidth spaceWidth 0 wordWidths c Hc) as (G1 & G2 & _).
    rewrite Et in G1, G2. cbn [snd] in G1, G2. lia. }
  destruct (followBreaks_spec (S (length wordWidths)) ans (length wordWidths) 0 Hans
              ltac:(lia) ltac:(lia)) as (breaks & Ef & Hcov & _).
  rewrite Ef. exists breaks. split; [reflexivity|exact Hcov].
Qed.

End BreakTheorems.

(** * How often the greedy breaker splits *)

Section SplitCount.

Variable renderer : GfxRenderer.
Variable fontId : Z.
Variable Hyphenator_breakOffsets : bytes -> bool -> list BreakInfo.
Variables pageWidth spaceWidth : Z.

Local Abbreviation splits := (splits renderer fontId Hyphenator_breakOffsets).
Local Abbreviation lines := (hyphenatedLines renderer fontId Hyphenator_breakOffsets).

(** Every line closes with at most one split, and a line closed by a
    split is followed by another line. *)
Lemma hyphenatedLines_count fuel cur ww pt :
  bufferOk pt ww -> (cur <= length ww)%nat ->
  (scanMeasure (skipn cur (words pt)) < fuel)%nat ->
  exists ptf wwf breaks n,
    lines fuel pageWidth spaceWidth cur ww pt = Some (ptf, wwf, breaks)
    /\ splits n (pt, ww) (ptf, wwf)
    /\ (n = 0 \/ n < length breaks)%nat.
Proof.
  revert cur ww pt.
  induction fuel as [|fuel IH]; intros cur ww pt Hok Hcur Hfuel; [lia|].
  cbn [hyphenatedLines].
  destruct (Nat.ltb_spec cur (length ww)) as [Hlt|Hge].
  2:{ exists pt, ww, [], 0%nat. split; [reflexivity|]. split; [constructor|now left]. }
  destruct (fillLine_spec renderer fontId Hyphenator_breakOffsets pageWidth spaceWidth
              (S (length ww)) cur cur 0 ww pt Hok (le_n _) Hcur)
    as (pt1 & ww1 & cur1 & Ef & Hpost).
  { lia. }
  { rewrite slice_empty. reflexivity. }
  { lia. }
  rewrite Ef.
  destruct Hpost as (Hok1 & Hle1 & Hlen1 & Hprog & _ & Hch & _).
  specialize (Hprog Hlt).
  assert (Hw0 : length ww = length (words pt)) by apply Hok.
  assert (Hmeasure : (scanMeasure (skipn cur1 (words pt1))
                      < scanMeasure (skipn cur (words pt)))%nat).
  { destruct Hch as [E|(Hr & Hc1 & Hc2 & F1 & F2 & F3 & Hm)].
    - injection E as -> ->.
      pose proof (scanMeasure_skipn cur cur1 (words pt) ltac:(lia) ltac:(lia)). lia.
    - pose proof (realizedSplit_grows renderer fontId Hyphenator_breakOffsets
                    _ _ _ _ Hok Hr) as (_ & Hg & _).
      pose proof (scanMeasure_skipn cur (cur1 - 1) (words pt) ltac:(lia) ltac:(lia)). lia. }
  destruct (IH cur1 ww1 pt1 Hok1 Hlen1 ltac:(lia))
    as (ptf & wwf & rest & n & El & Hsp & Hn).
  destruct (hyphenatedLines_spec renderer fontId Hyphenator_breakOffsets pageWidth spaceWidth
              fuel cur1 ww1 pt1 Hok1 Hlen1 ltac:(lia))
    as (ptf' & wwf' & rest' & El' & Hl).
  rewrite El in El'. injection El' as <- <- <-.
  destruct Hl as (_ & _ & _ & _ & _ & _ & _ & _ & _ & Hne).
  rewrite El.
  destruct Hch as [E|(Hr & Hc1 & Hc2 & _)].
  - injection E as -> ->. exists ptf, wwf, (cur1 :: rest), n.
    split; [reflexivity|]. split; [exact Hsp|]. cbn [length]. lia.
  - exists ptf, wwf, (cur1 :: rest), (S n).
    split; [reflexivity|]. split; [econstructor; [exact Hr|exact Hsp]|].
    right. cbn [length]. specialize (Hne Hc2).
    destruct rest; [congruence|cbn [length] in *; lia].
Qed.

(** X19.  On a non-empty buffer the greedy breaker realizes fewer splits
    than it returns lines: the buffer grows by one word per split, and by
    fewer words than there are lines. *)
Theorem greedy_splits_less_than_lines (pt : ParsedText) (wordWidths : list Z) :
  bufferOk pt wordWidths -> words pt <> [] ->
  exists ptf wwf breaks n,
    computeHyphenatedLineBreaks renderer fontId Hyphenator_breakOffsets
                                pageWidth spaceWidth wordWidths pt
    = Some (ptf, wwf, breaks)
    /\ splits n (pt, wordWidths) (ptf, wwf)
    /\ length (words ptf) = (length (words pt) + n)%nat
    /\ (n < length breaks)%nat.
Proof.
  intros Hok Hne.
  assert (Hlen : length wordWidths = length (words pt)) by apply Hok.
  assert (Hpos : (0 < length wordWidths)%nat).
  { destruct (words pt); [congruence|cbn [length] in Hlen; lia]. }
  unfold computeHyphenatedLineBreaks.
  destruct (hyphenatedLines_count (bufferFuel pt) 0 wordWidths pt Hok ltac:(lia))
    as (ptf & wwf & breaks & n & E & Hsp & Hn).
  { unfold bufferFuel, scanMeasure. cbn [skipn]. lia. }
  destruct (hyphenatedLines_spec renderer fontId Hyphenator_breakOffsets pageWidth spaceWidth
              (bufferFuel pt) 0 wordWidths pt Hok ltac:(lia))
    as (ptf' & wwf' & breaks' & E' & Hl).
  { unfold bufferFuel, scanMeasure. cbn [skipn]. lia. }
  rewrite E in E'. injection E' as <- <- <-.
  destruct Hl as (_ & _ & _ & _ & _ & _ & _ & _ & _ & Hnonempty).
  specialize (Hnonempty Hpos).
  destruct (splits_grow renderer fontId Hyphenator_breakOffsets _ _ _ Hsp Hok)
    as (_ & Hgrow). cbn [fst] in Hgrow.
  exists ptf, wwf, breaks, n.
  split; [exact E|]. split; [exact Hsp|]. split; [exact Hgrow|].
  destruct Hn as [-> |Hn]; [|exact Hn].
  destruct breaks; [congruence|cbn [length]; lia].
Qed.

End SplitCount.

(** * Feeding and laying out in turns *)

Section StreamingFacts.

Variable renderer : GfxRenderer.
Variable fontId : Z.
Variable Hyphenator_breakOffsets : bytes -> bool -> list BreakInfo.

Local Abbreviation splits := (splits renderer fontId Hyphenator_breakOffsets).
Local Abbreviation layout := (layoutAndExtractLines renderer fontId Hyphenator_breakOffsets).
Local Abbreviation breaker := (breakLines renderer fontId Hyphenator_breakOffsets).
Local Abbreviation widths := (calculateWordWidths renderer fontId).
Local Abbreviation spaceOf := (getSpaceWidth renderer fontId).

(** One layout call: the breaker's buffer, and the words the call emits
    and keeps, which are the two ends of that buffer. *)
Lemma layout_counts pt viewportWidth includeLastLine :
  aligned pt -> words pt <> [] ->
  exists ptb wwb breaks n ptf blocks k,
    breaker viewportWidth spaceOf (widths (applyParagraphIndent pt)) (applyParagraphIndent pt)
    = Some (ptb, wwb, breaks)
    /\ splits n (applyParagraphIndent pt, widths (applyParagraphIndent pt)) (ptb, wwb)
    /\ length (words ptb) = (length (words pt) + n)%nat
    /\ layout pt viewportWidth includeLastLine = Some (ptf, blocks)
    /\ concat (map tb_words blocks) = map stripIfSoftHyphen (firstn k (words ptb))
    /\ words ptf = skipn k (words ptb)
    /\ aligned ptf
    /\ (k <= length (words ptb))%nat
    /\ (if includeLastLine then k = length (words ptb) else (k < length (words ptb))%nat).
Proof.
  intros Hal Hne.
  destruct (layout_plan renderer fontId Hyphenator_breakOffsets pt viewportWidth Hal Hne)
    as (ptb & wwb & breaks & Eb & Hpost & Hcab & Hlay).
  destruct Hpost as (Hokb & Hcov & Hnon & _ & (n & Hsp) & _).
  assert (Hok1 : bufferOk (applyParagraphIndent pt) (widths (applyParagraphIndent pt))).
  { apply calculateWordWidths_ok. apply applyParagraphIndent_shape. exact Hal. }
  destruct (splits_grow renderer fontId Hyphenator_breakOffsets _ _ _ Hsp Hok1)
    as (_ & Hgrow). cbn [fst] in Hgrow.
  rewrite (proj1 (applyParagraphIndent_length pt)) in Hgrow.
  assert (Hwb : length wwb = length (words ptb)) by apply Hokb.
  destruct (lastLineStart_cover (length wwb) 0 breaks Hcov Hnon) as (_ & Hb).
  set (count := if includeLastLine then length breaks else (length breaks - 1)%nat).
  assert (Hreach : reached count 0 breaks
                   = if includeLastLine then length wwb else lastLineStart 0 breaks).
  { unfold count. destruct includeLastLine;
      [apply reached_all; exact Hcov|apply reached_butlast]. }
  destruct (blocksOf_content (style ptb) viewportWidth spaceOf wwb (words ptb)
              (wordStyles ptb) count 0 breaks (length wwb) Hcov) as [Hc1 _].
  rewrite slice_from_0 in Hc1.
  exists ptb, wwb, breaks, n,
    (dropWords (if includeLastLine then length wwb else lastLineStart 0 breaks) ptb),
    (blocksOf (style ptb) viewportWidth spaceOf wwb (words ptb) (wordStyles ptb)
              count 0 breaks),
    (reached count 0 breaks).
  split; [exact Eb|].
  split; [exact Hsp|]. split; [exact Hgrow|]. split; [apply Hlay|].
  split; [exact Hc1|]. rewrite Hreach.
  split; [reflexivity|]. split; [apply aligned_dropWords; apply Hokb|].
  destruct includeLastLine; lia.
Qed.

(** X20.  Laying out in two turns loses no word.  A layout without the
    last line emits and keeps, in order, the words of the buffer that its
    breaker left after [n1] splits.  When more words are then fed with
    [addWord] and a layout with the last line follows, that layout emits,
    in order, all the words of the buffer that its breaker left after
    [n2] splits, and the buffer ends empty.  Together the two layouts emit
    as many words as the buffer held at first, plus the non-empty words
    fed in between, plus [n1 + n2]. *)
Theorem streaming_conserves_words
    (pt : ParsedText) (viewportWidth : Z) (more : list (bytes * FontStyle)) :
  aligned pt -> words pt <> [] ->
  exists pt1 earlier n1 ptb1 wwb1 breaks1 pt2 later n2 ptb2 wwb2 breaks2,
    layoutAndExtractLines renderer fontId Hyphenator_breakOffsets pt viewportWidth false
    = Some (pt1, earlier)
    /\ breakLines renderer fontId Hyphenator_breakOffsets viewportWidth spaceOf
                  (widths (applyParagraphIndent pt)) (applyParagraphIndent pt)
       = Some (ptb1, wwb1, breaks1)
    /\ splits n1 (applyParagraphIndent pt, widths (applyParagraphIndent pt)) (ptb1, wwb1)
    /\ length (words ptb1) = (length (words pt) + n1)%nat
    /\ concat (map tb_words earlier) ++ map stripIfSoftHyphen (words pt1)
       = map stripIfSoftHyphen (words ptb1)
    /\ words (feed pt1 more) = words pt1 ++ map fst (filter nonEmptyInput more)
    /\ layoutAndExtractLines renderer fontId Hyphenator_breakOffsets (feed pt1 more)
                             viewportWidth true
       = Some (pt2, later)
    /\ breakLines renderer fontId Hyphenator_breakOffsets viewportWidth spaceOf
                  (widths (applyParagraphIndent (feed pt1 more)))
                  (applyParagraphIndent (feed pt1 more))
       = Some (ptb2, wwb2, breaks2)
    /\ splits n2 (applyParagraphIndent (feed pt1 more),
                  widths (applyParagraphIndent (feed pt1 more))) (ptb2, wwb2)
    /\ length (words ptb2) = (length (words (feed pt1 more)) + n2)%nat
    /\ concat (map tb_words later) = map stripIfSoftHyphen (words ptb2)
    /\ words pt2 = []
    /\ length (concat (map tb_words (earlier ++ later)))
       = (length (words pt) + length (filter nonEmptyInput more) + n1 + n2)%nat.
Proof.
  intros Hal Hne.
  destruct (layout_counts pt viewportWidth false Hal Hne)
    as (ptb1 & wwb1 & breaks1 & n1 & pt1 & earlier & k1
        & Eb1 & Hsp1 & Hg1 & El1 & Hc1 & Hw1 & Hal1 & Hk1 & Hlt1).
  destruct (feed_words pt1 more) as (Hfw & Hfs & _).
  assert (Hal2 : aligned (feed pt1 more)).
  { unfold aligned in *. rewrite Hfw, Hfs, !length_app, !length_map, Hal1. reflexivity. }
  assert (Hne2 : words (feed pt1 more) <> []).
  { rewrite Hfw, Hw1. intros E. apply app_eq_nil in E. destruct E as [E _].
    pose proof (f_equal (@length bytes) E) as HL. rewrite length_skipn in HL.
    cbn [length] in HL. lia. }
  destruct (layout_counts (feed pt1 more) viewportWidth true Hal2 Hne2)
    as (ptb2 & wwb2 & breaks2 & n2 & pt2 & later & k2
        & Eb2 & Hsp2 & Hg2 & El2 & Hc2 & Hw2 & _ & _ & Hk2).
  exists pt1, earlier, n1, ptb1, wwb1, breaks1, pt2, later, n2, ptb2, wwb2, breaks2.
  split; [exact El1|]. split; [exact Eb1|]. split; [exact Hsp1|]. split; [exact Hg1|].
  split; [rewrite Hc1, Hw1, <- map_app, firstn_skipn; reflexivity|].
  split; [exact Hfw|].
  split; [exact El2|]. split; [exact Eb2|]. split; [exact Hsp2|]. split; [exact Hg2|].
  split; [rewrite Hc2, Hk2, firstn_all; reflexivity|].
  split; [rewrite Hw2, Hk2; apply skipn_all|].
  rewrite map_app, concat_app, length_app, Hc1, Hc2, !length_map, !length_firstn.
  rewrite Hk2, Hg2, Hfw, length_app, length_map, Hw1, length_skipn. lia.
Qed.

(** X21.  With hyphenation disabled, a paragraph whose words all fit the
    viewport is laid out without any split or inserted hyphen: the emitted
    words are the words of the buffer (the first one indented), in order,
    stripped of their soft hyphens. *)
Theorem fitting_words_are_emitted_whole (pt : ParsedText) (viewportWidth : Z) :
  aligned pt -> words pt <> [] -> hyphenationEnabled pt = false ->
  Forall (fun w => w <= viewportWidth) (widths (applyParagraphIndent pt)) ->
  exists ptf blocks,
    layoutAndExtractLines renderer fontId Hyphenator_breakOffsets pt viewportWidth true
    = Some (ptf, blocks)
    /\ words ptf = []
    /\ concat (map tb_words blocks)
       = map stripIfSoftHyphen (words (applyParagraphIndent pt))
    /\ concat (map tb_wordStyles blocks) = wordStyles pt.
Proof.
  intros Hal Hne Hhy Hfit.
  set (pt1 := applyParagraphIndent pt) in *.
  destruct (layout_plan renderer fontId Hyphenator_breakOffsets pt viewportWidth Hal Hne)
    as (ptb & wwb & breaks & Eb & Hpost & _ & Hlay).
  fold pt1 in Eb.
  assert (Hal1 : aligned pt1) by (apply applyParagraphIndent_shape; exact Hal).
  destruct (calculateWordWidths_ok renderer fontId pt1 Hal1) as [Hok1 _].
  assert (Hlen : length (widths pt1) = length (words pt1)) by apply Hok1.
  (* the DP breaker leaves the buffer as it is *)
  assert (Esame : ptb = pt1 /\ wwb = widths pt1).
  { unfold breakLines in Eb.
    replace (hyphenationEnabled pt1) with false in Eb
      by (unfold pt1; rewrite (proj1 (proj2 (proj2 (proj2 (applyParagraphIndent_length pt)))));
          symmetry; exact Hhy).
    unfold computeLineBreaks in Eb.
    destruct (words pt1) as [|w0 wr] eqn:Ew; cbn [isEmpty] in Eb.
    { injection Eb as <- <- _. split; reflexivity. }
    rewrite prepass_unchanged in Eb.
    2:{ intros k Hk. left. rewrite Forall_forall in Hfit. apply Hfit. apply nth_In. lia. }
    2:{ unfold bufferFuel. rewrite Ew, Hlen. cbn [length]. lia. }
    destruct (dpFill viewportWidth spaceOf 0 (widths pt1)) as [dps ans].
    destruct (followBreaks (S (length (words pt1))) ans (length (words pt1)) 0);
      [|discriminate].
    injection Eb as <- <- _. split; reflexivity. }
  destruct Esame as [-> ->].
  destruct Hpost as (_ & Hcov & _).
  destruct (blocksOf_content (style pt1) viewportWidth spaceOf (widths pt1) (words pt1)
              (wordStyles pt1) (length breaks) 0 breaks (length (widths pt1)) Hcov)
    as [Hc1 Hc2].
  rewrite (reached_all _ _ _ Hcov) in Hc1, Hc2.
  rewrite slice_from_0 in Hc1. rewrite slice_from_0 in Hc2.
  do 2 eexists. split; [exact (Hlay true)|].
  unfold dropWords. cbn [withWords words].
  split; [apply skipn_all2; lia|].
  split; [rewrite Hc1, firstn_all2 by lia; reflexivity|].
  rewrite Hc2, firstn_all2 by (unfold aligned in Hal1; lia).
  apply applyParagraphIndent_length.
Qed.

End StreamingFacts.

(** * The further properties on concrete paragraphs *)

Lemma dp_breaks_minimise_badness_witness :
  exists breaks,
    computeLineBreaks Sample.renderer 0 Run.facade 130 5 [30; 40; 20; 120; 10] Run.justified
    = Some (Run.justified, [30; 40; 20; 120; 10], breaks)
    /\ coverFrom 0 breaks 5
    /\ allFit 130 5 [30; 40; 20; 120; 10] 0 breaks
    /\ forall other,
         coverFrom 0 other 5 -> allFit 130 5 [30; 40; 20; 120; 10] 0 other ->
         breaksCost 130 5 [30; 40; 20; 120; 10] 0 breaks
         <= breaksCost 130 5 [30; 40; 20; 120; 10] 0 other.
Proof.
  apply (dp_breaks_minimise_badness Sample.renderer 0 Run.facade Run.justified
           [30; 40; 20; 120; 10] 130 5).
  - split; reflexivity.
  - discriminate.
  - lia.
  - lia.
  - repeat constructor; lia.
  - reflexivity.
Defined.

Lemma paragraph_on_one_line_witness :
  exists ptf block,
    Run.layout Run.shortCentred 100 true = Some (ptf, [block])
    /\ words ptf = [] /\ wordStyles ptf = []
    /\ tb_words block = map stripIfSoftHyphen (words (applyParagraphIndent Run.shortCentred))
    /\ tb_wordStyles block = wordStyles Run.shortCentred
    /\ Run.layout Run.shortCentred 100 false = Some (applyParagraphIndent Run.shortCentred, []).
Proof.
  apply (paragraph_on_one_line Sample.renderer 0 Run.facade Run.shortCentred 100).
  - reflexivity.
  - discriminate.
  - lia.
  - reflexivity.
  - apply Z.leb_le. reflexivity.
Defined.

Lemma fitting_lines_stay_inside_viewport_witness :
  exists ptf blocks block,
    Run.layout Run.rightAligned 100 true = Some (ptf, blocks)
    /\ nth_error blocks 2 = Some block
    /\ tb_wordXpos block = [55; 90]
    /\ insideViewport Sample.renderer 0 100 block.
Proof.
  do 3 eexists. split; [vm_compute; reflexivity|].
  split; [reflexivity|]. split; [reflexivity|].
  eapply (fitting_lines_stay_inside_viewport Sample.renderer 0 Run.facade
            Run.rightAligned 100 true).
  - reflexivity.
  - discriminate.
  - lia.
  - reflexivity.
  - vm_compute. reflexivity.
  - right. right. left. reflexivity.
  - apply Z.leb_le. reflexivity.
Defined.

Lemma lines_are_anchored_witness :
  exists ptf blocks block,
    Run.layout Run.shortCentred 101 true = Some (ptf, blocks)
    /\ nth_error blocks 0 = Some block
    /\ tb_wordXpos block = [23; 58]
    /\ tb_style block = CENTER_ALIGN
    /\ anchored Sample.renderer 0 101 block.
Proof.
  do 3 eexists. split; [vm_compute; reflexivity|].
  split; [reflexivity|]. split; [reflexivity|].
  destruct (lines_are_anchored Sample.renderer 0 Run.facade Run.shortCentred 101 true
              _ _ _ eq_refl ltac:(discriminate) eq_refl (or_introl eq_refl))
    as (Hst & _ & Hanchor).
  split; [exact Hst|].
  apply Hanchor; [lia|reflexivity|apply Z.leb_le; reflexivity].
Defined.

Lemma blocks_are_well_formed_witness :
  exists ptf blocks block,
    Run.layout Run.rightAligned 100 true = Some (ptf, blocks)
    /\ nth_error blocks 0 = Some block
    /\ tb_words block <> []
    /\ length (tb_wordXpos block) = length (tb_words block)
    /\ length (tb_wordStyles block) = length (tb_words block)
    /\ Forall (fun x => 0 <= x <= 65535) (tb_wordXpos block).
Proof.
  do 3 eexists. split; [vm_compute; reflexivity|].
  split; [reflexivity|].
  eapply (blocks_are_well_formed Sample.renderer 0 Run.facade Run.rightAligned 100 true).
  - reflexivity.
  - discriminate.
  - vm_compute. reflexivity.
  - left. reflexivity.
Defined.

Lemma oversized_word_offset_witness :
  exists ptf block,
    Run.layout Run.oneWordRight 15 true = Some (ptf, [block])
    /\ tb_wordXpos block = [65536 - (30 - 15)].
Proof.
  do 2 eexists. split; [vm_compute; reflexivity|].
  eapply (oversized_word_offset Sample.renderer 0 Run.facade Run.oneWordRight 15 true).
  - reflexivity.
  - discriminate.
  - lia.
  - vm_compute. reflexivity.
  - left. reflexivity.
  - reflexivity.
  - apply Z.ltb_lt. reflexivity.
Defined.

Lemma buffer_stays_aligned_witness :
  exists ptf blocks,
    Run.layout Run.justified 100 false = Some (ptf, blocks)
    /\ aligned ptf /\ style ptf = JUSTIFIED
    /\ aligned (addWord ptf [x61] BOLD).
Proof.
  do 2 eexists. split; [vm_compute; reflexivity|].
  destruct (proj2 (buffer_stays_aligned Sample.renderer 0 Run.facade)
              Run.justified 100 false _ _ eq_refl ltac:(vm_compute; reflexivity))
    as (H1 & H2 & _).
  split; [exact H1|]. split; [exact H2|].
  apply (proj1 (buffer_stays_aligned Sample.renderer 0 Run.facade)). exact H1.
Defined.

Lemma withheld_line_stays_in_buffer_witness :
  exists ptAll ptRest earlier final,
    Run.layout Run.rightAligned 100 true = Some (ptAll, earlier ++ [final])
    /\ Run.layout Run.rightAligned 100 false = Some (ptRest, earlier)
    /\ words ptAll = []
    /\ words ptRest <> []
    /\ tb_words final = map stripIfSoftHyphen (words ptRest)
    /\ tb_wordStyles final = wordStyles ptRest.
Proof.
  apply (withheld_line_stays_in_buffer Sample.renderer 0 Run.facade Run.rightAligned 100).
  - reflexivity.
  - discriminate.
Defined.

Lemma strip_soft_hyphens_spec_witness :
  containsSoftHyphen (stripSoftHyphensInPlace Run.mixedWord) = false
  /\ stripSoftHyphensInPlace (stripSoftHyphensInPlace Run.mixedWord)
     = stripSoftHyphensInPlace Run.mixedWord.
Proof.
  apply (proj2 (proj2 (strip_soft_hyphens_spec Run.mixedWord))). reflexivity.
Defined.

Lemma soft_hyphens_have_no_width_witness :
  measureWordWidth Sample.renderer 0 (stripSoftHyphensInPlace Run.mixedWord) REGULAR true
  = measureWordWidth Sample.renderer 0 Run.mixedWord REGULAR true.
Proof.
  apply (proj2 (proj2 (soft_hyphens_have_no_width Sample.renderer 0 Run.mixedWord
                         REGULAR true))).
  reflexivity.
Defined.

Lemma split_keeps_bytes_and_cache_witness :
  let pt' := withWords Run.oneMixedWord
                       [[x61; x62; x2d]; [x63; x64; xc2; xad; x65; x66]]
                       [REGULAR; REGULAR] in
  exists before word after offset (needsHyphen : bool),
    words Run.oneMixedWord = before ++ word :: after /\ length before = 0%nat
    /\ (0 < offset < length word)%nat
    /\ words pt'
       = before ++ (firstn offset word ++ (if needsHyphen then [hyphenChar] else []))
                :: skipn offset word :: after
    /\ firstn offset word ++ skipn offset word = word
    /\ nth 0 [30; 40] 0 <= 35
    /\ aligned pt' /\ cached Sample.renderer 0 pt' [30; 40].
Proof.
  intros pt'.
  apply (split_keeps_bytes_and_cache Sample.renderer 0 Run.facade 0%nat 35 [70] false
           Run.oneMixedWord pt' [30; 40]).
  - reflexivity.
  - reflexivity.
  - reflexivity.
Defined.

Lemma fallback_only_without_other_breaks_witness :
  Sample.breakOffsetsNoLanguage Run.mixedWord true
  = Sample.breakOffsetsNoLanguage Run.mixedWord false.
Proof.
  apply (proj1 (fallback_only_without_other_breaks Sample.collectCodepoints
                  Sample.trimSurroundingPunctuationAndFootnote Sample.isExplicitHyphen
                  Sample.isSoftHyphen Sample.isAlphabetic Sample.kDefaultMinPrefix
                  Sample.kDefaultMinSuffix None Run.mixedWord)).
  left. discriminate.
Defined.

Lemma breaks_point_at_codepoints_witness :
  (exists cp, In cp (Sample.trimSurroundingPunctuationAndFootnote
                       (Sample.collectCodepoints Run.mixedWord))
              /\ byteOffset cp = 7%nat)
  \/ (Sample.trimSurroundingPunctuationAndFootnote (Sample.collectCodepoints Run.mixedWord) = []
      /\ 7%nat = 0%nat).
Proof.
  apply (proj1 (breaks_point_at_codepoints Sample.collectCodepoints
                  Sample.trimSurroundingPunctuationAndFootnote Sample.isExplicitHyphen
                  Sample.isSoftHyphen Sample.isAlphabetic Sample.kDefaultMinPrefix
                  Sample.kDefaultMinSuffix None Run.mixedWord false (mkBreakInfo 7 true)
                  ltac:(right; left; reflexivity))).
Defined.

Lemma language_tag_is_normalised_witness :
  (* "en-US" and "en"; "EN" and "en" *)
  Run.forLanguage ([x65; x6e] ++ x2d :: [x55; x53]) = Run.forLanguage [x65; x6e]
  /\ Run.forLanguage [x45; x4e] = Run.forLanguage [x65; x6e].
Proof.
  split.
  - apply (proj1 (language_tag_is_normalised (Run.noPatterns 3 3) (Run.noPatterns 2 2)
                    (Run.noPatterns 2 2) (Run.noPatterns 2 2))).
    + left. reflexivity.
    + intros [H|[H|[]]]; discriminate.
    + intros [H|[H|[]]]; discriminate.
  - apply (proj2 (language_tag_is_normalised (Run.noPatterns 3 3) (Run.noPatterns 2 2)
                    (Run.noPatterns 2 2) (Run.noPatterns 2 2))).
    reflexivity.
Defined.

Lemma registered_languages_witness :
  (* "de_AT" *)
  setPreferredLanguage (Run.noPatterns 3 3) (Run.noPatterns 2 2) (Run.noPatterns 2 2)
                       (Run.noPatterns 2 2) [x64; x65; x5f; x41; x54]
  = Some (Run.noPatterns 2 2).
Proof.
  apply (proj1 (proj2 (proj2 (proj2
           (registered_languages (Run.noPatterns 3 3) (Run.noPatterns 2 2)
              (Run.noPatterns 2 2) (Run.noPatterns 2 2) [x64; x65; x5f; x41; x54]))))).
  reflexivity.
Defined.

Lemma break_indices_cut_the_buffer_witness :
  exists ptf wwf breaks,
    breakLines Sample.renderer 0 Run.facade 100 5 [30; 90] Run.twoWords
    = Some (ptf, wwf, breaks)
    /\ bufferOk ptf wwf
    /\ coverFrom 0 breaks (length (words ptf))
    /\ (length breaks <= length (words ptf))%nat
    /\ (length (words Run.twoWords) <= length (words ptf))%nat
    /\ (words Run.twoWords = [] <-> breaks = []).
Proof.
  apply (break_indices_cut_the_buffer Sample.renderer 0 Run.facade Run.twoWords [30; 90] 100 5).
  split; reflexivity.
Defined.

Lemma dp_breaker_keeps_fitting_words_witness :
  exists breaks,
    computeLineBreaks Sample.renderer 0 Run.facade 130 5 [30; 40; 20; 120; 10] Run.justified
    = Some (Run.justified, [30; 40; 20; 120; 10], breaks)
    /\ coverFrom 0 breaks (length (words Run.justified)).
Proof.
  apply (dp_breaker_keeps_fitting_words Sample.renderer 0 Run.facade Run.justified
           [30; 40; 20; 120; 10] 130 5).
  - split; reflexivity.
  - repeat constructor; lia.
Defined.

Lemma gaps_are_at_least_a_space_witness :
  exists ptf blocks block,
    Run.layout Run.justified 101 true = Some (ptf, blocks)
    /\ nth_error blocks 0 = Some block
    /\ gapsOf (drawnWidths Sample.renderer 0 block) (tb_wordXpos block) = [5; 5]
    /\ Forall (fun gap => 5 <= gap)
              (gapsOf (drawnWidths Sample.renderer 0 block) (tb_wordXpos block)).
Proof.
  do 3 eexists. split; [vm_compute; reflexivity|].
  split; [reflexivity|]. split; [reflexivity|].
  eapply (gaps_are_at_least_a_space Sample.renderer 0 Run.facade Run.justified 101 true).
  - reflexivity.
  - discriminate.
  - lia.
  - reflexivity.
  - vm_compute. reflexivity.
  - left. reflexivity.
  - apply Z.leb_le. reflexivity.
Defined.

Lemma greedy_splits_less_than_lines_witness :
  exists ptf wwf breaks n,
    computeHyphenatedLineBreaks Sample.renderer 0 Run.facade 100 5 [30; 90] Run.twoWords
    = Some (ptf, wwf, breaks)
    /\ splits Sample.renderer 0 Run.facade n (Run.twoWords, [30; 90]) (ptf, wwf)
    /\ length (words ptf) = (length (words Run.twoWords) + n)%nat
    /\ (n < length breaks)%nat.
Proof.
  apply (greedy_splits_less_than_lines Sample.renderer 0 Run.facade 100 5 Run.twoWords [30; 90]).
  - split; reflexivity.
  - discriminate.
Defined.

Lemma streaming_conserves_words_witness :
  let more := [([x61; x62], BOLD); ([], REGULAR)] in
  exists pt1 earlier n1 ptb1 wwb1 breaks1 pt2 later n2 ptb2 wwb2 breaks2,
    Run.layout Run.justified 100 false = Some (pt1, earlier)
    /\ breakLines Sample.renderer 0 Run.facade 100 (getSpaceWidth Sample.renderer 0)
                  (calculateWordWidths Sample.renderer 0 (applyParagraphIndent Run.justified))
                  (applyParagraphIndent Run.justified)
       = Some (ptb1, wwb1, breaks1)
    /\ splits Sample.renderer 0 Run.facade n1
              (applyParagraphIndent Run.justified,
               calculateWordWidths Sample.renderer 0 (applyParagraphIndent Run.justified))
              (ptb1, wwb1)
    /\ length (words ptb1) = (length (words Run.justified) + n1)%nat
    /\ concat (map tb_words earlier) ++ map stripIfSoftHyphen (words pt1)
       = map stripIfSoftHyphen (words ptb1)
    /\ words (feed pt1 more) = words pt1 ++ map fst (filter nonEmptyInput more)
    /\ Run.layout (feed pt1 more) 100 true = Some (pt2, later)
    /\ breakLines Sample.renderer 0 Run.facade 100 (getSpaceWidth Sample.renderer 0)
                  (calculateWordWidths Sample.renderer 0 (applyParagraphIndent (feed pt1 more)))
                  (applyParagraphIndent (feed pt1 more))
       = Some (ptb2, wwb2, breaks2)
    /\ splits Sample.renderer 0 Run.facade n2
              (applyParagraphIndent (feed pt1 more),
               calculateWordWidths Sample.renderer 0 (applyParagraphIndent (feed pt1 more)))
              (ptb2, wwb2)
    /\ length (words ptb2) = (length (words (feed pt1 more)) + n2)%nat
    /\ concat (map tb_words later) = map stripIfSoftHyphen (words ptb2)
    /\ words pt2 = []
    /\ length (concat (map tb_words (earlier ++ later)))
       = (length (words Run.justified) + length (filter nonEmptyInput more) + n1 + n2)%nat.
Proof.
  intros more.
  apply (streaming_conserves_words Sample.renderer 0 Run.facade Run.justified 100 more).
  - reflexivity.
  - discriminate.
Defined.

Lemma fitting_words_are_emitted_whole_witness :
  exists ptf blocks,
    Run.layout Run.rightAligned 130 true = Some (ptf, blocks)
    /\ words ptf = []
    /\ concat (map tb_words blocks)
       = map stripIfSoftHyphen (words (applyParagraphIndent Run.rightAligned))
    /\ concat (map tb_wordStyles blocks) = wordStyles Run.rightAligned.
Proof.
  apply (fitting_words_are_emitted_whole Sample.renderer 0 Run.facade Run.rightAligned 130).
  - reflexivity.
  - discriminate.
  - reflexivity.
  - change (Forall (fun w => w <= 130) [30; 40; 20; 120; 10]).
    repeat constructor; lia.
Defined.
